(** * rvec: the chunked vector [rvec::rope_vector<T, ChunkSize>]

    A shallow embedding of the container of [rope_vector.hpp] and of the
    properties its specification states about it.

    Three revisions of the header are embedded:
    - [Evolved]: the revision with [start_index], [front_chunk_index], raw
      [T*] chunks, [grow_front], [erase_front], [reserve], [shrink_to_fit],
      [memory_used] and bound checks written with [assert];
    - [Hpp]: [include/rvec/rope_vector.hpp], with [std::unique_ptr<T[]>]
      chunks and bound checks that throw [std::out_of_range];
    - [Owned]: the revision between the two, [Hpp] with [new T[ChunkSize]]
      arrays, [reserve], [capacity] and [shrink_to_fit].

    [size_type] is [std::size_t], taken to be 64 bits wide: every
    arithmetic result is reduced modulo [2^64] with [wrap]. *)

From Stdlib Require Import ZArith Lia String.
From stdpp Require Import base option list gmap.

Local Open Scope Z_scope.

(** ** [size_type] arithmetic *)

Definition size_type_modulus : Z := 2 ^ 64.

Definition size_type_max : Z := size_type_modulus - 1.

Definition wrap (z : Z) : Z := z mod size_type_modulus.

(** ** Outcomes of a member function *)

(** A chunk pointer [T*] is a handle into the free store. Handles are never
    reused, so a stale pointer is recognisable. *)
Definition handle := nat.

(** [std::out_of_range(what)]. *)
Inductive exn :=
| out_of_range (what : string).

(** What the language leaves undefined. *)
Inductive undefined_behaviour :=
| vector_subscript_out_of_range (k : Z)   (* chunks[k], k >= chunks.size() *)
| back_of_empty_vector                    (* chunks.back() on an empty vector *)
| use_after_free (h : handle)             (* access through a deleted chunk *)
| double_free (h : handle)                (* delete[] of a deleted chunk *)
| indeterminate_read (h : handle) (off : Z). (* read of a slot never assigned *)

(** The ways a call can end: it returns, it throws (the caller can catch the
    exception, the object is as it was at the throw), a failed [assert]
    terminates the process, the behaviour is undefined, or a [while] loop
    has not finished within the iteration budget. *)
Inductive outcome (St A : Type) :=
| Ret (a : A) (s : St)
| Throw (e : exn) (s : St)
| Abort (expr : string)
| Undefined (u : undefined_behaviour)
| OutOfFuel (s : St).

Arguments Ret {St A} a s.
Arguments Throw {St A} e s.
Arguments Abort {St A} expr.
Arguments Undefined {St A} u.
Arguments OutOfFuel {St A} s.

Definition M (St A : Type) : Type := St -> outcome St A.

Definition ret {St A} (a : A) : M St A := fun s => Ret a s.

Definition bind {St A B} (c : M St A) (k : A -> M St B) : M St B := fun s =>
  match c s with
  | Ret a s' => k a s'
  | Throw e s' => Throw e s'
  | Abort expr => Abort expr
  | Undefined u => Undefined u
  | OutOfFuel s' => OutOfFuel s'
  end.

Definition gets {St A} (f : St -> A) : M St A := fun s => Ret (f s) s.

Definition modify {St} (f : St -> St) : M St unit := fun s => Ret tt (f s).

Definition throw {St A} (e : exn) : M St A := fun s => Throw e s.

Notation "'let*' x ':=' c 'in' k" := (bind c (fun x => k))
  (at level 10, x name, c at level 100, k at level 200).

Notation "c ';;' k" := (bind c (fun _ => k))
  (at level 100, k at level 200, right associativity).

(** A call is recoverable when it ends in an exception. *)
Definition recoverable {St A} (o : outcome St A) : Prop :=
  exists e s, o = Throw e s.

(** A call is fatal when a failed [assert] ends the process. *)
Definition aborts {St A} (o : outcome St A) : Prop :=
  exists expr, o = Abort expr.

(** [for (i = lo; n iterations; ++i) body(i)]. *)
Fixpoint for_up {St} (n : nat) (i : Z) (body : Z -> M St unit) : M St unit :=
  match n with
  | O => ret tt
  | S n' => body i ;; for_up n' (i + 1) body
  end.

(** [for (i = hi; n iterations; --i) body(i)]. *)
Fixpoint for_down {St} (n : nat) (i : Z) (body : Z -> M St unit) : M St unit :=
  match n with
  | O => ret tt
  | S n' => body i ;; for_down n' (i - 1) body
  end.

(** [for (x : l) body(x)]. *)
Fixpoint for_each {St X} (l : list X) (body : X -> M St unit) : M St unit :=
  match l with
  | [] => ret tt
  | x :: l' => body x ;; for_each l' body
  end.

(** ** The evolved revision: raw chunks, front offset, first live chunk *)

Module Evolved.
Section RopeVector.

(** The element type [T], the value of [T{}], what [new T[ChunkSize]] leaves
    in a slot ([None] for a type such as [int], whose default initialisation
    leaves the slot indeterminate; [Some d] for a class type), [sizeof(T)],
    the template argument [ChunkSize], whether [NDEBUG] is defined (then
    [assert] expands to nothing), and the iteration budget of a [while]
    loop. *)
Context {T : Type}.
Variable value_init : T.
Variable default_init : option T.
Variable sizeof_T : Z.
Variable ChunkSize : Z.
Variable NDEBUG : bool.
Variable fuel : nat.

(** The object and the part of the free store it points into. [heap] holds
    the arrays that are alive; [chunks] is [std::vector<T*> chunks]. *)
Record machine := Machine {
  heap : gmap handle (list (option T));
  next_handle : handle;
  chunks : list handle;
  total_size : Z;
  start_index : Z;
  front_chunk_index : Z }.

(** [rope_vector() = default]. *)
Definition init : machine :=
  {| heap := ∅; next_handle := O; chunks := [];
     total_size := 0; start_index := 0; front_chunk_index := 0 |}.

Definition set_heap (f : gmap handle (list (option T)) -> gmap handle (list (option T)))
    (m : machine) : machine :=
  {| heap := f (heap m); next_handle := next_handle m; chunks := chunks m;
     total_size := total_size m; start_index := start_index m;
     front_chunk_index := front_chunk_index m |}.

Definition set_next_handle (h : handle) (m : machine) : machine :=
  {| heap := heap m; next_handle := h; chunks := chunks m;
     total_size := total_size m; start_index := start_index m;
     front_chunk_index := front_chunk_index m |}.

Definition set_chunks (f : list handle -> list handle) (m : machine) : machine :=
  {| heap := heap m; next_handle := next_handle m; chunks := f (chunks m);
     total_size := total_size m; start_index := start_index m;
     front_chunk_index := front_chunk_index m |}.

Definition set_total_size (z : Z) (m : machine) : machine :=
  {| heap := heap m; next_handle := next_handle m; chunks := chunks m;
     total_size := z; start_index := start_index m;
     front_chunk_index := front_chunk_index m |}.

Definition set_start_index (z : Z) (m : machine) : machine :=
  {| heap := heap m; next_handle := next_handle m; chunks := chunks m;
     total_size := total_size m; start_index := z;
     front_chunk_index := front_chunk_index m |}.

Definition set_front_chunk_index (z : Z) (m : machine) : machine :=
  {| heap := heap m; next_handle := next_handle m; chunks := chunks m;
     total_size := total_size m; start_index := start_index m;
     front_chunk_index := z |}.

(** [assert(cond)]. *)
Definition assert_ (cond : bool) (expr : string) : M machine unit :=
  if NDEBUG then ret tt
  else if cond then ret tt else fun _ => Abort expr.

(** [chunks.size()]. *)
Definition chunks_size (m : machine) : Z := Z.of_nat (length (chunks m)).

(** [chunks[k]]. *)
Definition chunks_at (k : Z) : M machine handle := fun m =>
  match chunks m !! Z.to_nat k with
  | Some h => Ret h m
  | None => Undefined (vector_subscript_out_of_range k)
  end.

(** [chunks.back()]. *)
Definition chunks_back : M machine handle := fun m =>
  match last (chunks m) with
  | Some h => Ret h m
  | None => Undefined back_of_empty_vector
  end.

(** A reference [T&] into a chunk: the chunk pointer and the offset. *)
Definition ref : Type := handle * Z.

(** Reading through a reference. *)
Definition load (r : ref) : M machine T := fun m =>
  match heap m !! r.1 with
  | None => Undefined (use_after_free r.1)
  | Some c =>
      match c !! Z.to_nat r.2 with
      | Some (Some v) => Ret v m
      | _ => Undefined (indeterminate_read r.1 r.2)
      end
  end.

(** Assigning through a reference. *)
Definition store (r : ref) (v : T) : M machine unit := fun m =>
  match heap m !! r.1 with
  | None => Undefined (use_after_free r.1)
  | Some c => Ret tt (set_heap (fun hp => <[r.1 := <[Z.to_nat r.2 := Some v]> c]> hp) m)
  end.

Definition chunk_index (i : Z) : Z := i / ChunkSize.

Definition within_chunk_index (i : Z) : Z := i mod ChunkSize.

(** [new T[ChunkSize]]. *)
Definition allocate_chunk : M machine handle := fun m =>
  let h := next_handle m in
  Ret h (set_next_handle (S h)
          (set_heap (fun hp => <[h := replicate (Z.to_nat ChunkSize) default_init]> hp) m)).

(** [delete[] chunk]. *)
Definition free_chunk (h : handle) : M machine unit := fun m =>
  match heap m !! h with
  | Some _ => Ret tt (set_heap (fun hp => delete h hp) m)
  | None => Undefined (double_free h)
  end.

(** [while (i >= chunks.size() * ChunkSize) chunks.emplace_back(allocate_chunk());] *)
Fixpoint ensure_capacity_for_loop (n : nat) (i : Z) : M machine unit := fun m =>
  if wrap (chunks_size m * ChunkSize) <=? i then
    match n with
    | O => OutOfFuel m
    | S n' =>
        (let* h := allocate_chunk in
         modify (set_chunks (fun cs => cs ++ [h])) ;;
         ensure_capacity_for_loop n' i) m
    end
  else Ret tt m.

Definition ensure_capacity_for (i : Z) : M machine unit :=
  ensure_capacity_for_loop fuel i.

Definition grow_front : M machine unit :=
  let* h := allocate_chunk in
  modify (set_chunks (fun cs => h :: cs)) ;;
  let* s := gets start_index in
  modify (set_start_index (wrap (s + ChunkSize))) ;;
  let* f := gets front_chunk_index in
  modify (set_front_chunk_index (wrap (f + 1))).

(** [~rope_vector()]. *)
Definition destroy : M machine unit :=
  let* cs := gets chunks in
  for_each cs free_chunk.

Definition memory_used (m : machine) : Z :=
  wrap (wrap (chunks_size m * ChunkSize) * sizeof_T).

(** The specification's formula for [memory_used()], written from its words:
    [(|ChunkArray| - FrontChunkIndex) * ChunkSize * element_size]. *)
Definition spec_memory_used (m : machine) : Z :=
  (chunks_size m - front_chunk_index m) * ChunkSize * sizeof_T.

Definition size (m : machine) : Z := total_size m.

Definition empty (m : machine) : bool := total_size m =? 0.

(** [operator[]]: the reference it returns. *)
Definition subscript (i : Z) : M machine ref :=
  let* n := gets total_size in
  assert_ (i <? n) "i < total_size" ;;
  let* s := gets start_index in
  let real_index := wrap (s + i) in
  let* f := gets front_chunk_index in
  let* h := chunks_at (wrap (f + chunk_index real_index)) in
  ret (h, within_chunk_index real_index).

Definition at_ (i : Z) : M machine ref :=
  let* n := gets total_size in
  assert_ (i <? n) "rvec::at() index out of range" ;;
  subscript i.

Definition front : M machine ref :=
  let* e := gets empty in
  assert_ (negb e) "rvec::front() called on empty vector" ;;
  subscript 0.

Definition back : M machine ref :=
  let* e := gets empty in
  assert_ (negb e) "rvec::back() called on empty vector" ;;
  let* n := gets total_size in
  subscript (wrap (n - 1)).

Definition clear : M machine unit :=
  let* cs := gets chunks in
  for_each cs free_chunk ;;
  modify (set_chunks (fun _ => [])) ;;
  modify (set_total_size 0) ;;
  modify (set_start_index 0) ;;
  modify (set_front_chunk_index 0).

Definition resize (new_size : Z) : M machine unit :=
  let* n := gets total_size in
  if new_size <? n then modify (set_total_size new_size)
  else
    let* s := gets start_index in
    ensure_capacity_for (wrap (wrap (s + new_size) - 1)) ;;
    for_up (Z.to_nat (new_size - n)) n (fun i =>
      let* h := chunks_at (chunk_index i) in
      store (h, within_chunk_index i) value_init) ;;
    modify (set_total_size new_size).

Definition capacity (m : machine) : Z :=
  wrap (wrap (wrap (chunks_size m - front_chunk_index m) * ChunkSize) - start_index m).

Definition reserve (n : Z) : M machine unit :=
  let* c := gets capacity in
  if c <? n then
    let* s := gets start_index in
    ensure_capacity_for (wrap (wrap (s + n) - 1))
  else ret tt.

(** [while (chunks.size() > required_chunks) { free_chunk(chunks.back()); chunks.pop_back(); }] *)
Fixpoint shrink_to_fit_loop (n : nat) (required_chunks : Z) : M machine unit := fun m =>
  if required_chunks <? chunks_size m then
    match n with
    | O => OutOfFuel m
    | S n' =>
        (let* h := chunks_back in
         free_chunk h ;;
         modify (set_chunks (fun cs => removelast cs)) ;;
         shrink_to_fit_loop n' required_chunks) m
    end
  else Ret tt m.

Definition shrink_to_fit : M machine unit :=
  let* s := gets start_index in
  let* n := gets total_size in
  let required_chunks :=
    wrap (chunk_index (wrap (s + n))
          + (if within_chunk_index (wrap (s + n)) =? 0 then 0 else 1)) in
  shrink_to_fit_loop fuel required_chunks.

(** A reference parameter ([T&& value]) as the caller binds it: to an object
    outside the container, which holds [v] for the whole call, or to a slot
    of one of the container's arrays, which holds what the callee has left
    there by the time it reads the parameter. *)
Inductive reference :=
| Outside (v : T)
| Slot (r : ref).

Definition read_reference (value : reference) : M machine T :=
  match value with
  | Outside v => ret v
  | Slot r => load r
  end.

(** The element is assigned through [operator[]] applied to
    [total_size++]: the increment is complete before [operator[]] runs its
    [assert]. *)
Definition push_back (value : T) : M machine unit :=
  let* s := gets start_index in
  let* n := gets total_size in
  ensure_capacity_for (wrap (s + n)) ;;
  modify (set_total_size (wrap (n + 1))) ;;
  let* r := subscript n in
  store r value.

(** Placement new at the slot of [total_size++], [value] being
    [T(args...)]. *)
Definition emplace_back (value : T) : M machine unit :=
  let* s := gets start_index in
  let* n := gets total_size in
  ensure_capacity_for (wrap (s + n)) ;;
  modify (set_total_size (wrap (n + 1))) ;;
  let* r := subscript n in
  store r value.

(** Move assignment of slot [src] to slot [dst], both through
    [operator[]], the right operand first. The moved-from slot keeps its
    value, as for [int]. *)
Definition move_slot (dst src : Z) : M machine unit :=
  let* from := subscript src in
  let* to := subscript dst in
  let* v := load from in
  store to v.

(** [push_back(T&& value)] as [insert] calls it, with its own parameter:
    the reference is read when the element is assigned. *)
Definition push_back_reference (value : reference) : M machine unit :=
  let* s := gets start_index in
  let* n := gets total_size in
  ensure_capacity_for (wrap (s + n)) ;;
  modify (set_total_size (wrap (n + 1))) ;;
  let* r := subscript n in
  let* v := read_reference value in
  store r v.

(** [insert(size_type pos, T&& value)]: [value] is read where the source
    assigns from it, after the shift loop of the branch. *)
Definition insert (pos : Z) (value : reference) : M machine unit :=
  let* n := gets total_size in
  assert_ (pos <=? n) "pos <= total_size" ;;
  let* s := gets start_index in
  ensure_capacity_for (wrap (s + n)) ;;
  if pos =? 0 then
    (if s =? 0 then grow_front else ret tt) ;;
    let* s := gets start_index in
    modify (set_start_index (wrap (s - 1))) ;;
    modify (set_total_size (wrap (n + 1))) ;;
    let* r := subscript 0 in
    let* v := read_reference value in
    store r v
  else if pos =? n then
    push_back_reference value
  else if pos <? n / 2 then
    (if s =? 0 then grow_front else ret tt) ;;
    let* s := gets start_index in
    modify (set_start_index (wrap (s - 1))) ;;
    modify (set_total_size (wrap (n + 1))) ;;
    for_up (Z.to_nat pos) 0 (fun i => move_slot i (wrap (i + 1))) ;;
    let* r := subscript pos in
    let* v := read_reference value in
    store r v
  else
    for_down (Z.to_nat (n - pos)) n (fun i => move_slot i (wrap (i - 1))) ;;
    let* r := subscript pos in
    let* v := read_reference value in
    store r v ;;
    modify (set_total_size (wrap (n + 1))).

Definition erase (pos : Z) : M machine unit :=
  let* n := gets total_size in
  assert_ (pos <? n) "erase position out of bounds" ;;
  for_up (Z.to_nat (wrap (n - 1) - pos)) pos (fun i => move_slot i (wrap (i + 1))) ;;
  modify (set_total_size (wrap (n - 1))).

Definition erase_front : M machine unit :=
  let* e := gets empty in
  assert_ (negb e) "!empty()" ;;
  let* s := gets start_index in
  modify (set_start_index (wrap (s + 1))) ;;
  let* n := gets total_size in
  modify (set_total_size (wrap (n - 1))) ;;
  let* s := gets start_index in
  if ChunkSize <=? s then
    let* f := gets front_chunk_index in
    let* h := chunks_at f in
    free_chunk h ;;
    modify (set_front_chunk_index (wrap (f + 1))) ;;
    modify (set_start_index (wrap (s - ChunkSize)))
  else ret tt.

(** The value read at logical index [i]. *)
Definition read (i : Z) : M machine T :=
  let* r := subscript i in
  load r.

Fixpoint read_range (n : nat) (i : Z) : M machine (list T) :=
  match n with
  | O => ret []
  | S n' =>
      let* v := read i in
      let* vs := read_range n' (i + 1) in
      ret (v :: vs)
  end.

(** The logical sequence: the values at indices [0 .. size() - 1]. *)
Definition to_list : M machine (list T) :=
  let* n := gets total_size in
  read_range (Z.to_nat n) 0.

(** The mutating part of the public interface, called with arguments that
    are not elements of the container (literals, temporaries, the caller's
    own objects). *)
Inductive op :=
| PushBack (v : T)
| EmplaceBack (v : T)
| Insert (pos : Z) (v : T)
| Erase (pos : Z)
| EraseFront
| Resize (n : Z)
| Reserve (n : Z)
| ShrinkToFit
| Clear.

Definition step (o : op) : M machine unit :=
  match o with
  | PushBack v => push_back v
  | EmplaceBack v => emplace_back v
  | Insert pos v => insert pos (Outside v)
  | Erase pos => erase pos
  | EraseFront => erase_front
  | Resize n => resize n
  | Reserve n => reserve n
  | ShrinkToFit => shrink_to_fit
  | Clear => clear
  end.

(** A sequence of calls on a default-constructed container. *)
Definition run (os : list op) : outcome machine unit :=
  for_each os step init.

(** ** How the container lays a sequence out *)

(** The physical position of logical index [i], counted in slots from the
    first slot of [chunks[0]]: [operator[]] goes to the chunk at
    [front_chunk_index + (start_index + i) / ChunkSize] and to the offset
    [(start_index + i) % ChunkSize] in it. *)
Definition position (m : machine) (i : Z) : Z :=
  front_chunk_index m * ChunkSize + start_index m + i.

(** What the slot at a physical position holds: [None] when there is no
    such chunk or its array has been deleted, [Some None] for a slot never
    assigned. *)
Definition slot_at (m : machine) (p : Z) : option (option T) :=
  match chunks m !! Z.to_nat (p / ChunkSize) with
  | Some h =>
      match heap m !! h with
      | Some c => c !! Z.to_nat (p mod ChunkSize)
      | None => None
      end
  | None => None
  end.

(** The bookkeeping is sound: the offsets are in range, nothing wraps, the
    chunk pointers are distinct and were handed out by [allocate_chunk], the
    entries from [front_chunk_index] on point to allocated arrays of
    [ChunkSize] slots and the entries before it to arrays already deleted. *)
Record well_formed (m : machine) : Prop := WellFormed {
  wf_start : 0 <= start_index m < ChunkSize;
  wf_front : 0 <= front_chunk_index m <= chunks_size m;
  wf_bound : chunks_size m * ChunkSize < size_type_modulus;
  wf_nodup : NoDup (chunks m);
  wf_fresh : ∀ h, h ∈ chunks m → (h < next_handle m)%nat;
  wf_live : ∀ (k : nat) h, front_chunk_index m <= Z.of_nat k →
            chunks m !! k = Some h →
            ∃ c, heap m !! h = Some c ∧ Z.of_nat (length c) = ChunkSize;
  wf_dead : ∀ (k : nat) h, Z.of_nat k < front_chunk_index m →
            chunks m !! k = Some h → heap m !! h = None }.

(** The logical slots [0 .. length L - 1] lie within the chunks, and slot
    [i] holds [v] wherever [L] says [Some v]; where [L] says [None] the slot
    may hold anything. *)
Definition layout (m : machine) (L : list (option T)) : Prop :=
  well_formed m
  ∧ position m (Z.of_nat (length L)) <= chunks_size m * ChunkSize
  ∧ ∀ (i : nat) v, L !! i = Some (Some v) →
      slot_at m (position m (Z.of_nat i)) = Some (Some v).

(** The container holds the sequence [l]. *)
Definition represents (m : machine) (l : list T) : Prop :=
  total_size m = Z.of_nat (length l) ∧ layout m (Some <$> l).

(** Two states of the container that differ at most in what the arrays
    hold. *)
Definition same_bookkeeping (m m' : machine) : Prop :=
  chunks m' = chunks m
  ∧ next_handle m' = next_handle m
  ∧ total_size m' = total_size m
  ∧ start_index m' = start_index m
  ∧ front_chunk_index m' = front_chunk_index m.

(** ** Equality *)

(** [T]'s [operator!=]. *)
Variable T_ne : T -> T -> bool.

(** A [const] member function run on another object: its result, this
    object untouched. *)
Definition on_other {A} (other : machine) (c : M machine A) : M machine A :=
  fun m =>
    match c other with
    | Ret a _ => Ret a m
    | Throw e _ => Throw e m
    | Abort expr => Abort expr
    | Undefined u => Undefined u
    | OutOfFuel _ => OutOfFuel m
    end.

(** The loop of [operator==]: it returns [false] at the first index where
    the elements differ. *)
Fixpoint equal_loop (n : nat) (i : Z) (other : machine) : M machine bool :=
  match n with
  | O => ret true
  | S n' =>
      let* a := read i in
      let* b := on_other other (read i) in
      if T_ne a b then ret false else equal_loop n' (i + 1) other
  end.

(** [operator==]. *)
Definition equal (other : machine) : M machine bool :=
  let* n := gets total_size in
  if negb (n =? total_size other) then ret false
  else equal_loop (Z.to_nat n) 0 other.

(** [operator!=]. *)
Definition not_equal (other : machine) : M machine bool :=
  let* b := equal other in
  ret (negb b).

(** ** Iterators *)

(** The address of a container, as an iterator's [parent] holds it. *)
Definition address := nat.

(** [iterator] and [const_iterator]: the same members, the same code. *)
Record iterator := Iterator {
  parent : address;
  index : Z }.

Definition begin_ (this : address) : iterator := Iterator this 0.

Definition end_ (this : address) (m : machine) : iterator :=
  Iterator this (total_size m).

(** [operator*], on the container [parent] points to. *)
Definition iterator_deref (it : iterator) : M machine ref :=
  subscript (index it).

(** [operator++] and [operator--]. *)
Definition iterator_increment (it : iterator) : iterator :=
  Iterator (parent it) (wrap (index it + 1)).

Definition iterator_decrement (it : iterator) : iterator :=
  Iterator (parent it) (wrap (index it - 1)).

(** [operator+] and [operator-] with a [difference_type]: the signed
    operand is converted to [size_type]. *)
Definition iterator_plus (it : iterator) (n : Z) : iterator :=
  Iterator (parent it) (wrap (index it + n)).

Definition iterator_minus (it : iterator) (n : Z) : iterator :=
  Iterator (parent it) (wrap (index it - n)).

(** The comparisons look at [index] only. *)
Definition iterator_eq (a b : iterator) : bool := index a =? index b.

Definition iterator_ne (a b : iterator) : bool := negb (index a =? index b).

Definition iterator_lt (a b : iterator) : bool := index a <? index b.

(** [reverse_iterator] and [const_reverse_iterator]. *)
Record reverse_iterator := ReverseIterator {
  rparent : address;
  rindex : Z }.

Definition rbegin (this : address) (m : machine) : reverse_iterator :=
  ReverseIterator this (total_size m).

Definition rend (this : address) : reverse_iterator := ReverseIterator this 0.

Definition reverse_deref (it : reverse_iterator) : M machine ref :=
  subscript (wrap (rindex it - 1)).

Definition reverse_increment (it : reverse_iterator) : reverse_iterator :=
  ReverseIterator (rparent it) (wrap (rindex it - 1)).

Definition reverse_decrement (it : reverse_iterator) : reverse_iterator :=
  ReverseIterator (rparent it) (wrap (rindex it + 1)).

Definition reverse_plus (it : reverse_iterator) (n : Z) : reverse_iterator :=
  ReverseIterator (rparent it) (wrap (rindex it - n)).

Definition reverse_minus (it : reverse_iterator) (n : Z) : reverse_iterator :=
  ReverseIterator (rparent it) (wrap (rindex it + n)).

(** Here [operator==] compares the parents too. *)
Definition reverse_eq (a b : reverse_iterator) : bool :=
  (rindex a =? rindex b) && Nat.eqb (rparent a) (rparent b).

Definition reverse_ne (a b : reverse_iterator) : bool := negb (reverse_eq a b).

Definition reverse_lt (a b : reverse_iterator) : bool := rindex b <? rindex a.

(** The loops of the demonstration programs,
    [for (it = first; it != last; ++it) ... *it ...], with the values read
    collected in order. *)
Fixpoint forward_loop (n : nat) (it last : iterator) : M machine (list T) :=
  if iterator_ne it last then
    match n with
    | O => fun m => OutOfFuel m
    | S n' =>
        let* r := iterator_deref it in
        let* v := load r in
        let* vs := forward_loop n' (iterator_increment it) last in
        ret (v :: vs)
    end
  else ret [].

Fixpoint reverse_loop (n : nat) (it last : reverse_iterator)
    : M machine (list T) :=
  if reverse_ne it last then
    match n with
    | O => fun m => OutOfFuel m
    | S n' =>
        let* r := reverse_deref it in
        let* v := load r in
        let* vs := reverse_loop n' (reverse_increment it) last in
        ret (v :: vs)
    end
  else ret [].

(** From [begin()] to [end()]. *)
Definition iterate (this : address) : M machine (list T) :=
  let* last := gets (end_ this) in
  forward_loop fuel (begin_ this) last.

(** From [rbegin()] to [rend()]. *)
Definition iterate_reverse (this : address) : M machine (list T) :=
  let* first := gets (rbegin this) in
  reverse_loop fuel first (rend this).

End RopeVector.
End Evolved.

(** ** [include/rvec/rope_vector.hpp]: owned chunks, throwing bound checks *)

Module Hpp.
Section RopeVector.

Context {T : Type}.
Variable value_init : T.
Variable ChunkSize : Z.
Variable NDEBUG : bool.
Variable fuel : nat.

(** [std::vector<std::unique_ptr<T[]>> chunks]: each array has one owner,
    the vector, so the arrays themselves are the vector's entries. *)
Record machine := Machine {
  chunks : list (list T);
  total_size : Z }.

Definition init : machine := {| chunks := []; total_size := 0 |}.

Definition assert_ (cond : bool) (expr : string) : M machine unit :=
  if NDEBUG then ret tt
  else if cond then ret tt else fun _ => Abort expr.

Definition chunks_size (m : machine) : Z := Z.of_nat (length (chunks m)).

Definition chunk_index (i : Z) : Z := i / ChunkSize.

Definition within_chunk_index (i : Z) : Z := i mod ChunkSize.

(** A reference [T&]: the position of the chunk in [chunks] and the offset. *)
Definition ref : Type := Z * Z.

(** [chunks[k]]: the position is good when the vector has that entry. *)
Definition chunks_at (k : Z) : M machine Z := fun m =>
  match chunks m !! Z.to_nat k with
  | Some _ => Ret k m
  | None => Undefined (vector_subscript_out_of_range k)
  end.

(** [std::make_unique<T[]>(ChunkSize)] value-initialises the array. *)
Fixpoint ensure_capacity_for_loop (n : nat) (i : Z) : M machine unit := fun m =>
  if wrap (chunks_size m * ChunkSize) <=? i then
    match n with
    | O => OutOfFuel m
    | S n' =>
        ensure_capacity_for_loop n' i
          {| chunks := chunks m ++ [replicate (Z.to_nat ChunkSize) value_init];
             total_size := total_size m |}
    end
  else Ret tt m.

Definition ensure_capacity_for (i : Z) : M machine unit :=
  ensure_capacity_for_loop fuel i.

Definition size (m : machine) : Z := total_size m.

Definition empty (m : machine) : bool := total_size m =? 0.

Definition subscript (i : Z) : M machine ref :=
  let* n := gets total_size in
  assert_ (i <? n) "i < total_size" ;;
  let* k := chunks_at (chunk_index i) in
  ret (k, within_chunk_index i).

Definition at_ (i : Z) : M machine ref :=
  let* n := gets total_size in
  if n <=? i then throw (out_of_range "rvec::at() index out of range")
  else subscript i.

Definition front : M machine ref :=
  let* e := gets empty in
  if e then throw (out_of_range "rvec::front() called on empty vector")
  else subscript 0.

Definition back : M machine ref :=
  let* e := gets empty in
  if e then throw (out_of_range "rvec::back() called on empty vector")
  else
    let* n := gets total_size in
    subscript (wrap (n - 1)).

Definition store (r : ref) (v : T) : M machine unit := fun m =>
  match chunks m !! Z.to_nat r.1 with
  | Some c =>
      Ret tt {| chunks := <[Z.to_nat r.1 := <[Z.to_nat r.2 := v]> c]> (chunks m);
                total_size := total_size m |}
  | None => Undefined (vector_subscript_out_of_range r.1)
  end.

Definition push_back (value : T) : M machine unit :=
  let* n := gets total_size in
  ensure_capacity_for n ;;
  let* k := chunks_at (chunk_index n) in
  store (k, within_chunk_index n) value ;;
  modify (fun m => {| chunks := chunks m; total_size := wrap (n + 1) |}).

(** Reading through a reference. [std::make_unique<T[]>] has
    value-initialised every slot, so a slot of an array always holds a
    value. *)
Definition load (r : ref) : M machine T := fun m =>
  match chunks m !! Z.to_nat r.1 with
  | Some c =>
      match c !! Z.to_nat r.2 with
      | Some v => Ret v m
      | None => Undefined (indeterminate_read (Z.to_nat r.1) r.2)
      end
  | None => Undefined (vector_subscript_out_of_range r.1)
  end.

(** The value read at logical index [i]. *)
Definition read (i : Z) : M machine T :=
  let* r := subscript i in
  load r.

Fixpoint read_range (n : nat) (i : Z) : M machine (list T) :=
  match n with
  | O => ret []
  | S n' =>
      let* v := read i in
      let* vs := read_range n' (i + 1) in
      ret (v :: vs)
  end.

(** The logical sequence: the values at indices [0 .. size() - 1]. *)
Definition to_list : M machine (list T) :=
  let* n := gets total_size in
  read_range (Z.to_nat n) 0.

(** [clear()] forgets the elements and keeps the chunks. *)
Definition clear : M machine unit :=
  modify (fun m => {| chunks := chunks m; total_size := 0 |}).

Definition resize (new_size : Z) : M machine unit :=
  let* n := gets total_size in
  if new_size <? n then
    modify (fun m => {| chunks := chunks m; total_size := new_size |})
  else
    ensure_capacity_for (wrap (new_size - 1)) ;;
    for_up (Z.to_nat (new_size - n)) n (fun i =>
      let* k := chunks_at (chunk_index i) in
      store (k, within_chunk_index i) value_init) ;;
    modify (fun m => {| chunks := chunks m; total_size := new_size |}).

(** Move assignment of slot [src] to slot [dst] through [operator[]]. *)
Definition move_slot (dst src : Z) : M machine unit :=
  let* from := subscript src in
  let* to := subscript dst in
  let* v := load from in
  store to v.

(** A reference parameter ([const T& value]) as the caller binds it: to an
    object outside the container, which holds [v] for the whole call, or to
    a slot of one of the container's arrays, which holds what the callee has
    left there by the time it reads the parameter. *)
Inductive reference :=
| Outside (v : T)
| Slot (r : ref).

Definition read_reference (value : reference) : M machine T :=
  match value with
  | Outside v => ret v
  | Slot r => load r
  end.

(** [insert(size_type pos, const T& value)]: [value] is read in the last
    statement, after the shift loop. *)
Definition insert (pos : Z) (value : reference) : M machine unit :=
  let* n := gets total_size in
  if n <? pos then throw (out_of_range "insert position out of bounds")
  else
    push_back value_init ;;
    let* n := gets total_size in
    for_down (Z.to_nat (wrap (n - 1) - pos)) (wrap (n - 1))
      (fun i => move_slot i (wrap (i - 1))) ;;
    let* r := subscript pos in
    let* v := read_reference value in
    store r v.

Definition erase (pos : Z) : M machine unit :=
  let* n := gets total_size in
  if n <=? pos then throw (out_of_range "erase position out of bounds")
  else
    for_up (Z.to_nat (wrap (n - 1) - pos)) pos
      (fun i => move_slot i (wrap (i + 1))) ;;
    modify (fun m => {| chunks := chunks m; total_size := wrap (n - 1) |}).

(** ** How the container lays a sequence out *)

(** What the slot at position [p] holds. *)
Definition slot_at (m : machine) (p : Z) : option T :=
  match chunks m !! Z.to_nat (p / ChunkSize) with
  | Some c => c !! Z.to_nat (p mod ChunkSize)
  | None => None
  end.

(** Every chunk has [ChunkSize] slots and the slot count does not wrap. *)
Definition well_formed (m : machine) : Prop :=
  chunks_size m * ChunkSize < size_type_modulus
  ∧ ∀ c, c ∈ chunks m → Z.of_nat (length c) = ChunkSize.

(** The slots [0 .. length L - 1] lie within the chunks, and slot [i] holds
    [v] wherever [L] says [Some v]. *)
Definition layout (m : machine) (L : list (option T)) : Prop :=
  well_formed m
  ∧ Z.of_nat (length L) <= chunks_size m * ChunkSize
  ∧ ∀ (i : nat) v, L !! i = Some (Some v) →
      slot_at m (Z.of_nat i) = Some v.

(** The container holds the sequence [l]. *)
Definition represents (m : machine) (l : list T) : Prop :=
  total_size m = Z.of_nat (length l) ∧ layout m (Some <$> l).

(** ** Iterators *)

(** [iterator]: the container it walks and an index. *)
Record iterator := Iterator {
  parent : nat;
  index : Z }.

Definition begin_ (this : nat) : iterator := Iterator this 0.

Definition end_ (this : nat) (m : machine) : iterator :=
  Iterator this (total_size m).

(** [operator*], on the container [parent] points to. *)
Definition iterator_deref (it : iterator) : M machine ref :=
  subscript (index it).

Definition iterator_increment (it : iterator) : iterator :=
  Iterator (parent it) (wrap (index it + 1)).

Definition iterator_decrement (it : iterator) : iterator :=
  Iterator (parent it) (wrap (index it - 1)).

(** The comparisons look at [index] only. *)
Definition iterator_eq (a b : iterator) : bool := index a =? index b.

Definition iterator_ne (a b : iterator) : bool := negb (index a =? index b).

(** The range-based loop [for (auto val : rv)]: [end()] is taken once, the
    values read are collected in order. *)
Fixpoint forward_loop (n : nat) (it last : iterator) : M machine (list T) :=
  if iterator_ne it last then
    match n with
    | O => fun m => OutOfFuel m
    | S n' =>
        let* r := iterator_deref it in
        let* v := load r in
        let* vs := forward_loop n' (iterator_increment it) last in
        ret (v :: vs)
    end
  else ret [].

Definition iterate (this : nat) : M machine (list T) :=
  let* last := gets (end_ this) in
  forward_loop fuel (begin_ this) last.

(** The loop of [main.cpp],
    [for (auto it = rv.begin(); it != rv.end(); ++it)], whose body reads
    [*it] and then updates it in place, [*it += 1] there, [f] here;
    [end()] is taken anew at every test. *)
Fixpoint update_loop (n : nat) (f : T -> T) (this : nat) (it : iterator)
    : M machine (list T) :=
  let* last := gets (end_ this) in
  if iterator_ne it last then
    match n with
    | O => fun m => OutOfFuel m
    | S n' =>
        let* r := iterator_deref it in
        let* v := load r in
        let* r' := iterator_deref it in
        let* v' := load r' in
        store r' (f v') ;;
        let* vs := update_loop n' f this (iterator_increment it) in
        ret (v :: vs)
    end
  else ret [].

Definition iterate_update (f : T -> T) (this : nat) : M machine (list T) :=
  update_loop fuel f this (begin_ this).

End RopeVector.
End Hpp.

(** ** The intermediate revision: owned chunks, [reserve], [shrink_to_fit] *)

Module Owned.
Section RopeVector.

Context {T : Type}.
Variable default_init : option T.
Variable ChunkSize : Z.
Variable NDEBUG : bool.
Variable fuel : nat.

(** [std::vector<std::unique_ptr<T[]>> chunks], the arrays coming from
    [new T[ChunkSize]]: a slot holds [None] until it is assigned, when
    default-initialisation leaves [T] indeterminate. *)
Record machine := Machine {
  chunks : list (list (option T));
  total_size : Z }.

Definition init : machine := {| chunks := []; total_size := 0 |}.

Definition assert_ (cond : bool) (expr : string) : M machine unit :=
  if NDEBUG then ret tt
  else if cond then ret tt else fun _ => Abort expr.

Definition chunks_size (m : machine) : Z := Z.of_nat (length (chunks m)).

Definition chunk_index (i : Z) : Z := i / ChunkSize.

Definition within_chunk_index (i : Z) : Z := i mod ChunkSize.

Definition ref : Type := Z * Z.

Definition chunks_at (k : Z) : M machine Z := fun m =>
  match chunks m !! Z.to_nat k with
  | Some _ => Ret k m
  | None => Undefined (vector_subscript_out_of_range k)
  end.

(** [new T[ChunkSize]]. *)
Definition allocate_chunk : list (option T) :=
  replicate (Z.to_nat ChunkSize) default_init.

Fixpoint ensure_capacity_for_loop (n : nat) (i : Z) : M machine unit := fun m =>
  if wrap (chunks_size m * ChunkSize) <=? i then
    match n with
    | O => OutOfFuel m
    | S n' =>
        ensure_capacity_for_loop n' i
          {| chunks := chunks m ++ [allocate_chunk];
             total_size := total_size m |}
    end
  else Ret tt m.

Definition ensure_capacity_for (i : Z) : M machine unit :=
  ensure_capacity_for_loop fuel i.

Definition size (m : machine) : Z := total_size m.

Definition subscript (i : Z) : M machine ref :=
  let* n := gets total_size in
  assert_ (i <? n) "i < total_size" ;;
  let* k := chunks_at (chunk_index i) in
  ret (k, within_chunk_index i).

Definition load (r : ref) : M machine T := fun m =>
  match chunks m !! Z.to_nat r.1 with
  | Some c =>
      match c !! Z.to_nat r.2 with
      | Some (Some v) => Ret v m
      | _ => Undefined (indeterminate_read (Z.to_nat r.1) r.2)
      end
  | None => Undefined (vector_subscript_out_of_range r.1)
  end.

Definition read (i : Z) : M machine T :=
  let* r := subscript i in
  load r.

Fixpoint read_range (n : nat) (i : Z) : M machine (list T) :=
  match n with
  | O => ret []
  | S n' =>
      let* v := read i in
      let* vs := read_range n' (i + 1) in
      ret (v :: vs)
  end.

Definition to_list : M machine (list T) :=
  let* n := gets total_size in
  read_range (Z.to_nat n) 0.

Definition capacity (m : machine) : Z := wrap (chunks_size m * ChunkSize).

Definition reserve (n : Z) : M machine unit :=
  let* c := gets capacity in
  if c <? n then ensure_capacity_for (wrap (n - 1)) else ret tt.

(** [while (chunks.size() > required_chunks)]: the last array is released
    from its owner and deleted, then its entry is popped. *)
Fixpoint shrink_to_fit_loop (n : nat) (required_chunks : Z)
    : M machine unit := fun m =>
  if required_chunks <? chunks_size m then
    match n with
    | O => OutOfFuel m
    | S n' =>
        match chunks m with
        | [] => Undefined back_of_empty_vector
        | _ :: _ =>
            shrink_to_fit_loop n' required_chunks
              {| chunks := removelast (chunks m);
                 total_size := total_size m |}
        end
    end
  else Ret tt m.

Definition shrink_to_fit : M machine unit :=
  let* n := gets total_size in
  let required_chunks :=
    wrap (chunk_index n + (if within_chunk_index n =? 0 then 0 else 1)) in
  shrink_to_fit_loop fuel required_chunks.

(** ** How the container lays a sequence out *)

Definition slot_at (m : machine) (p : Z) : option (option T) :=
  match chunks m !! Z.to_nat (p / ChunkSize) with
  | Some c => c !! Z.to_nat (p mod ChunkSize)
  | None => None
  end.

Definition well_formed (m : machine) : Prop :=
  chunks_size m * ChunkSize < size_type_modulus
  ∧ ∀ c, c ∈ chunks m → Z.of_nat (length c) = ChunkSize.

(** The container holds the sequence [l]: slot [i] has been assigned
    [l[i]]. *)
Definition represents (m : machine) (l : list T) : Prop :=
  total_size m = Z.of_nat (length l)
  ∧ well_formed m
  ∧ Z.of_nat (length l) <= chunks_size m * ChunkSize
  ∧ ∀ (i : nat) v, l !! i = Some v →
      slot_at m (Z.of_nat i) = Some (Some v).

End RopeVector.
End Owned.

(** ** [rvec::rope_vector<int>], as the demonstration programs use it *)

(** An outcome without the machine, for statements about what a program
    yields. *)
Definition forget {St A} (o : outcome St A) : outcome unit A :=
  match o with
  | Ret a _ => Ret a tt
  | Throw e _ => Throw e tt
  | Abort expr => Abort expr
  | Undefined u => Undefined u
  | OutOfFuel _ => OutOfFuel tt
  end.

Module Demo.
Section Int.

Variable NDEBUG : bool.

(** [int] elements: [int{}] is 0, [new int[256]] leaves the slots
    indeterminate, [sizeof(int)] is 4, [ChunkSize] has its default. *)
Definition ChunkSize : Z := 256.

Definition sizeof_int : Z := 4.

Definition budget : nat := 16%nat.

Definition machine : Type := Evolved.machine (T:=Z).

Definition step : Evolved.op -> M machine unit :=
  Evolved.step 0 None ChunkSize NDEBUG budget.

(** The calls [os] on a fresh container, then [k]. *)
Definition after {A} (os : list (Evolved.op (T:=Z))) (k : M machine A)
    : outcome unit A :=
  forget ((for_each os step ;; k) Evolved.init).

Definition read (i : Z) : M machine Z := Evolved.read ChunkSize NDEBUG i.

Definition to_list : M machine (list Z) := Evolved.to_list ChunkSize NDEBUG.

Definition size : M machine Z := gets Evolved.size.

Definition capacity : M machine Z := gets (Evolved.capacity ChunkSize).

Definition memory_used : M machine Z :=
  gets (Evolved.memory_used sizeof_int ChunkSize).

Definition spec_memory_used : M machine Z :=
  gets (Evolved.spec_memory_used sizeof_int ChunkSize).

(** Whether the array a chunk pointer points to is still allocated. *)
Definition alive (h : handle) : M machine bool :=
  gets (fun m => bool_decide (is_Some (Evolved.heap m !! h))).

(** The chunk pointer that logical index [i] resolves to. *)
Definition chunk_of (i : Z) : M machine handle :=
  let* r := Evolved.subscript ChunkSize NDEBUG i in
  ret r.1.

Definition destroy : M machine unit := Evolved.destroy.

End Int.

Import Evolved.

(** push 10, 20, 30 *)
Definition three : list (op (T:=Z)) := [PushBack 10; PushBack 20; PushBack 30].

(** [n] times [push_back(7)], then [k] times [erase_front()]. *)
Definition push_then_erase_front (n k : nat) : list (op (T:=Z)) :=
  repeat (PushBack 7) n ++ repeat EraseFront k.

End Demo.

(** ** Small containers to try the properties on *)

Module Sample.

(** A [rope_vector<int, 4>] of the evolved revision with one chunk, which
    holds [l] from offset [s] on; its other slots were never assigned. *)
Definition one_chunk (s : nat) (l : list Z) : Evolved.machine (T:=Z) :=
  {| Evolved.heap :=
       {[ 0%nat := replicate s None ++ (Some <$> l)
                   ++ replicate (4 - s - length l) None ]};
     Evolved.next_handle := 1%nat;
     Evolved.chunks := [0%nat];
     Evolved.total_size := Z.of_nat (length l);
     Evolved.start_index := Z.of_nat s;
     Evolved.front_chunk_index := 0 |}.

(** A [rope_vector<int, 4>] of [rope_vector.hpp] with one chunk, which
    holds [l]; its other slots hold [int{}]. *)
Definition hpp_one_chunk (l : list Z) : Hpp.machine (T:=Z) :=
  {| Hpp.chunks := [l ++ replicate (4 - length l) 0];
     Hpp.total_size := Z.of_nat (length l) |}.

(** A [rope_vector<int, 16>] of the evolved revision with one chunk, which
    holds [l] from offset [s] on. *)
Definition wide_chunk (s : nat) (l : list Z) : Evolved.machine (T:=Z) :=
  {| Evolved.heap :=
       {[ 0%nat := replicate s None ++ (Some <$> l)
                   ++ replicate (16 - s - length l) None ]};
     Evolved.next_handle := 1%nat;
     Evolved.chunks := [0%nat];
     Evolved.total_size := Z.of_nat (length l);
     Evolved.start_index := Z.of_nat s;
     Evolved.front_chunk_index := 0 |}.

(** A [rope_vector<int, 4>] of the evolved revision which holds [10, 20]
    in its first chunk and has a second chunk that is not used. *)
Definition spare_chunk : Evolved.machine (T:=Z) :=
  {| Evolved.heap :=
       {[ 0%nat := [Some 10; Some 20; None; None];
          1%nat := [None; None; None; None] ]};
     Evolved.next_handle := 2%nat;
     Evolved.chunks := [0%nat; 1%nat];
     Evolved.total_size := 2;
     Evolved.start_index := 0;
     Evolved.front_chunk_index := 0 |}.

(** A [rope_vector<int, 4>] of the intermediate revision which holds
    [10, 20, 30, 40, 50] in three chunks, the last one unused. *)
Definition owned_five : Owned.machine (T:=Z) :=
  {| Owned.chunks :=
       [ [Some 10; Some 20; Some 30; Some 40];
         [Some 50; None; None; None];
         [None; None; None; None] ];
     Owned.total_size := 5 |}.

End Sample.

(** ** The sanity test *)

Module SanityTest.

(** What the test uses of [rope_vector<int>]; the accessors are read as
    rvalues and the arguments are literals. *)
Class RopeVectorInt (St : Type) := {
  rv_init : St;
  rv_empty : M St bool;
  rv_size : M St Z;
  rv_subscript : Z -> M St Z;
  rv_at : Z -> M St Z;
  rv_front : M St Z;
  rv_back : M St Z;
  rv_push_back : Z -> M St unit;
  rv_insert : Z -> Z -> M St unit;
  rv_erase : Z -> M St unit;
  rv_resize : Z -> M St unit;
  rv_clear : M St unit }.

Section Test.

Variable NDEBUG : bool.

Definition ChunkSize : Z := 256.

Definition budget : nat := 16%nat.

(** The test compiled against [include/rvec/rope_vector.hpp]. *)
#[local] Instance hpp_rope_vector : RopeVectorInt (Hpp.machine (T:=Z)) := {|
  rv_init := Hpp.init;
  rv_empty := gets Hpp.empty;
  rv_size := gets Hpp.size;
  rv_subscript i := Hpp.read ChunkSize NDEBUG i;
  rv_at i := (let* r := Hpp.at_ ChunkSize NDEBUG i in Hpp.load r);
  rv_front := (let* r := Hpp.front ChunkSize NDEBUG in Hpp.load r);
  rv_back := (let* r := Hpp.back ChunkSize NDEBUG in Hpp.load r);
  rv_push_back v := Hpp.push_back 0 ChunkSize budget v;
  rv_insert pos v := Hpp.insert 0 ChunkSize NDEBUG budget pos (Hpp.Outside v);
  rv_erase pos := Hpp.erase ChunkSize NDEBUG pos;
  rv_resize n := Hpp.resize 0 ChunkSize budget n;
  rv_clear := Hpp.clear |}.

(** The test compiled against the evolved revision. *)
#[local] Instance evolved_rope_vector
    : RopeVectorInt (Evolved.machine (T:=Z)) := {|
  rv_init := Evolved.init;
  rv_empty := gets Evolved.empty;
  rv_size := gets Evolved.size;
  rv_subscript i := Evolved.read ChunkSize NDEBUG i;
  rv_at i := (let* r := Evolved.at_ ChunkSize NDEBUG i in Evolved.load r);
  rv_front := (let* r := Evolved.front ChunkSize NDEBUG in Evolved.load r);
  rv_back := (let* r := Evolved.back ChunkSize NDEBUG in Evolved.load r);
  rv_push_back v := Evolved.push_back None ChunkSize NDEBUG budget v;
  rv_insert pos v :=
    Evolved.insert None ChunkSize NDEBUG budget pos (Evolved.Outside v);
  rv_erase pos := Evolved.erase ChunkSize NDEBUG pos;
  rv_resize n := Evolved.resize 0 None ChunkSize budget n;
  rv_clear := Evolved.clear |}.

Context {St : Type} {rv : RopeVectorInt St}.

(** [assert(e)] of the test: [e] is not evaluated under [NDEBUG]. *)
Definition check (e : M St bool) (expr : string) : M St unit :=
  if NDEBUG then ret tt
  else let* b := e in if b then ret tt else fun _ => Abort expr.

Definition equals (e : M St Z) (z : Z) : M St bool :=
  let* x := e in ret (x =? z).

Definition not_ (e : M St bool) : M St bool :=
  let* b := e in ret (negb b).

(** The calls up to the first [insert]. *)
Definition push_back_checks : M St unit :=
  check rv_empty "rv.empty()" ;;
  check (equals rv_size 0) "rv.size() == 0" ;;
  rv_push_back 10 ;;
  rv_push_back 20 ;;
  rv_push_back 30 ;;
  check (not_ rv_empty) "!rv.empty()" ;;
  check (equals rv_size 3) "rv.size() == 3" ;;
  check (equals (rv_subscript 0) 10) "rv[0] == 10" ;;
  check (equals (rv_subscript 1) 20) "rv[1] == 20" ;;
  check (equals (rv_subscript 2) 30) "rv[2] == 30" ;;
  check (equals rv_front 10) "rv.front() == 10" ;;
  check (equals rv_back 30) "rv.back() == 30" ;;
  check (equals (rv_at 1) 20) "rv.at(1) == 20".

(** The whole of [main]. *)
Definition sanity_checks : M St unit :=
  push_back_checks ;;
  rv_insert 1 15 ;;
  check (equals rv_size 4) "rv.size() == 4" ;;
  check (equals (rv_subscript 1) 15) "rv[1] == 15" ;;
  check (equals (rv_subscript 2) 20) "rv[2] == 20" ;;
  rv_erase 2 ;;
  check (equals rv_size 3) "rv.size() == 3" ;;
  check (equals (rv_subscript 2) 30) "rv[2] == 30" ;;
  rv_resize 5 ;;
  check (equals rv_size 5) "rv.size() == 5" ;;
  check (equals (rv_subscript 3) 0) "rv[3] == 0" ;;
  check (equals (rv_subscript 4) 0) "rv[4] == 0" ;;
  rv_resize 2 ;;
  check (equals rv_size 2) "rv.size() == 2" ;;
  check (equals (rv_subscript 0) 10) "rv[0] == 10" ;;
  check (equals (rv_subscript 1) 15) "rv[1] == 15" ;;
  rv_clear ;;
  check (equals rv_size 0) "rv.size() == 0" ;;
  check rv_empty "rv.empty()".

End Test.

End SanityTest.

(** * Properties *)

Import Evolved.

(** ** What the calls of the specification's scenarios yield *)

Ltac run_both ndebug := destruct ndebug; vm_compute; repeat split; reflexivity.

(** C1 (the code departs from the claim). On the container holding
    [10, 20, 30], [insert(0, 5)] returns with size 4 and index 0 reads 5, but
    the old elements are no longer reachable: [grow_front] advances both
    [start_index] (by [ChunkSize]) and [front_chunk_index] (by one), so index
    1 resolves to [chunks[2]] of a two-entry vector instead of the chunk
    holding 10, and the sequence is not [5, 10, 20, 30]. *)
Theorem insert_front_loses_elements (ndebug : bool) :
  Demo.after ndebug Demo.three (Demo.to_list ndebug) = Ret [10; 20; 30] tt
  ∧ Demo.after ndebug Demo.three (Demo.chunk_of ndebug 0) = Ret 0%nat tt
  ∧ Demo.after ndebug (Demo.three ++ [Insert 0 5]) Demo.size = Ret 4 tt
  ∧ Demo.after ndebug (Demo.three ++ [Insert 0 5]) (gets chunks) = Ret [1%nat; 0%nat] tt
  ∧ Demo.after ndebug (Demo.three ++ [Insert 0 5]) (Demo.read ndebug 0) = Ret 5 tt
  ∧ Demo.after ndebug (Demo.three ++ [Insert 0 5]) (Demo.read ndebug 1)
    = Undefined (vector_subscript_out_of_range 2)
  ∧ Demo.after ndebug (Demo.three ++ [Insert 0 5]) (Demo.to_list ndebug)
    = Undefined (vector_subscript_out_of_range 2).
Proof. run_both ndebug. Qed.

(** C2 (the code departs from the claim). After 256 [push_back] and 256
    [erase_front] the front chunk has been deleted at the moment
    [start_index] reached [ChunkSize] (it was still allocated one call
    earlier), yet its pointer stays in [chunks]: the destructor deletes it a
    second time. *)
Theorem front_chunk_released_twice (ndebug : bool) :
  Demo.after ndebug (Demo.push_then_erase_front 256 255) (Demo.alive 0%nat) = Ret true tt
  ∧ Demo.after ndebug (Demo.push_then_erase_front 256 256) (Demo.alive 0%nat) = Ret false tt
  ∧ Demo.after ndebug (Demo.push_then_erase_front 256 256) (gets chunks) = Ret [0%nat] tt
  ∧ Demo.after ndebug (Demo.push_then_erase_front 256 256) Demo.destroy
    = Undefined (double_free 0%nat).
Proof. run_both ndebug. Qed.

(** C3 (the code departs from the claim). On [10, 20, 30], [insert(0, 5)]
    followed by [erase(0)] does not give [10, 20, 30] back: [erase] reads
    index 1 through [chunks[2]], which does not exist. With [assert] active,
    [insert(1, 15)] does not return at all: its shift loop starts at
    [operator[]] of [total_size], which fails [assert(i < total_size)]. With
    [NDEBUG] that same pair of calls does restore the sequence. *)
Theorem insert_erase_not_round_trip (ndebug : bool) :
  Demo.after ndebug Demo.three (Demo.to_list ndebug) = Ret [10; 20; 30] tt
  ∧ Demo.after ndebug (Demo.three ++ [Insert 0 5; Erase 0]) (Demo.to_list ndebug)
    = Undefined (vector_subscript_out_of_range 2)
  ∧ Demo.after false (Demo.three ++ [Insert 1 15]) (Demo.to_list false)
    = Abort "i < total_size"
  ∧ Demo.after true (Demo.three ++ [Insert 1 15; Erase 1]) (Demo.to_list true)
    = Ret [10; 20; 30] tt.
Proof. run_both ndebug. Qed.

(** Where the container has slack before its first element (after an
    [erase_front]), the front-growing branch of [insert] does not call
    [grow_front], and the pair of calls gives the sequence back. *)
Lemma insert_erase_round_trip_with_front_slack (ndebug : bool) :
  let before :=
    [PushBack 1; PushBack 2; PushBack 3; PushBack 4; PushBack 5; PushBack 6;
     EraseFront] in
  Demo.after ndebug before (Demo.to_list ndebug) = Ret [2; 3; 4; 5; 6] tt
  ∧ Demo.after ndebug (before ++ [Insert 1 9]) (Demo.to_list ndebug)
    = Ret [2; 9; 3; 4; 5; 6] tt
  ∧ Demo.after ndebug (before ++ [Insert 1 9; Erase 1]) (Demo.to_list ndebug)
    = Ret [2; 3; 4; 5; 6] tt.
Proof. run_both ndebug. Qed.

(** C4 (the code departs from the claim). After 257 [push_back] and 256
    [erase_front], [front_chunk_index] is 1 and the one live element sits in
    the second chunk. [shrink_to_fit] computes the required chunk count from
    [start_index + total_size] alone, so it deletes that second chunk: the
    size is still 1 but the element's chunk is gone. *)
Theorem shrink_to_fit_releases_live_chunk (ndebug : bool) :
  let before := Demo.push_then_erase_front 257 256 in
  Demo.after ndebug before (Demo.to_list ndebug) = Ret [7] tt
  ∧ Demo.after ndebug before (gets front_chunk_index) = Ret 1 tt
  ∧ Demo.after ndebug before (Demo.chunk_of ndebug 0) = Ret 1%nat tt
  ∧ Demo.after ndebug before (Demo.alive 1%nat) = Ret true tt
  ∧ Demo.after ndebug (before ++ [ShrinkToFit]) Demo.size = Ret 1 tt
  ∧ Demo.after ndebug (before ++ [ShrinkToFit]) (Demo.alive 1%nat) = Ret false tt
  ∧ Demo.after ndebug (before ++ [ShrinkToFit]) (gets chunks) = Ret [0%nat] tt
  ∧ Demo.after ndebug (before ++ [ShrinkToFit]) (Demo.to_list ndebug)
    = Undefined (vector_subscript_out_of_range 1).
Proof. run_both ndebug. Qed.

(** The scenario of C4 on a container that never lost a front chunk: after
    [3 * ChunkSize] [push_back], [shrink_to_fit] keeps the three chunks and
    [capacity()] is [3 * ChunkSize]. *)
Lemma shrink_to_fit_three_full_chunks (ndebug : bool) :
  Demo.after ndebug (repeat (PushBack 7) 768 ++ [ShrinkToFit]) Demo.capacity
  = Ret (3 * Demo.ChunkSize) tt
  ∧ Demo.after ndebug (repeat (PushBack 7) 768 ++ [ShrinkToFit]) Demo.size
    = Ret 768 tt
  ∧ Demo.after ndebug (repeat (PushBack 7) 768 ++ [ShrinkToFit]) (gets chunks)
    = Ret [0%nat; 1%nat; 2%nat] tt.
Proof. run_both ndebug. Qed.

(** C6 (the code departs from the claim). With [start_index = 1] (after one
    [erase_front] on [1, 2, 3]) the container holds [2, 3]. [resize(3)]
    assigns [int{}] to slot [chunks[0][2]], the slot of logical index 1, so
    the live 3 becomes 0, and the new logical index 2 resolves to a slot
    that was never assigned. *)
Theorem resize_grow_overwrites_live_element (ndebug : bool) :
  let before := [PushBack 1; PushBack 2; PushBack 3; EraseFront] in
  Demo.after ndebug before (Demo.to_list ndebug) = Ret [2; 3] tt
  ∧ Demo.after ndebug (before ++ [Resize 3]) Demo.size = Ret 3 tt
  ∧ Demo.after ndebug (before ++ [Resize 3]) (Demo.read ndebug 0) = Ret 2 tt
  ∧ Demo.after ndebug (before ++ [Resize 3]) (Demo.read ndebug 1) = Ret 0 tt
  ∧ Demo.after ndebug (before ++ [Resize 3]) (Demo.read ndebug 2)
    = Undefined (indeterminate_read 0%nat 3).
Proof. run_both ndebug. Qed.

(** C7 (the code departs from the claim). After [insert(0, 5)] on
    [10, 20, 30] the container has [capacity() = 1] and [size() = 4], and
    [reserve(3)] leaves the capacity at 1. On a container whose front chunk
    was released by [erase_front] (no front insertion involved),
    [reserve(257)] leaves [capacity()] at 256: [ensure_capacity_for] is not
    told about [front_chunk_index]. *)
Theorem capacity_below_size_and_request (ndebug : bool) :
  Demo.after ndebug (Demo.three ++ [Insert 0 5]) Demo.capacity = Ret 1 tt
  ∧ Demo.after ndebug (Demo.three ++ [Insert 0 5]) Demo.size = Ret 4 tt
  ∧ Demo.after ndebug (Demo.three ++ [Insert 0 5; Reserve 3]) Demo.capacity = Ret 1 tt
  ∧ Demo.after ndebug (Demo.push_then_erase_front 257 256) Demo.capacity = Ret 256 tt
  ∧ Demo.after ndebug (Demo.push_then_erase_front 257 256 ++ [Reserve 257]) Demo.capacity
    = Ret 256 tt.
Proof. run_both ndebug. Qed.

(** ** Facts that hold for every element type and chunk size *)

Section EvolvedFacts.

Context {T : Type}.
Variable value_init : T.
Variable default_init : option T.
Variable sizeof_T : Z.
Variable ChunkSize : Z.
Variable NDEBUG : bool.

Implicit Types m : machine (T:=T).

Lemma size_type_modulus_pos : 0 < size_type_modulus.
Proof. reflexivity. Qed.

Lemma wrap_range z : 0 <= wrap z <= size_type_max.
Proof.
  unfold wrap, size_type_max.
  pose proof (Z.mod_pos_bound z size_type_modulus size_type_modulus_pos).
  lia.
Qed.

Lemma wrap_small z : 0 <= z < size_type_modulus -> wrap z = z.
Proof. intros Hz. unfold wrap. by apply Z.mod_small. Qed.

(** The loop of [ensure_capacity_for] asked for the largest [size_type]
    value uses up any budget: each iteration appends one chunk and the test
    holds again. *)
Lemma ensure_capacity_for_loop_max n : ∀ m,
  ∃ m', ensure_capacity_for_loop default_init ChunkSize n size_type_max m = OutOfFuel m'
        ∧ length (chunks m') = (length (chunks m) + n)%nat
        ∧ total_size m' = total_size m
        ∧ start_index m' = start_index m
        ∧ front_chunk_index m' = front_chunk_index m.
Proof.
  induction n as [|n IH]; intros m; simpl.
  - destruct (Z.leb_spec (wrap (chunks_size m * ChunkSize)) size_type_max) as [_|Hlt].
    + exists m. repeat split; auto with lia.
    + pose proof (wrap_range (chunks_size m * ChunkSize)). lia.
  - destruct (Z.leb_spec (wrap (chunks_size m * ChunkSize)) size_type_max) as [_|Hlt].
    + unfold bind, allocate_chunk, modify. simpl.
      edestruct IH as (m' & -> & Hlen & Htot & Hstart & Hfront).
      exists m'. simpl in *. rewrite length_app in Hlen. simpl in Hlen.
      repeat split; auto with lia.
    + pose proof (wrap_range (chunks_size m * ChunkSize)). lia.
Qed.

(** C9. On a default-constructed container [resize(0)] takes the growing
    branch ([0 < total_size] is false), the argument of
    [ensure_capacity_for], [start_index + new_size - 1], wraps to the largest
    [size_type] value, and against that value the loop test
    [i >= chunks.size() * ChunkSize] holds whatever the number of chunks: the
    call is [ensure_capacity_for(max)] followed by the size update, and with
    any budget [n] it is still allocating after [n] chunks. It is never the
    no-op a request for size 0 suggests. *)
Theorem resize_zero_on_fresh_container (n : nat) :
  (0 <? total_size (init (T:=T))) = false
  ∧ wrap (wrap (start_index (init (T:=T)) + 0) - 1) = size_type_max
  ∧ (∀ m, (wrap (chunks_size m * ChunkSize) <=? size_type_max) = true)
  ∧ resize value_init default_init ChunkSize n 0 init
    = (ensure_capacity_for default_init ChunkSize n size_type_max ;;
       modify (set_total_size 0)) init
  ∧ (∃ m', resize value_init default_init ChunkSize n 0 init = OutOfFuel m'
           ∧ length (chunks m') = n ∧ total_size m' = 0)
  ∧ resize value_init default_init ChunkSize n 0 init ≠ Ret tt init.
Proof.
  assert (Hcall : resize value_init default_init ChunkSize n 0 init
    = (ensure_capacity_for default_init ChunkSize n size_type_max ;;
       modify (set_total_size 0)) init).
  { unfold resize, bind, gets, ensure_capacity_for. simpl.
    change (wrap (wrap (0 + 0) - 1)) with size_type_max.
    by destruct (ensure_capacity_for_loop _ _ _ _ _). }
  destruct (ensure_capacity_for_loop_max n init) as (m' & Hloop & Hlen & Htot & _).
  assert (Hout : resize value_init default_init ChunkSize n 0 init = OutOfFuel m').
  { rewrite Hcall. unfold bind, ensure_capacity_for. by rewrite Hloop. }
  split; [reflexivity|]. split; [reflexivity|]. split.
  { intros m. apply Z.leb_le, wrap_range. }
  split; [exact Hcall|]. split.
  - exists m'. by repeat split.
  - by rewrite Hout.
Qed.

(** [memory_used()] multiplies the length of [chunks] by the chunk size and
    the element size, modulo [2^64]. *)
Lemma memory_used_unfold m :
  memory_used sizeof_T ChunkSize m = wrap (chunks_size m * ChunkSize * sizeof_T).
Proof.
  unfold memory_used, wrap.
  by rewrite Z.mul_mod_idemp_l.
Qed.

(** [memory_used()] is [|ChunkArray| * ChunkSize * element_size] modulo
    [2^64]: the formula of the specification plus
    [FrontChunkIndex * ChunkSize * element_size]. The entries before
    [front_chunk_index], whose arrays are deleted, are counted too. *)
Lemma memory_used_counts_every_chunk m :
  memory_used sizeof_T ChunkSize m = wrap (chunks_size m * ChunkSize * sizeof_T)
  ∧ memory_used sizeof_T ChunkSize m
    = wrap (spec_memory_used sizeof_T ChunkSize m
            + front_chunk_index m * ChunkSize * sizeof_T).
Proof.
  split; [apply memory_used_unfold|].
  rewrite memory_used_unfold. unfold spec_memory_used. f_equal. ring.
Qed.

End EvolvedFacts.

(** C5 (the code departs from the claim). After 256 [push_back] and 256
    [erase_front] the container is empty, the array of its only chunk has
    been deleted and [front_chunk_index] is 1. The formula of the
    specification gives 0 bytes and [capacity()], which subtracts
    [front_chunk_index], returns 0; [memory_used()] returns 1024, the bytes
    of the deleted array. *)
Theorem memory_used_counts_released_chunk (ndebug : bool) :
  let before := Demo.push_then_erase_front 256 256 in
  Demo.after ndebug before Demo.size = Ret 0 tt
  ∧ Demo.after ndebug before (gets chunks) = Ret [0%nat] tt
  ∧ Demo.after ndebug before (gets front_chunk_index) = Ret 1 tt
  ∧ Demo.after ndebug before (Demo.alive 0%nat) = Ret false tt
  ∧ Demo.after ndebug before Demo.capacity = Ret 0 tt
  ∧ Demo.after ndebug before Demo.spec_memory_used = Ret 0 tt
  ∧ Demo.after ndebug before Demo.memory_used = Ret 1024 tt.
Proof. run_both ndebug. Qed.

Section Release.

Context {T : Type}.
Variable sizeof_T : Z.
Variable ChunkSize : Z.

Implicit Types m : machine (T:=T).

(** Releasing a list of distinct chunk pointers whose arrays are all
    allocated: every call of [free_chunk] returns, exactly those arrays
    leave the free store, nothing else changes. *)
Lemma for_each_free_chunk (cs : list handle) : ∀ m,
  NoDup cs →
  (∀ h, h ∈ cs → is_Some (heap m !! h)) →
  ∃ m', for_each cs free_chunk m = Ret tt m'
        ∧ chunks m' = chunks m
        ∧ next_handle m' = next_handle m
        ∧ total_size m' = total_size m
        ∧ start_index m' = start_index m
        ∧ front_chunk_index m' = front_chunk_index m
        ∧ (∀ h, h ∈ cs → heap m' !! h = None)
        ∧ (∀ h, h ∉ cs → heap m' !! h = heap m !! h).
Proof.
  induction cs as [|c cs IH]; intros m Hnd Hlive.
  - exists m. simpl. repeat split; auto.
    intros h Hh. by apply elem_of_nil in Hh.
  - apply NoDup_cons in Hnd as [Hc Hnd].
    destruct (Hlive c) as [a Ha]; [left|].
    simpl. unfold bind at 1. unfold free_chunk at 1. rewrite Ha.
    destruct (IH (set_heap (λ hp, delete c hp) m) Hnd)
      as (m' & -> & Hcs & Hnx & Htot & Hst & Hfr & Hgone & Hkept).
    { intros h Hh. simpl. rewrite lookup_delete_ne; [|by intros ->].
      apply Hlive. by right. }
    exists m'. simpl in *. repeat split; auto.
    + intros h [->|Hh]%elem_of_cons; [|by apply Hgone].
      rewrite Hkept; [|done]. apply lookup_delete_eq.
    + intros h [Hne Hh]%not_elem_of_cons.
      rewrite Hkept; [|done]. by rewrite lookup_delete_ne.
Qed.

(** Where the chunk pointers are distinct and all point to allocated
    arrays, [clear()] is the full release: it returns, every array of
    [chunks] has left the free store (and no other), [chunks] is empty,
    [total_size], [start_index] and [front_chunk_index] are 0, hence
    [size() == 0], [empty()], [capacity() == 0] and [memory_used() == 0]. *)
Lemma clear_releases_everything m :
  NoDup (chunks m) →
  (∀ h, h ∈ chunks m → is_Some (heap m !! h)) →
  ∃ m', clear m = Ret tt m'
        ∧ (∀ h, h ∈ chunks m → heap m' !! h = None)
        ∧ (∀ h, h ∉ chunks m → heap m' !! h = heap m !! h)
        ∧ chunks m' = []
        ∧ total_size m' = 0 ∧ start_index m' = 0 ∧ front_chunk_index m' = 0
        ∧ size m' = 0 ∧ empty m' = true
        ∧ capacity ChunkSize m' = 0
        ∧ memory_used sizeof_T ChunkSize m' = 0.
Proof.
  intros Hnd Hlive.
  destruct (for_each_free_chunk (chunks m) m Hnd Hlive)
    as (m1 & Hrun & _ & _ & _ & _ & _ & Hgone & Hkept).
  unfold clear, bind, gets, modify. rewrite Hrun. eexists. split; [reflexivity|].
  simpl. repeat split; auto.
Qed.

End Release.

(** C10 (the code departs from the claim). [clear()] hands every entry of
    [chunks] to [free_chunk], also the entries before [front_chunk_index],
    whose arrays [erase_front] has deleted already. After 256 [push_back]
    and 256 [erase_front] the container is empty, its only chunk is deleted
    and still listed in [chunks], and [clear()] deletes it a second time:
    the call is undefined instead of leaving an empty container. *)
Theorem clear_deletes_released_chunk_again (ndebug : bool) :
  let before := Demo.push_then_erase_front 256 256 in
  Demo.after ndebug before Demo.size = Ret 0 tt
  ∧ Demo.after ndebug before (gets chunks) = Ret [0%nat] tt
  ∧ Demo.after ndebug before (gets front_chunk_index) = Ret 1 tt
  ∧ Demo.after ndebug before (Demo.alive 0%nat) = Ret false tt
  ∧ Demo.after ndebug before clear = Undefined (double_free 0%nat).
Proof. run_both ndebug. Qed.

(** ** Checked access: the two bound-violation policies *)

Section CheckedAccess.

Context {T : Type}.
Variable ChunkSize : Z.

Lemma hpp_subscript_never_throws ndebug i (m : Hpp.machine (T:=T)) :
  ¬ recoverable (Hpp.subscript ChunkSize ndebug i m).
Proof.
  intros (e & s & H). revert H.
  unfold Hpp.subscript, Hpp.assert_, Hpp.chunks_at, bind, gets, ret.
  destruct ndebug; repeat case_match; discriminate.
Qed.

Lemma subscript_never_throws ndebug i (m : machine (T:=T)) :
  ¬ recoverable (subscript ChunkSize ndebug i m).
Proof.
  intros (e & s & H). revert H.
  unfold subscript, assert_, chunks_at, bind, gets, ret.
  destruct ndebug; repeat case_match; discriminate.
Qed.

Lemma subscript_in_range_no_abort ndebug i (m : machine (T:=T)) :
  i < total_size m → ¬ aborts (subscript ChunkSize ndebug i m).
Proof.
  intros Hi (expr & H). revert H.
  unfold subscript, assert_, chunks_at, bind, gets, ret.
  apply Z.ltb_lt in Hi. rewrite Hi.
  destruct ndebug; simpl; repeat case_match; discriminate.
Qed.

(** C8 (as amended). In [rope_vector.hpp], [at(i)] throws
    [std::out_of_range] exactly when [i >= size()] and [front()], [back()]
    throw it exactly when the container is empty; the container is as it was
    and the caller can catch the exception. In the evolved revision the same
    tests are [assert]s: with [assert] active, [at(i)] ends the process
    exactly when [i >= size()], [front()] and [back()] exactly when the
    container is empty, and no call of the three ever throws, whether or not
    [NDEBUG] is defined. *)
Theorem checked_access_outcomes (ndebug : bool) (i : Z) :
  (∀ m : Hpp.machine (T:=T),
     (Hpp.size m <= i →
        Hpp.at_ ChunkSize ndebug i m
        = Throw (out_of_range "rvec::at() index out of range") m)
     ∧ (i < Hpp.size m → ¬ recoverable (Hpp.at_ ChunkSize ndebug i m))
     ∧ (Hpp.size m = 0 →
        Hpp.front ChunkSize ndebug m
        = Throw (out_of_range "rvec::front() called on empty vector") m
        ∧ Hpp.back ChunkSize ndebug m
          = Throw (out_of_range "rvec::back() called on empty vector") m)
     ∧ (Hpp.size m ≠ 0 →
        ¬ recoverable (Hpp.front ChunkSize ndebug m)
        ∧ ¬ recoverable (Hpp.back ChunkSize ndebug m)))
  ∧ (∀ m : machine (T:=T),
     (size m <= i →
        at_ ChunkSize false i m = Abort "rvec::at() index out of range")
     ∧ (i < size m → ¬ aborts (at_ ChunkSize false i m))
     ∧ (size m = 0 →
        front ChunkSize false m = Abort "rvec::front() called on empty vector"
        ∧ back ChunkSize false m = Abort "rvec::back() called on empty vector")
     ∧ (0 < size m →
        ¬ aborts (front ChunkSize false m) ∧ ¬ aborts (back ChunkSize false m))
     ∧ ¬ recoverable (at_ ChunkSize ndebug i m)
     ∧ ¬ recoverable (front ChunkSize ndebug m)
     ∧ ¬ recoverable (back ChunkSize ndebug m)).
Proof.
  split; intros m.
  - unfold Hpp.at_, Hpp.front, Hpp.back, Hpp.empty, Hpp.size, bind, gets, throw.
    split_and!.
    + intros Hi. apply Z.leb_le in Hi. by rewrite Hi.
    + intros Hi. apply Z.leb_gt in Hi. rewrite Hi.
      apply hpp_subscript_never_throws.
    + by intros ->.
    + intros Hn. apply Z.eqb_neq in Hn. rewrite Hn.
      split; apply hpp_subscript_never_throws.
  - unfold at_, front, back, empty, size, bind, gets.
    split_and!.
    + intros Hi. apply Z.ltb_ge in Hi. unfold assert_. by rewrite Hi.
    + intros Hi. unfold assert_. pose proof Hi as Hi'.
      apply Z.ltb_lt in Hi'. rewrite Hi'.
      by apply subscript_in_range_no_abort.
    + by intros ->.
    + intros Hn. unfold assert_.
      assert ((total_size m =? 0) = false) as -> by (apply Z.eqb_neq; lia).
      split; apply subscript_in_range_no_abort; [done|].
      unfold wrap. pose proof (Z.mod_le (total_size m - 1) size_type_modulus).
      pose proof size_type_modulus_pos. lia.
    + unfold assert_. destruct ndebug, (i <? total_size m); simpl;
        try apply subscript_never_throws; by intros (e & s & ?).
    + unfold assert_. destruct ndebug, (total_size m =? 0); simpl;
        try apply subscript_never_throws; by intros (e & s & ?).
    + unfold assert_. destruct ndebug, (total_size m =? 0); simpl;
        try apply subscript_never_throws; by intros (e & s & ?).
Qed.

End CheckedAccess.

(** [rope_vector.hpp] on a container holding one [int]: [at(0)], [front()]
    and [back()] return the reference to slot 0 of chunk 0, [at(1)] throws. *)
Lemma hpp_checked_access_after_push_back (ndebug : bool) :
  let pushed := Hpp.push_back 0 256 16 10 in
  forget ((pushed ;; Hpp.at_ 256 ndebug 0) Hpp.init) = Ret (0, 0) tt
  ∧ forget ((pushed ;; Hpp.front 256 ndebug) Hpp.init) = Ret (0, 0) tt
  ∧ forget ((pushed ;; Hpp.back 256 ndebug) Hpp.init) = Ret (0, 0) tt
  ∧ forget ((pushed ;; Hpp.at_ 256 ndebug 1) Hpp.init)
    = Throw (out_of_range "rvec::at() index out of range") tt.
Proof. by destruct ndebug; vm_compute. Qed.

(** C8 (counterexample). In the evolved revision, [at(0)] on an empty
    [rope_vector<int>] built with [assert] active fails the assertion: the
    process ends, nothing is thrown. *)
Lemma evolved_at_is_fatal :
  at_ 256 false 0 (init (T:=Z)) = Abort "rvec::at() index out of range"
  ∧ 0 >= size (init (T:=Z))
  ∧ ¬ recoverable (at_ 256 false 0 (init (T:=Z))).
Proof.
  split; [reflexivity|]. split; [by vm_compute|].
  intros (e & s & H). vm_compute in H. discriminate.
Qed.

(** ** The bookkeeping behind the scenarios, for every container *)

Section Bookkeeping.

Context {T : Type}.
Variable value_init : T.
Variable default_init : option T.
Variable ChunkSize : Z.
Variable NDEBUG : bool.

Implicit Types m : machine (T:=T).

Hypothesis ChunkSize_pos : 0 < ChunkSize.

(** [grow_front] moves no element, but afterwards [operator[]] looks for
    index [i] one entry further in [chunks] than the chunk that holds it: the
    new entry at the head already shifts every chunk by one position, and
    [start_index += ChunkSize] together with [++front_chunk_index] add two. *)
Lemma grow_front_resolves_one_chunk_further m i :
  0 <= start_index m → 0 <= front_chunk_index m → 0 <= i →
  start_index m + ChunkSize + i < size_type_modulus →
  front_chunk_index m + chunk_index ChunkSize (start_index m + i) + 2
    < size_type_modulus →
  ∃ m', grow_front default_init ChunkSize m = Ret tt m'
        ∧ total_size m' = total_size m
        ∧ heap m' !! next_handle m
          = Some (replicate (Z.to_nat ChunkSize) default_init)
        ∧ chunks m' = next_handle m :: chunks m
        ∧ within_chunk_index ChunkSize (wrap (start_index m' + i))
          = within_chunk_index ChunkSize (wrap (start_index m + i))
        ∧ chunks m' !! Z.to_nat (wrap (front_chunk_index m'
                        + chunk_index ChunkSize (wrap (start_index m' + i))))
          = chunks m !! S (Z.to_nat (wrap (front_chunk_index m
                        + chunk_index ChunkSize (wrap (start_index m + i))))).
Proof.
  intros Hs Hf Hi Hbound Hchunk.
  eexists. split; [reflexivity|]. simpl.
  assert (Hdiv : 0 <= chunk_index ChunkSize (start_index m + i)).
  { unfold chunk_index. apply Z.div_pos; lia. }
  assert (Hstep : chunk_index ChunkSize (start_index m + ChunkSize + i)
                  = chunk_index ChunkSize (start_index m + i) + 1).
  { unfold chunk_index.
    replace (start_index m + ChunkSize + i)
      with (start_index m + i + 1 * ChunkSize) by ring.
    rewrite Z.div_add; lia. }
  rewrite (wrap_small (start_index m + ChunkSize)) by lia.
  rewrite (wrap_small (front_chunk_index m + 1)) by lia.
  rewrite (wrap_small (start_index m + ChunkSize + i)) by lia.
  rewrite (wrap_small (start_index m + i)) by lia.
  rewrite Hstep.
  rewrite (wrap_small (front_chunk_index m + 1 + _)) by lia.
  rewrite (wrap_small (front_chunk_index m + _)) by lia.
  split_and!; [done|apply lookup_insert_eq|done| |].
  - unfold within_chunk_index.
    replace (start_index m + ChunkSize + i)
      with (start_index m + i + 1 * ChunkSize) by ring.
    apply Z.mod_add. lia.
  - replace (front_chunk_index m + 1
             + (chunk_index ChunkSize (start_index m + i) + 1))
      with (Z.succ (Z.succ (front_chunk_index m
             + chunk_index ChunkSize (start_index m + i)))) by lia.
    rewrite !Z2Nat.inj_succ by lia. reflexivity.
Qed.

(** When [erase_front] takes [start_index] to [ChunkSize], the front chunk
    is deleted and the bookkeeping moves on, but [chunks] still holds the
    pointer. *)
Lemma erase_front_keeps_released_pointer m h c :
  ChunkSize < size_type_modulus →
  (NDEBUG = true ∨ total_size m ≠ 0) →
  start_index m = ChunkSize - 1 →
  chunks m !! Z.to_nat (front_chunk_index m) = Some h →
  heap m !! h = Some c →
  ∃ m', erase_front ChunkSize NDEBUG m = Ret tt m'
        ∧ chunks m' = chunks m
        ∧ heap m' !! h = None
        ∧ total_size m' = wrap (total_size m - 1)
        ∧ start_index m' = 0
        ∧ front_chunk_index m' = wrap (front_chunk_index m + 1).
Proof.
  intros Hcs Hassert Hstart Hat Hlive.
  unfold erase_front, bind, gets, modify, assert_, empty, chunks_at.
  assert (Hpass : (if NDEBUG then ret tt
                   else if negb (total_size m =? 0) then ret tt
                        else λ _ : machine (T:=T), Abort "!empty()") m
                  = Ret tt m).
  { destruct NDEBUG; [done|]. destruct Hassert as [?|Hne]; [done|].
    apply Z.eqb_neq in Hne. by rewrite Hne. }
  rewrite Hpass. simpl. rewrite Hstart.
  replace (ChunkSize - 1 + 1) with ChunkSize by ring.
  rewrite (wrap_small ChunkSize) by lia.
  rewrite Z.leb_refl. simpl. rewrite Hat. unfold free_chunk. simpl.
  rewrite Hlive.
  eexists. split; [reflexivity|]. simpl.
  split_and!; try done.
  - apply lookup_delete_eq.
  - rewrite Z.sub_diag. reflexivity.
Qed.

(** A released pointer among the entries of [chunks] makes the destructor
    delete something twice. *)
Lemma for_each_free_chunk_released (cs : list handle) : ∀ m h,
  h ∈ cs → heap m !! h = None →
  ∃ h', for_each cs free_chunk m = Undefined (double_free h').
Proof.
  induction cs as [|c cs IH]; intros m h Hin Hdead.
  - by apply elem_of_nil in Hin.
  - simpl. unfold bind at 1. unfold free_chunk at 1.
    destruct (heap m !! c) as [a|] eqn:Hc; [|by eexists].
    apply elem_of_cons in Hin as [->|Hin]; [congruence|].
    apply (IH _ h Hin). simpl.
    destruct (decide (c = h)) as [->|Hne].
    + apply lookup_delete_eq.
    + by rewrite lookup_delete_ne.
Qed.

Lemma destroy_released_pointer m h :
  h ∈ chunks m → heap m !! h = None →
  ∃ h', destroy m = Undefined (double_free h').
Proof.
  intros Hin Hdead. unfold destroy, bind, gets.
  by apply (for_each_free_chunk_released _ m h).
Qed.

(** The same for [clear()], on every container: one released pointer among
    the entries of [chunks] makes the call a double free. *)
Lemma clear_released_pointer m h :
  h ∈ chunks m → heap m !! h = None →
  ∃ h', clear m = Undefined (double_free h').
Proof.
  intros Hin Hdead.
  destruct (for_each_free_chunk_released _ m h Hin Hdead) as [h' Hrun].
  exists h'. unfold clear, bind, gets. by rewrite Hrun.
Qed.

(** The shrinking branch of [resize]: only [total_size] changes, so the
    indices below the new size resolve as before. *)
Lemma resize_shrink (n : nat) m new_size :
  new_size < total_size m →
  resize value_init default_init ChunkSize n new_size m
  = Ret tt (set_total_size new_size m).
Proof.
  intros Hlt. unfold resize, bind, gets, modify.
  apply Z.ltb_lt in Hlt. by rewrite Hlt.
Qed.

Lemma resize_shrink_keeps_prefix m new_size i :
  new_size < total_size m → i < new_size →
  forget (read ChunkSize NDEBUG i (set_total_size new_size m))
  = forget (read ChunkSize NDEBUG i m).
Proof.
  intros Hlt Hi.
  unfold read, subscript, assert_, chunks_at, load, bind, gets, ret. simpl.
  assert ((i <? new_size) = true) as -> by (apply Z.ltb_lt; lia).
  assert ((i <? total_size m) = true) as -> by (apply Z.ltb_lt; lia).
  destruct NDEBUG; simpl; repeat case_match; simplify_eq/=; done.
Qed.

(** With enough budget and no wrap-around, the loop of
    [ensure_capacity_for(i)] returns: it has appended chunks up to the one
    that covers position [i], and touched nothing else. *)
Lemma ensure_capacity_for_loop_returns (n : nat) : ∀ m i,
  0 <= i → i + ChunkSize < size_type_modulus →
  chunks_size m * ChunkSize < size_type_modulus →
  i / ChunkSize + 1 - chunks_size m <= Z.of_nat n →
  ∃ m' new, ensure_capacity_for_loop default_init ChunkSize n i m = Ret tt m'
            ∧ chunks m' = chunks m ++ new
            ∧ chunks_size m' = Z.max (chunks_size m) (i / ChunkSize + 1)
            ∧ total_size m' = total_size m
            ∧ start_index m' = start_index m
            ∧ front_chunk_index m' = front_chunk_index m
            ∧ (∀ h, (h < next_handle m)%nat → heap m' !! h = heap m !! h).
Proof.
  induction n as [|n IH]; intros m i Hi Hbound Hlen Hfuel;
    assert (0 <= chunks_size m) by (unfold chunks_size; lia);
    simpl; rewrite (wrap_small (chunks_size m * ChunkSize)) by lia;
    destruct (Z.leb_spec (chunks_size m * ChunkSize) i) as [Hle|Hgt];
    try (assert (Hq : chunks_size m <= i / ChunkSize)
           by (apply Z.div_le_lower_bound; lia));
    try (assert (Hq : i / ChunkSize < chunks_size m)
           by (apply Z.div_lt_upper_bound; lia)).
  - lia.
  - exists m, []. rewrite app_nil_r. split_and!; try done. lia.
  - unfold bind, allocate_chunk, modify. simpl.
    set (m1 := set_chunks (λ cs, cs ++ [next_handle m])
                 (set_next_handle (S (next_handle m))
                    (set_heap (λ hp, <[next_handle m :=
                       replicate (Z.to_nat ChunkSize) default_init]> hp) m))).
    assert (Hone : chunks_size m1 = chunks_size m + 1).
    { unfold chunks_size, m1. simpl. rewrite length_app. simpl. lia. }
    destruct (IH m1 i)
      as (m' & new & -> & Hchunks & Hsize & Htot & Hstart & Hfront & Hheap);
      try done.
    + rewrite Hone. lia.
    + rewrite Hone. lia.
    + exists m', (next_handle m :: new).
      split_and!; try done.
      * rewrite Hchunks. unfold m1. simpl. by rewrite <- app_assoc.
      * rewrite Hsize, Hone. lia.
      * intros h Hh. rewrite Hheap by (unfold m1; simpl; lia).
        unfold m1. simpl. apply lookup_insert_ne. lia.
  - exists m, []. rewrite app_nil_r. split_and!; try done. lia.
Qed.

(** What C7 says of [reserve] holds for a container whose
    [front_chunk_index] is 0: the call returns, [capacity()] is at least [n]
    and not smaller than before, and the size, the offsets, the existing
    chunk pointers and the arrays they point to are as they were. *)
Lemma reserve_without_released_front (fuel : nat) m n :
  front_chunk_index m = 0 →
  0 <= start_index m <= chunks_size m * ChunkSize →
  chunks_size m * ChunkSize < size_type_modulus →
  0 <= n → start_index m + n + ChunkSize <= size_type_modulus →
  (start_index m + n) / ChunkSize + 1 <= Z.of_nat fuel →
  ∃ m' new, reserve default_init ChunkSize fuel n m = Ret tt m'
            ∧ n <= capacity ChunkSize m'
            ∧ capacity ChunkSize m <= capacity ChunkSize m'
            ∧ chunks m' = chunks m ++ new
            ∧ total_size m' = total_size m
            ∧ start_index m' = start_index m
            ∧ front_chunk_index m' = front_chunk_index m
            ∧ (∀ h, (h < next_handle m)%nat → heap m' !! h = heap m !! h).
Proof.
  intros Hfront Hstart Hlen Hn Hbound Hfuel.
  assert (Hsz : 0 <= chunks_size m) by (unfold chunks_size; lia).
  assert (Hcap : ∀ m0 : machine (T:=T),
            front_chunk_index m0 = 0 → 0 <= chunks_size m0 →
            0 <= start_index m0 <= chunks_size m0 * ChunkSize →
            chunks_size m0 * ChunkSize < size_type_modulus →
            capacity ChunkSize m0 = chunks_size m0 * ChunkSize - start_index m0).
  { intros m0 Hf0 H0 Hs0 Hl0. unfold capacity. rewrite Hf0, Z.sub_0_r.
    rewrite (wrap_small (chunks_size m0)) by nia.
    rewrite (wrap_small (chunks_size m0 * ChunkSize)) by lia.
    apply wrap_small. lia. }
  unfold reserve, bind, gets.
  destruct (Z.ltb_spec (capacity ChunkSize m) n) as [Hlt|Hge].
  - rewrite Hcap in Hlt by done.
    rewrite (wrap_small (start_index m + n)) by lia.
    rewrite (wrap_small (start_index m + n - 1)) by lia.
    pose proof (Z.div_le_mono (start_index m + n - 1) (start_index m + n)
                  ChunkSize ChunkSize_pos ltac:(lia)) as Hmono.
    destruct (ensure_capacity_for_loop_returns fuel m (start_index m + n - 1))
      as (m' & new & Hrun & Hchunks & Hsize & Htot & Hst & Hfr & Hheap);
      try lia.
    unfold ensure_capacity_for. rewrite Hrun. exists m', new.
    pose proof (Z.mul_div_le (start_index m + n - 1) ChunkSize ChunkSize_pos).
    pose proof (Z.mul_succ_div_gt (start_index m + n - 1) ChunkSize ChunkSize_pos).
    rewrite (Hcap m), (Hcap m') by (rewrite ?Hfr, ?Hst, ?Hsize; nia).
    rewrite Hsize, Hst. split_and!; try done; nia.
  - exists m, []. rewrite app_nil_r. split_and!; try done; lia.
Qed.

End Bookkeeping.

(** ** The layout under the accessors *)

Section Layout.

Context {T : Type}.
Variable value_init : T.
Variable default_init : option T.
Variable ChunkSize : Z.
Variable NDEBUG : bool.

Implicit Types m : machine (T:=T).
Implicit Types L : list (option T).
Implicit Types l : list T.

Hypothesis ChunkSize_pos : 0 < ChunkSize.

Lemma bind_ret {St A B} (c : M St A) (k : A → M St B) s a s' :
  c s = Ret a s' → bind c k s = k a s'.
Proof. intros H. unfold bind. by rewrite H. Qed.

Lemma bind_assoc {St A B C} (c : M St A) (k : A → M St B) (k' : B → M St C) s :
  bind (bind c k) k' s = bind c (λ a, bind (k a) k') s.
Proof. unfold bind. by destruct (c s). Qed.

Lemma bind_gets {St A B} (f : St → A) (k : A → M St B) s :
  bind (gets f) k s = k (f s) s.
Proof. reflexivity. Qed.

Lemma bind_modify {St B} (f : St → St) (k : unit → M St B) s :
  bind (modify f) k s = k tt (f s).
Proof. reflexivity. Qed.

Lemma chunks_size_nonneg m : 0 <= chunks_size m.
Proof. unfold chunks_size. lia. Qed.

Lemma position_div m i :
  position ChunkSize m i / ChunkSize
  = front_chunk_index m + (start_index m + i) / ChunkSize.
Proof.
  unfold position. rewrite <- Z.add_assoc. apply Z.div_add_l. lia.
Qed.

Lemma position_mod m i :
  position ChunkSize m i mod ChunkSize = (start_index m + i) mod ChunkSize.
Proof.
  unfold position. rewrite <- Z.add_assoc, Z.add_comm. apply Z.mod_add. lia.
Qed.

Lemma div_range p n : 0 <= p < n * ChunkSize → 0 <= p / ChunkSize < n.
Proof.
  intros [Hp Hn]. split; [apply Z.div_pos; lia|].
  apply Z.div_lt_upper_bound; lia.
Qed.

Lemma mod_range p : 0 <= p mod ChunkSize < ChunkSize.
Proof. apply Z.mod_pos_bound. lia. Qed.

(** An [assert] that holds, or that [NDEBUG] removes, lets the call go on. *)
Lemma assert_pass (cond : bool) expr m :
  NDEBUG = true ∨ cond = true → assert_ NDEBUG cond expr m = Ret tt m.
Proof.
  unfold assert_. intros [H|H]; rewrite H; [done|]. by destruct NDEBUG.
Qed.

(** A position below the end of the chunks has a chunk pointer. *)
Lemma chunk_lookup m p :
  0 <= p < chunks_size m * ChunkSize →
  ∃ h, chunks m !! Z.to_nat (p / ChunkSize) = Some h.
Proof.
  intros Hp. apply lookup_lt_is_Some.
  pose proof (div_range p _ Hp). unfold chunks_size in *. lia.
Qed.

(** From the first live chunk on, the slot exists. *)
Lemma slot_at_live m p :
  well_formed ChunkSize m →
  front_chunk_index m * ChunkSize <= p < chunks_size m * ChunkSize →
  ∃ h c, chunks m !! Z.to_nat (p / ChunkSize) = Some h
         ∧ heap m !! h = Some c
         ∧ Z.of_nat (length c) = ChunkSize
         ∧ slot_at ChunkSize m p = c !! Z.to_nat (p mod ChunkSize)
         ∧ is_Some (c !! Z.to_nat (p mod ChunkSize)).
Proof.
  intros Hwf [Hlo Hhi].
  pose proof (wf_front _ _ Hwf) as Hfront.
  destruct (chunk_lookup m p) as [h Hh]; [nia|].
  destruct (wf_live _ _ Hwf (Z.to_nat (p / ChunkSize)) h) as (c & Hc & Hlen);
    [|done|].
  { rewrite Z2Nat.id by (apply Z.div_pos; nia).
    apply Z.div_le_lower_bound; lia. }
  exists h, c. unfold slot_at. rewrite Hh, Hc. split_and!; try done.
  apply lookup_lt_is_Some. pose proof (mod_range p). lia.
Qed.

(** [operator[]] on an index whose position lies within the chunks. *)
Lemma subscript_spec m i :
  well_formed ChunkSize m →
  0 <= i → (NDEBUG = true ∨ i < total_size m) →
  position ChunkSize m i < chunks_size m * ChunkSize →
  ∃ h, chunks m !! Z.to_nat (position ChunkSize m i / ChunkSize) = Some h
       ∧ subscript ChunkSize NDEBUG i m
         = Ret (h, position ChunkSize m i mod ChunkSize) m.
Proof.
  intros Hwf Hi Hassert Hp.
  pose proof (wf_start _ _ Hwf). pose proof (wf_front _ _ Hwf).
  pose proof (wf_bound _ _ Hwf).
  assert (0 <= position ChunkSize m i) by (unfold position; nia).
  destruct (chunk_lookup m (position ChunkSize m i)) as [h Hh]; [lia|].
  exists h. split; [done|].
  unfold subscript, bind, gets, chunks_at, ret, chunk_index,
    within_chunk_index.
  rewrite assert_pass by (destruct Hassert as [?|?%Z.ltb_lt]; auto).
  rewrite (wrap_small (start_index m + i)) by (unfold position in *; nia).
  rewrite <- position_div, <- position_mod.
  pose proof (div_range (position ChunkSize m i) (chunks_size m)
                ltac:(lia)).
  rewrite wrap_small by nia.
  by rewrite Hh.
Qed.

(** Reading a slot that holds a value. *)
Lemma load_spec m p h v :
  0 <= p → chunks m !! Z.to_nat (p / ChunkSize) = Some h →
  slot_at ChunkSize m p = Some (Some v) →
  load (h, p mod ChunkSize) m = Ret v m.
Proof.
  intros Hp Hh. unfold slot_at, load. rewrite Hh. simpl.
  destruct (heap m !! h) as [c|]; [|done]. by intros ->.
Qed.

(** Assigning to a slot of a live chunk changes that slot and no other. *)
Lemma store_spec m p h v :
  well_formed ChunkSize m →
  front_chunk_index m * ChunkSize <= p < chunks_size m * ChunkSize →
  chunks m !! Z.to_nat (p / ChunkSize) = Some h →
  ∃ m', store (h, p mod ChunkSize) v m = Ret tt m'
        ∧ chunks m' = chunks m
        ∧ next_handle m' = next_handle m
        ∧ total_size m' = total_size m
        ∧ start_index m' = start_index m
        ∧ front_chunk_index m' = front_chunk_index m
        ∧ well_formed ChunkSize m'
        ∧ slot_at ChunkSize m' p = Some (Some v)
        ∧ (∀ q, 0 <= q → q ≠ p →
             slot_at ChunkSize m' q = slot_at ChunkSize m q).
Proof.
  intros Hwf Hp Hh.
  destruct (slot_at_live m p Hwf Hp) as (h' & c & Hh' & Hc & Hlen & _ & Hoff).
  assert (h' = h) as -> by congruence.
  pose proof (wf_front _ _ Hwf) as Hfront.
  assert (0 <= p) by nia.
  pose proof (mod_range p) as Hmod.
  unfold store. simpl. rewrite Hc. eexists. split; [reflexivity|]. simpl.
  split_and!; try done.
  - destruct Hwf as [Hs Hf Hb Hnd Hfr Hlive Hdead].
    split; simpl; try done.
    + intros k h0 Hk Hh0. destruct (decide (h0 = h)) as [->|Hne].
      * rewrite lookup_insert_eq. eexists. split; [done|].
        by rewrite length_insert.
      * rewrite lookup_insert_ne by done. by apply (Hlive k).
    + intros k h0 Hk Hh0. destruct (decide (h0 = h)) as [->|Hne].
      * rewrite (Hdead k h Hk Hh0) in Hc. done.
      * rewrite lookup_insert_ne by done. by apply (Hdead k).
  - unfold slot_at. simpl. rewrite Hh, lookup_insert_eq.
    apply list_lookup_insert_eq. lia.
  - intros q Hq Hne. unfold slot_at. simpl.
    destruct (chunks m !! Z.to_nat (q / ChunkSize)) as [hq|] eqn:Hhq; [|done].
    destruct (decide (hq = h)) as [->|Hneq].
    + rewrite lookup_insert_eq, Hc.
      apply list_lookup_insert_ne.
      assert (Z.to_nat (q / ChunkSize) = Z.to_nat (p / ChunkSize)) as Heq.
      { eapply NoDup_lookup; [apply (wf_nodup _ _ Hwf)|done..]. }
      apply Z2Nat.inj in Heq; [|apply Z.div_pos; lia..].
      intros Hoffs. apply Z2Nat.inj in Hoffs; [|apply mod_range..].
      pose proof (Z.div_mod p ChunkSize ltac:(lia)).
      pose proof (Z.div_mod q ChunkSize ltac:(lia)).
      apply Hne. congruence.
    + by rewrite lookup_insert_ne.
Qed.

End Layout.

Section LayoutSteps.

Context {T : Type}.
Variable value_init : T.
Variable default_init : option T.
Variable ChunkSize : Z.
Variable NDEBUG : bool.

Implicit Types m : machine (T:=T).
Implicit Types L : list (option T).
Implicit Types l : list T.

Hypothesis ChunkSize_pos : 0 < ChunkSize.

Lemma position_same m m' i :
  same_bookkeeping m m' → position ChunkSize m' i = position ChunkSize m i.
Proof. intros (_ & _ & _ & Hs & Hf). unfold position. by rewrite Hs, Hf. Qed.

Lemma chunks_size_same m m' :
  same_bookkeeping m m' → chunks_size m' = chunks_size m.
Proof. intros (Hc & _). unfold chunks_size. by rewrite Hc. Qed.

Lemma same_bookkeeping_refl m : same_bookkeeping m m.
Proof. by repeat split. Qed.

Lemma same_bookkeeping_trans m1 m2 m3 :
  same_bookkeeping m1 m2 → same_bookkeeping m2 m3 → same_bookkeeping m1 m3.
Proof.
  intros (?&?&?&?&?) (?&?&?&?&?). repeat split; congruence.
Qed.

(** A layout still holds of a list that asks for less. *)
Lemma layout_weaken m L L' :
  layout ChunkSize m L →
  position ChunkSize m (Z.of_nat (length L')) <= chunks_size m * ChunkSize →
  (∀ (i : nat) v, L' !! i = Some (Some v) → L !! i = Some (Some v)) →
  layout ChunkSize m L'.
Proof.
  intros (Hwf & _ & Hel) Hfit Hsub. unfold layout. split_and!; [done..|].
  intros i v Hi. by apply Hel, Hsub.
Qed.

Lemma layout_position_bounds m L (i : nat) :
  layout ChunkSize m L → (i < length L)%nat →
  front_chunk_index m * ChunkSize <= position ChunkSize m (Z.of_nat i)
    < chunks_size m * ChunkSize.
Proof.
  intros (Hwf & Hfit & _) Hi. pose proof (wf_start _ _ Hwf).
  pose proof (wf_front _ _ Hwf). unfold position in *. nia.
Qed.

(** Reading index [i] of a laid-out list. *)
Lemma read_spec m L (i : nat) v :
  layout ChunkSize m L → L !! i = Some (Some v) →
  NDEBUG = true ∨ Z.of_nat i < total_size m →
  read ChunkSize NDEBUG (Z.of_nat i) m = Ret v m.
Proof.
  intros HL Hi Hassert.
  pose proof (lookup_lt_Some _ _ _ Hi) as Hlen.
  pose proof (layout_position_bounds m L i HL Hlen) as Hpos.
  destruct HL as (Hwf & Hfit & Hel).
  pose proof (wf_front _ _ Hwf).
  destruct (subscript_spec ChunkSize NDEBUG ChunkSize_pos m (Z.of_nat i))
    as (h & Hh & Hsub); try done; [lia..|].
  unfold read. rewrite (bind_ret _ _ _ _ _ Hsub).
  apply (load_spec ChunkSize); [nia|done|]. by apply Hel.
Qed.

(** Assigning to index [i] through [operator[]]. *)
Lemma assign_spec m (i : nat) v :
  well_formed ChunkSize m →
  NDEBUG = true ∨ Z.of_nat i < total_size m →
  position ChunkSize m (Z.of_nat i) < chunks_size m * ChunkSize →
  ∃ m', (let* r := subscript ChunkSize NDEBUG (Z.of_nat i) in store r v) m
        = Ret tt m'
        ∧ same_bookkeeping m m'
        ∧ well_formed ChunkSize m'
        ∧ slot_at ChunkSize m' (position ChunkSize m (Z.of_nat i))
          = Some (Some v)
        ∧ (∀ q, 0 <= q → q ≠ position ChunkSize m (Z.of_nat i) →
             slot_at ChunkSize m' q = slot_at ChunkSize m q).
Proof.
  intros Hwf Hassert Hpos.
  pose proof (wf_start _ _ Hwf). pose proof (wf_front _ _ Hwf).
  destruct (subscript_spec ChunkSize NDEBUG ChunkSize_pos m (Z.of_nat i))
    as (h & Hh & Hsub); try done; [lia|].
  rewrite (bind_ret _ _ _ _ _ Hsub).
  destruct (store_spec ChunkSize ChunkSize_pos m
              (position ChunkSize m (Z.of_nat i)) h v)
    as (m' & Hst & Hc & Hn & Ht & Hs & Hf & Hwf' & Hnew & Hold); try done.
  { unfold position in *. nia. }
  exists m'. split; [done|]. split; [by repeat split|]. by split_and!.
Qed.

Lemma layout_assign m m' L (i : nat) v :
  layout ChunkSize m L →
  same_bookkeeping m m' → well_formed ChunkSize m' →
  slot_at ChunkSize m' (position ChunkSize m (Z.of_nat i)) = Some (Some v) →
  (∀ q, 0 <= q → q ≠ position ChunkSize m (Z.of_nat i) →
     slot_at ChunkSize m' q = slot_at ChunkSize m q) →
  layout ChunkSize m' (<[i := Some v]> L).
Proof.
  intros (Hwf & Hfit & Hel) Hsame Hwf' Hnew Hold.
  pose proof (wf_start _ _ Hwf). pose proof (wf_front _ _ Hwf).
  unfold layout. split_and!; [done| |].
  - rewrite length_insert, (position_same m m'), (chunks_size_same m m'); done.
  - intros j w Hj. rewrite (position_same m m') by done.
    destruct (decide (j = i)) as [->|Hne].
    + pose proof (lookup_lt_Some _ _ _ Hj) as Hlen.
      rewrite length_insert in Hlen.
      rewrite list_lookup_insert_eq in Hj by done. by simplify_eq.
    + rewrite list_lookup_insert_ne in Hj by done.
      rewrite Hold; [by apply Hel| |].
      * unfold position. nia.
      * unfold position. lia.
Qed.

(** Moving the value of index [src] to index [dst]. *)
Lemma move_slot_spec m L (dst src : nat) v :
  layout ChunkSize m L → L !! src = Some (Some v) →
  NDEBUG = true ∨ (Z.of_nat dst < total_size m ∧ Z.of_nat src < total_size m) →
  position ChunkSize m (Z.of_nat dst) < chunks_size m * ChunkSize →
  ∃ m', move_slot ChunkSize NDEBUG (Z.of_nat dst) (Z.of_nat src) m = Ret tt m'
        ∧ same_bookkeeping m m'
        ∧ layout ChunkSize m' (<[dst := Some v]> L).
Proof.
  intros HL Hsrc Hassert Hdst.
  pose proof (lookup_lt_Some _ _ _ Hsrc) as Hlen.
  pose proof (layout_position_bounds m L src HL Hlen) as Hpos.
  pose proof HL as (Hwf & Hfit & Hel).
  pose proof (wf_start _ _ Hwf). pose proof (wf_front _ _ Hwf).
  destruct (subscript_spec ChunkSize NDEBUG ChunkSize_pos m (Z.of_nat src))
    as (hs & Hhs & Hsubs); try done; [lia|tauto|lia|].
  destruct (subscript_spec ChunkSize NDEBUG ChunkSize_pos m (Z.of_nat dst))
    as (hd & Hhd & Hsubd); try done; [lia|tauto|].
  destruct (store_spec ChunkSize ChunkSize_pos m
              (position ChunkSize m (Z.of_nat dst)) hd v)
    as (m' & Hst & Hc & Hn & Ht & Hs & Hf & Hwf' & Hnew & Hold); try done.
  { unfold position in *. nia. }
  exists m'. unfold move_slot.
  rewrite (bind_ret _ _ _ _ _ Hsubs), (bind_ret _ _ _ _ _ Hsubd).
  assert (Hnonneg : 0 <= position ChunkSize m (Z.of_nat src)) by nia.
  rewrite (bind_ret _ _ _ _ _
             (load_spec ChunkSize m _ hs v Hnonneg Hhs (Hel _ _ Hsrc))).
  split; [done|]. split; [by repeat split|].
  apply (layout_assign m m' L dst v); try done; by repeat split.
Qed.

(** The logical sequence read back. *)
Lemma read_range_spec l : ∀ m (pre : list T),
  layout ChunkSize m (Some <$> (pre ++ l)) →
  NDEBUG = true ∨ Z.of_nat (length (pre ++ l)) <= total_size m →
  read_range ChunkSize NDEBUG (length l) (Z.of_nat (length pre)) m = Ret l m.
Proof.
  induction l as [|x l IH]; intros m pre HL Hassert; [done|].
  simpl.
  erewrite bind_ret; cycle 1.
  { apply (read_spec m _ (length pre) x HL).
    - rewrite list_lookup_fmap, lookup_app_r, Nat.sub_diag by done. done.
    - destruct Hassert as [?|Hle]; [by left|right].
      rewrite length_app in Hle. simpl in Hle. lia. }
  replace (Z.of_nat (length pre) + 1) with (Z.of_nat (length (pre ++ [x])))
    by (rewrite length_app; simpl; lia).
  erewrite bind_ret; [done|]. apply IH.
  - by rewrite <- app_assoc.
  - by rewrite <- app_assoc.
Qed.




End LayoutSteps.

(** ** Reading a well-formed container *)

Section Reading.

Context {T : Type}.
Variable ChunkSize : Z.
Variable NDEBUG : bool.

Implicit Types m : machine (T:=T).
Implicit Types l : list T.

Hypothesis ChunkSize_pos : 0 < ChunkSize.

Lemma to_list_spec m l :
  represents ChunkSize m l → to_list ChunkSize NDEBUG m = Ret l m.
Proof.
  intros [Hsize HL]. unfold to_list, bind, gets. rewrite Hsize, Nat2Z.id.
  apply (read_range_spec ChunkSize NDEBUG ChunkSize_pos l m []); [done|].
  right. simpl. lia.
Qed.

(** X1. A container that holds the sequence [l] reads back as [l]:
    [operator[]] applied to [0 .. size() - 1] returns the elements in
    order, without fault, whether or not [assert] is active. *)
Theorem to_list_represents m l :
  represents ChunkSize m l → to_list ChunkSize NDEBUG m = Ret l m.
Proof. apply to_list_spec. Qed.

(** X2. On a container that holds [l], the checked accessors give
    references to the right elements: reading through [at(i)] yields the
    [i]-th element, through [front()] the first and through [back()] the
    last. *)
Theorem accessors_represents m l (i : nat) v :
  represents ChunkSize m l → l !! i = Some v →
  (let* r := at_ ChunkSize NDEBUG (Z.of_nat i) in load r) m = Ret v m
  ∧ (∀ x, head l = Some x →
       (let* r := front ChunkSize NDEBUG in load r) m = Ret x m)
  ∧ (∀ y, last l = Some y →
       (let* r := back ChunkSize NDEBUG in load r) m = Ret y m).
Proof.
  intros [Hsize HL] Hi.
  pose proof (lookup_lt_Some _ _ _ Hi) as Hlen.
  assert (Hread : ∀ (j : nat) w, l !! j = Some w →
            (let* r := subscript ChunkSize NDEBUG (Z.of_nat j) in load r) m
            = Ret w m).
  { intros j w Hj. apply (read_spec ChunkSize NDEBUG ChunkSize_pos m _ j w HL).
    - by rewrite list_lookup_fmap, Hj.
    - right. apply lookup_lt_Some in Hj. lia. }
  assert (Hmax : total_size m - 1 < size_type_modulus).
  { destruct HL as (Hwf & Hfit & _). pose proof (wf_bound _ _ Hwf).
    pose proof (wf_front _ _ Hwf). pose proof (wf_start _ _ Hwf).
    unfold position in Hfit. rewrite length_fmap in Hfit. nia. }
  split_and!.
  - unfold at_. rewrite bind_assoc, bind_gets, bind_assoc.
    erewrite bind_ret by (apply assert_pass; right; apply Z.ltb_lt; lia).
    apply (Hread i v Hi).
  - intros x Hx. unfold front. rewrite bind_assoc, bind_gets, bind_assoc.
    erewrite bind_ret
      by (apply assert_pass; right; apply negb_true_iff, Z.eqb_neq;
          unfold empty; lia).
    apply (Hread O x). by rewrite <- head_lookup.
  - intros y Hy. unfold back. rewrite bind_assoc, bind_gets, bind_assoc.
    erewrite bind_ret
      by (apply assert_pass; right; apply negb_true_iff, Z.eqb_neq;
          unfold empty; lia).
    rewrite bind_assoc, bind_gets. rewrite wrap_small by lia.
    rewrite Hsize.
    replace (Z.of_nat (length l) - 1) with (Z.of_nat (pred (length l))) by lia.
    apply (Hread (pred (length l)) y). by rewrite <- last_lookup.
Qed.

Lemma capacity_spec m l :
  represents ChunkSize m l →
  capacity ChunkSize m
  = (chunks_size m - front_chunk_index m) * ChunkSize - start_index m
  ∧ size m <= capacity ChunkSize m.
Proof.
  intros [Hsize (Hwf & Hfit & _)].
  pose proof (wf_start _ _ Hwf). pose proof (wf_front _ _ Hwf).
  pose proof (wf_bound _ _ Hwf).
  assert (capacity ChunkSize m
          = (chunks_size m - front_chunk_index m) * ChunkSize - start_index m)
    as Hcap.
  { unfold capacity. rewrite length_fmap in Hfit. unfold position in Hfit.
    rewrite (wrap_small (chunks_size m - front_chunk_index m)) by nia.
    rewrite (wrap_small ((chunks_size m - front_chunk_index m) * ChunkSize))
      by nia.
    apply wrap_small. nia. }
  split; [done|]. rewrite Hcap. unfold size.
  rewrite length_fmap in Hfit. unfold position in Hfit. lia.
Qed.

(** X3. In a container that holds a sequence, nothing wraps in
    [capacity()]: it is [(chunks.size() - front_chunk_index) * ChunkSize -
    start_index], and it is at least [size()]. *)
Theorem capacity_represents m l :
  represents ChunkSize m l →
  capacity ChunkSize m
  = (chunks_size m - front_chunk_index m) * ChunkSize - start_index m
  ∧ size m <= capacity ChunkSize m.
Proof. apply capacity_spec. Qed.

End Reading.

(** ** Growing at the back *)

Section Growing.

Context {T : Type}.
Variable value_init : T.
Variable default_init : option T.
Variable ChunkSize : Z.
Variable NDEBUG : bool.

Implicit Types m : machine (T:=T).
Implicit Types L : list (option T).
Implicit Types l : list T.

Hypothesis ChunkSize_pos : 0 < ChunkSize.

(** One iteration of the loop of [ensure_capacity_for]: a fresh chunk at
    the end, everything before it untouched. *)
Lemma append_chunk_wf m :
  well_formed ChunkSize m →
  (chunks_size m + 1) * ChunkSize < size_type_modulus →
  let m1 := set_chunks (λ cs, cs ++ [next_handle m])
              (set_next_handle (S (next_handle m))
                 (set_heap (λ hp, <[next_handle m :=
                    replicate (Z.to_nat ChunkSize) default_init]> hp) m)) in
  well_formed ChunkSize m1
  ∧ chunks_size m1 = chunks_size m + 1
  ∧ (∀ p, 0 <= p < chunks_size m * ChunkSize →
       slot_at ChunkSize m1 p = slot_at ChunkSize m p).
Proof.
  intros [Hs Hf Hb Hnd Hfr Hlive Hdead] Hroom m1.
  assert (Hsize : chunks_size m1 = chunks_size m + 1).
  { unfold chunks_size, m1. simpl. rewrite length_app. simpl. lia. }
  assert (Hnotin : next_handle m ∉ chunks m).
  { intros Hin. apply Hfr in Hin. lia. }
  split_and!; [|done|].
  - split; simpl; try done.
    + rewrite Hsize. lia.
    + by rewrite Hsize.
    + apply NoDup_app. split_and!; [done| |apply NoDup_singleton].
      intros h Hh ->%list_elem_of_singleton. done.
    + intros h [Hh| ->%list_elem_of_singleton]%elem_of_app; [|lia].
      apply Hfr in Hh. lia.
    + intros k h Hk Hh. apply lookup_app_Some in Hh as [Hh|[Hge Hh]].
      * rewrite lookup_insert_ne; [by apply (Hlive k)|].
        intros <-. apply Hnotin. by eapply list_elem_of_lookup_2.
      * apply list_lookup_singleton_Some in Hh as [_ <-].
        rewrite lookup_insert_eq. eexists. split; [done|].
        rewrite length_replicate. lia.
    + intros k h Hk Hh. apply lookup_app_Some in Hh as [Hh|[Hge Hh]].
      * rewrite lookup_insert_ne; [by apply (Hdead k)|].
        intros <-. apply Hnotin. by eapply list_elem_of_lookup_2.
      * unfold chunks_size in *. lia.
  - intros p Hp. unfold slot_at, m1. simpl.
    pose proof (div_range ChunkSize ChunkSize_pos p _ Hp) as Hdiv.
    rewrite lookup_app_l by (unfold chunks_size in *; lia).
    destruct (chunks m !! Z.to_nat (p / ChunkSize)) as [h|] eqn:Hh; [|done].
    rewrite lookup_insert_ne; [done|].
    intros <-. apply Hnotin. by eapply list_elem_of_lookup_2.
Qed.

(** [ensure_capacity_for(i)] on a well-formed container, with budget for
    the chunks that are missing: it returns, the chunks reach position [i],
    and what the existing slots hold is unchanged. *)
Lemma ensure_capacity_for_wf (n : nat) : ∀ m i,
  well_formed ChunkSize m →
  0 <= i → i + ChunkSize < size_type_modulus →
  i / ChunkSize + 1 - chunks_size m <= Z.of_nat n →
  ∃ m', ensure_capacity_for default_init ChunkSize n i m = Ret tt m'
        ∧ well_formed ChunkSize m'
        ∧ chunks_size m' = Z.max (chunks_size m) (i / ChunkSize + 1)
        ∧ total_size m' = total_size m
        ∧ start_index m' = start_index m
        ∧ front_chunk_index m' = front_chunk_index m
        ∧ (∀ p, 0 <= p < chunks_size m * ChunkSize →
             slot_at ChunkSize m' p = slot_at ChunkSize m p).
Proof.
  unfold ensure_capacity_for.
  induction n as [|n IH]; intros m i Hwf Hi Hbound Hfuel;
    pose proof (chunks_size_nonneg m);
    pose proof (wf_bound _ _ Hwf);
    simpl; rewrite (wrap_small (chunks_size m * ChunkSize)) by lia;
    destruct (Z.leb_spec (chunks_size m * ChunkSize) i) as [Hle|Hgt];
    try (assert (Hq : chunks_size m <= i / ChunkSize)
           by (apply Z.div_le_lower_bound; lia));
    try (assert (Hq : i / ChunkSize < chunks_size m)
           by (apply Z.div_lt_upper_bound; lia)).
  - lia.
  - exists m. split_and!; try done. lia.
  - unfold bind, allocate_chunk, modify. simpl.
    destruct (append_chunk_wf m Hwf) as (Hwf1 & Hsize1 & Hslot1); [nia|].
    simpl in *.
    edestruct (IH _ i Hwf1) as (m' & -> & Hwf' & Hsize & Htot & Hst & Hfr & Hslot);
      try done; [lia|].
    exists m'. split_and!; try done.
    + rewrite Hsize, Hsize1. lia.
    + intros p Hp. rewrite Hslot by (rewrite Hsize1; nia). by apply Hslot1.
  - exists m. split_and!; try done. lia.
Qed.

Lemma push_back_spec (fuel : nat) m l v :
  represents ChunkSize m l →
  (1 <= fuel)%nat →
  start_index m + total_size m + ChunkSize < size_type_modulus →
  front_chunk_index m = 0 ∨ total_size m < capacity ChunkSize m →
  ∃ m', push_back default_init ChunkSize NDEBUG fuel v m = Ret tt m'
        ∧ represents ChunkSize m' (l ++ [v])
        ∧ start_index m' = start_index m
        ∧ front_chunk_index m' = front_chunk_index m.
Proof.
  intros Hrep Hfuel Hbound Hroom.
  destruct (capacity_spec ChunkSize ChunkSize_pos m l Hrep) as [Hcap _].
  destruct Hrep as [Hsize (Hwf & Hfit & Hel)].
  rewrite length_fmap in Hfit.
  pose proof (wf_start _ _ Hwf). pose proof (wf_front _ _ Hwf).
  pose proof (wf_bound _ _ Hwf). pose proof (chunks_size_nonneg m).
  set (n := total_size m) in *.
  assert (Hn : 0 <= n) by lia.
  assert (Hdiv : (start_index m + n) / ChunkSize <= chunks_size m).
  { apply Z.div_le_upper_bound; [lia|]. unfold position in Hfit. nia. }
  destruct (ensure_capacity_for_wf fuel m (start_index m + n) Hwf)
    as (m1 & Hrun & Hwf1 & Hsize1 & Htot1 & Hst1 & Hfr1 & Hslot1);
    [lia..|].
  pose proof (Z.mul_succ_div_gt (start_index m + n) ChunkSize ChunkSize_pos)
    as Hup.
  assert (Hpos : position ChunkSize m n < chunks_size m1 * ChunkSize).
  { unfold position in *. destruct Hroom as [Hz|Hlt]; [rewrite Hz; nia|].
    rewrite Hcap in Hlt. nia. }
  set (m2 := set_total_size (wrap (n + 1)) m1).
  assert (Hwf2 : well_formed ChunkSize m2) by (by destruct Hwf1; split).
  destruct (assign_spec ChunkSize NDEBUG ChunkSize_pos m2 (Z.to_nat n) v Hwf2)
    as (m' & Hassign & Hsame & Hwf' & Hnew & Hold).
  { right. simpl. rewrite wrap_small by (unfold position in *; nia). lia. }
  { rewrite Z2Nat.id by done. unfold position, chunks_size in *. simpl.
    rewrite Hst1, Hfr1. lia. }
  rewrite Z2Nat.id in * by done.
  exists m'. split.
  { unfold push_back. rewrite !bind_gets. fold n.
    rewrite (wrap_small (start_index m + n)) by lia.
    rewrite (bind_ret _ _ _ _ _ Hrun), bind_modify. exact Hassign. }
  destruct Hsame as (Hc & Hnx & Ht & Hs & Hf). simpl in *.
  assert (Hpos' : ∀ i, position ChunkSize m' i = position ChunkSize m i).
  { intros i. unfold position. by rewrite Hs, Hf, Hst1, Hfr1. }
  assert (Hpos2 : ∀ i, position ChunkSize m2 i = position ChunkSize m i).
  { intros i. unfold position. simpl. by rewrite Hst1, Hfr1. }
  assert (Hcs : chunks_size m' = chunks_size m1).
  { unfold chunks_size. by rewrite Hc. }
  assert (Hslot2 : ∀ q, slot_at ChunkSize m2 q = slot_at ChunkSize m1 q)
    by done.
  unfold represents. split_and!.
  - rewrite Ht, length_app. simpl.
    rewrite wrap_small by (unfold position in *; nia). lia.
  - unfold layout. split_and!; [done| |].
    + rewrite length_fmap, length_app, Hpos', Hcs. simpl.
      unfold position in *. lia.
    + intros i w Hi. rewrite list_lookup_fmap in Hi.
      rewrite Hpos'.
      destruct (l !! i) as [x|] eqn:Hx.
      * rewrite lookup_app_l in Hi by (by eapply lookup_lt_Some).
        rewrite Hx in Hi. simpl in Hi. assert (w = x) as -> by congruence.
        pose proof (lookup_lt_Some _ _ _ Hx) as Hlt.
        rewrite Hold, Hslot2, Hslot1.
        -- apply Hel. by rewrite list_lookup_fmap, Hx.
        -- unfold position in *. nia.
        -- unfold position. nia.
        -- rewrite Hpos2. unfold position. lia.
      * apply lookup_ge_None in Hx.
        destruct (decide (i = length l)) as [->|Hne].
        -- rewrite lookup_app_r, Nat.sub_diag in Hi by done.
           simpl in Hi. assert (w = v) as -> by congruence.
           rewrite <- Hsize. fold n. by rewrite <- (Hpos2 n).
        -- rewrite lookup_ge_None_2 in Hi; [done|].
           rewrite length_app. simpl. lia.
  - by rewrite Hs, Hst1.
  - by rewrite Hf, Hfr1.
Qed.

(** X4. [push_back(v)] on a container that holds [l], with room for one
    more chunk below [2^64] and, when front chunks have been released,
    spare capacity: it returns and the container holds [l] followed by [v];
    the offsets are as before. *)
Theorem push_back_represents (fuel : nat) m l v :
  represents ChunkSize m l →
  (1 <= fuel)%nat →
  start_index m + total_size m + ChunkSize < size_type_modulus →
  front_chunk_index m = 0 ∨ total_size m < capacity ChunkSize m →
  ∃ m', push_back default_init ChunkSize NDEBUG fuel v m = Ret tt m'
        ∧ represents ChunkSize m' (l ++ [v])
        ∧ start_index m' = start_index m
        ∧ front_chunk_index m' = front_chunk_index m.
Proof. apply push_back_spec. Qed.



End Growing.

Section Sequences.

Context {T : Type}.
Variable value_init : T.
Variable default_init : option T.
Variable ChunkSize : Z.
Variable NDEBUG : bool.

Implicit Types m : machine (T:=T).
Implicit Types l : list T.

Hypothesis ChunkSize_pos : 0 < ChunkSize.

Lemma init_represents : represents ChunkSize (init (T:=T)) [].
Proof.
  split; [done|]. unfold layout.
  split_and!; [|unfold position, chunks_size; simpl; lia|done].
  split; simpl; unfold chunks_size; simpl; try done; try lia.
  - apply NoDup_nil_2.
  - intros h Hh. by apply elem_of_nil in Hh.
Qed.

Lemma push_back_run (fuel : nat) vs : ∀ m l,
  represents ChunkSize m l →
  (1 <= fuel)%nat →
  front_chunk_index m = 0 →
  start_index m + total_size m + Z.of_nat (length vs) + ChunkSize
    < size_type_modulus →
  ∃ m', for_each (PushBack <$> vs)
          (step value_init default_init ChunkSize NDEBUG fuel) m = Ret tt m'
        ∧ represents ChunkSize m' (l ++ vs)
        ∧ start_index m' = start_index m
        ∧ front_chunk_index m' = 0.
Proof.
  induction vs as [|v vs IH]; intros m l Hrep Hfuel Hfront Hbound.
  - exists m. rewrite app_nil_r. by split_and!.
  - simpl in *.
    destruct (push_back_spec default_init ChunkSize NDEBUG
                ChunkSize_pos fuel m l v Hrep Hfuel)
      as (m1 & Hpush & Hrep1 & Hst1 & Hfr1); [lia|by left|].
    destruct (IH m1 (l ++ [v]) Hrep1 Hfuel) as (m' & Hrun & Hrep' & Hst' & Hfr').
    { by rewrite Hfr1. }
    { destruct Hrep1 as [Hsz1 _]. destruct Hrep as [Hsz _].
      rewrite Hst1, Hsz1, length_app. simpl. lia. }
    exists m'. rewrite (bind_ret _ _ _ _ _ Hpush).
    rewrite <- app_assoc in Hrep'. split_and!; try done. by rewrite Hst'.
Qed.

(** X5. Any sequence of [push_back] calls on a fresh container returns,
    and afterwards [size()] is the number of calls and the container reads
    back as the pushed values in order. One unit of loop budget per call is
    enough: [ensure_capacity_for] allocates at most one chunk. *)
Theorem push_back_sequence (fuel : nat) (vs : list T) :
  (1 <= fuel)%nat →
  Z.of_nat (length vs) + ChunkSize < size_type_modulus →
  ∃ m, run value_init default_init ChunkSize NDEBUG fuel (PushBack <$> vs)
       = Ret tt m
       ∧ represents ChunkSize m vs
       ∧ size m = Z.of_nat (length vs)
       ∧ to_list ChunkSize NDEBUG m = Ret vs m.
Proof.
  intros Hfuel Hbound.
  destruct (push_back_run fuel vs init [] init_represents Hfuel)
    as (m & Hrun & Hrep & _ & _); [done|simpl; lia|].
  exists m. split_and!; try done.
  - by destruct Hrep.
  - by apply to_list_spec.
Qed.

(** X6. [erase_front()] on a container that holds [x :: l]: it returns
    and the container holds [l]. The front chunk is released exactly when
    [start_index] reaches [ChunkSize]; its pointer stays in [chunks], below
    the new [front_chunk_index]. *)
Theorem erase_front_represents m x l :
  represents ChunkSize m (x :: l) →
  ∃ m', erase_front ChunkSize NDEBUG m = Ret tt m'
        ∧ represents ChunkSize m' l
        ∧ chunks m' = chunks m
        ∧ (start_index m + 1 < ChunkSize →
             heap m' = heap m
             ∧ start_index m' = start_index m + 1
             ∧ front_chunk_index m' = front_chunk_index m)
        ∧ (start_index m + 1 = ChunkSize →
             ∃ h, chunks m !! Z.to_nat (front_chunk_index m) = Some h
                  ∧ is_Some (heap m !! h)
                  ∧ heap m' = delete h (heap m)
                  ∧ start_index m' = 0
                  ∧ front_chunk_index m' = front_chunk_index m + 1).
Proof.
  intros [Hsize (Hwf & Hfit & Hel)].
  rewrite length_fmap in Hfit. simpl in Hsize, Hfit.
  pose proof (wf_start _ _ Hwf) as Hs. pose proof (wf_front _ _ Hwf) as Hf.
  pose proof (wf_bound _ _ Hwf) as Hb. pose proof (chunks_size_nonneg m).
  assert (Hflt : front_chunk_index m < chunks_size m)
    by (unfold position in Hfit; nia).
  unfold erase_front. rewrite bind_gets.
  erewrite bind_ret
    by (apply assert_pass; right; apply negb_true_iff, Z.eqb_neq;
        unfold empty; lia).
  rewrite bind_gets, bind_modify. simpl. rewrite bind_gets, bind_modify. simpl.
  rewrite bind_gets. simpl.
  rewrite (wrap_small (start_index m + 1)) by nia.
  rewrite (wrap_small (total_size m - 1)) by (unfold position in Hfit; nia).
  assert (Hshift : ∀ (i : nat) w, l !! i = Some w →
            slot_at ChunkSize m (position ChunkSize m (Z.of_nat (S i)))
            = Some (Some w)).
  { intros i w Hi. apply Hel. rewrite list_lookup_fmap. simpl. by rewrite Hi. }
  destruct (Z.leb_spec ChunkSize (start_index m + 1)) as [Hcross|Hstay].
  - assert (start_index m + 1 = ChunkSize) as Heq by lia.
    destruct (lookup_lt_is_Some_2 (chunks m) (Z.to_nat (front_chunk_index m)))
      as [h Hh]; [unfold chunks_size in *; lia|].
    destruct (wf_live _ _ Hwf (Z.to_nat (front_chunk_index m)) h)
      as (c & Hc & Hlen); [lia|done|].
    rewrite bind_gets. simpl.
    unfold chunks_at at 1. unfold bind at 1. simpl. rewrite Hh.
    unfold free_chunk at 1. unfold bind at 1. simpl. rewrite Hc.
    rewrite !bind_modify. simpl.
    rewrite (wrap_small (front_chunk_index m + 1)) by nia.
    rewrite Heq, Z.sub_diag. change (wrap 0) with 0.
    eexists. split; [reflexivity|]. simpl.
    assert (Hother : ∀ (k : nat) h0, Z.of_nat k ≠ front_chunk_index m →
              chunks m !! k = Some h0 → h0 ≠ h).
    { intros k h0 Hk Hh0 ->.
      pose proof (NoDup_lookup _ _ _ _ (wf_nodup _ _ Hwf) Hh0 Hh). lia. }
    split_and!.
    + split.
      * simpl. lia.
      * unfold layout. split_and!.
        -- destruct Hwf as [? ? ? Hnd Hfr Hlive Hdead].
           split; simpl; try done; try lia.
           ++ unfold chunks_size in *. simpl. lia.
           ++ intros k h0 Hk Hh0.
              rewrite lookup_delete_ne by (apply not_eq_sym, (Hother k); [lia|done]).
              apply (Hlive k); [lia|done].
           ++ intros k h0 Hk Hh0. destruct (decide (h = h0)) as [->|Hne].
              ** apply lookup_delete_eq.
              ** rewrite lookup_delete_ne by done. apply (Hdead k); [|done].
                 destruct (decide (Z.of_nat k = front_chunk_index m)); [|lia].
                 exfalso. apply Hne.
                 replace k with (Z.to_nat (front_chunk_index m)) in Hh0 by lia.
                 congruence.
        -- rewrite length_fmap. unfold position, chunks_size in *. simpl. lia.
        -- intros i w Hi. rewrite list_lookup_fmap in Hi.
           destruct (l !! i) as [w'|] eqn:Hw; [|done].
           simpl in Hi. assert (w' = w) as -> by congruence.
           specialize (Hshift i w Hw).
           replace (position ChunkSize _ (Z.of_nat i))
             with (position ChunkSize m (Z.of_nat (S i)))
             by (unfold position; simpl; lia).
           revert Hshift. unfold slot_at. simpl.
           destruct (chunks m !! Z.to_nat
                       (position ChunkSize m (Z.of_nat (S i)) / ChunkSize))
             as [h0|] eqn:Hh0; [|done].
           rewrite lookup_delete_ne; [done|].
           apply not_eq_sym. eapply Hother; [|exact Hh0].
           assert (front_chunk_index m + 1
                   <= position ChunkSize m (Z.of_nat (S i)) / ChunkSize).
           { apply Z.div_le_lower_bound; [lia|]. unfold position. lia. }
           lia.
    + done.
    + lia.
    + intros _. exists h. by split_and!.
  - eexists. split; [reflexivity|]. simpl. split_and!.
    + split.
      * simpl. lia.
      * unfold layout. split_and!.
        -- destruct Hwf. split; simpl; try done; lia.
        -- rewrite length_fmap. unfold position, chunks_size in *. simpl. lia.
        -- intros i w Hi. rewrite list_lookup_fmap in Hi.
           destruct (l !! i) as [w'|] eqn:Hw; [|done].
           simpl in Hi. assert (w' = w) as -> by congruence.
           specialize (Hshift i w Hw).
           replace (position ChunkSize _ (Z.of_nat i))
             with (position ChunkSize m (Z.of_nat (S i)))
             by (unfold position; simpl; lia).
           exact Hshift.
    + done.
    + done.
    + lia.
Qed.

(** X7. On a well-formed container the destructor is sound exactly when
    no front chunk has been released. With [front_chunk_index = 0] it
    returns and has deleted every array of [chunks], each once, and nothing
    else; with [front_chunk_index > 0] its first [delete[]] is of an array
    already deleted. *)
Theorem destroy_well_formed m :
  well_formed ChunkSize m →
  (front_chunk_index m = 0 →
     ∃ m', destroy m = Ret tt m'
           ∧ (∀ h, h ∈ chunks m → heap m' !! h = None)
           ∧ (∀ h, h ∉ chunks m → heap m' !! h = heap m !! h))
  ∧ (0 < front_chunk_index m →
     ∃ h, chunks m !! O = Some h ∧ destroy m = Undefined (double_free h)).
Proof.
  intros Hwf. split.
  - intros Hfront.
    destruct (for_each_free_chunk (chunks m) m (wf_nodup _ _ Hwf))
      as (m' & Hrun & _ & _ & _ & _ & _ & Hgone & Hkept).
    { intros h [k Hk]%list_elem_of_lookup.
      destruct (wf_live _ _ Hwf k h) as (c & Hc & _); [lia|done|].
      by rewrite Hc. }
    exists m'. by split_and!.
  - intros Hfront. pose proof (wf_front _ _ Hwf) as Hf.
    destruct (chunks m) as [|h cs] eqn:Hcs.
    { unfold chunks_size in Hf. rewrite Hcs in Hf. simpl in Hf. lia. }
    exists h. split; [done|].
    unfold destroy. rewrite bind_gets, Hcs. simpl.
    unfold bind, free_chunk.
    rewrite (wf_dead _ _ Hwf O h); [done|simpl; lia|by rewrite Hcs].
Qed.

End Sequences.

(** ** Shifting elements *)

Section Shifting.

Context {T : Type}.
Variable value_init : T.
Variable default_init : option T.
Variable ChunkSize : Z.
Variable NDEBUG : bool.

Implicit Types m : machine (T:=T).
Implicit Types L : list (option T).
Implicit Types l : list T.

Hypothesis ChunkSize_pos : 0 < ChunkSize.

Lemma layout_set_total_size m z L :
  layout ChunkSize m L → layout ChunkSize (set_total_size z m) L.
Proof.
  intros ([] & Hfit & Hel). unfold layout. split_and!; [by split|done..].
Qed.

Lemma layout_index_small m L (i : nat) :
  layout ChunkSize m L → (i <= length L)%nat →
  Z.of_nat i < size_type_modulus.
Proof.
  intros (Hwf & Hfit & _) Hi. pose proof (wf_start _ _ Hwf).
  pose proof (wf_front _ _ Hwf). pose proof (wf_bound _ _ Hwf).
  unfold position in Hfit. nia.
Qed.

(** The loop [for (i = lo; i < lo + k; ++i) a[i] = a[i + 1]]. *)
Lemma shift_left_loop (k : nat) : ∀ (i : nat) m L,
  layout ChunkSize m L →
  NDEBUG = true ∨ Z.of_nat (i + k) < total_size m →
  (i + k < length L)%nat →
  (∀ j, (i < j <= i + k)%nat → ∃ v, L !! j = Some (Some v)) →
  ∃ m' L',
    for_up k (Z.of_nat i)
      (λ i, move_slot ChunkSize NDEBUG i (wrap (i + 1))) m = Ret tt m'
    ∧ same_bookkeeping m m'
    ∧ layout ChunkSize m' L'
    ∧ length L' = length L
    ∧ ∀ j, L' !! j = if decide (i <= j < i + k)%nat then L !! S j else L !! j.
Proof.
  induction k as [|k IH]; intros i m L HL Hassert Hlen Hsrc.
  - exists m, L. split_and!; try done.
    intros j. case_decide; [lia|done].
  - destruct (Hsrc (S i)) as [v Hv]; [lia|].
    pose proof (layout_index_small m L (S i) HL ltac:(lia)) as Hsmall.
    destruct (move_slot_spec ChunkSize NDEBUG ChunkSize_pos m L i (S i) v HL Hv)
      as (m1 & Hmove & Hsame1 & HL1).
    { destruct Hassert as [?|?]; [by left|right; lia]. }
    { pose proof (layout_position_bounds ChunkSize m L i HL ltac:(lia)). lia. }
    destruct (IH (S i) m1 (<[i := Some v]> L) HL1)
      as (m' & L' & Hloop & Hsame & HL' & Hlen' & Hlook).
    { destruct Hsame1 as (_ & _ & -> & _). destruct Hassert as [?|?];
        [by left|right; lia]. }
    { rewrite length_insert. lia. }
    { intros j Hj. rewrite list_lookup_insert_ne by lia. apply Hsrc. lia. }
    exists m', L'. split_and!.
    + simpl. rewrite (wrap_small (Z.of_nat i + 1)) by lia.
      replace (Z.of_nat i + 1) with (Z.of_nat (S i)) by lia.
      by rewrite (bind_ret _ _ _ _ _ Hmove).
    + by eapply same_bookkeeping_trans.
    + done.
    + by rewrite Hlen', length_insert.
    + intros j. rewrite Hlook.
      destruct (decide (j = i)) as [->|Hne].
      * rewrite decide_False by lia. rewrite decide_True by lia.
        rewrite list_lookup_insert_eq by lia. done.
      * repeat case_decide; try lia;
          by rewrite list_lookup_insert_ne by lia.
Qed.


Lemma erase_spec m l (pos : nat) :
  represents ChunkSize m l → (pos < length l)%nat →
  ∃ m', erase ChunkSize NDEBUG (Z.of_nat pos) m = Ret tt m'
        ∧ represents ChunkSize m' (delete pos l)
        ∧ chunks m' = chunks m
        ∧ start_index m' = start_index m
        ∧ front_chunk_index m' = front_chunk_index m.
Proof.
  intros [Hsize HL] Hpos.
  pose proof (layout_index_small m _ (length l) HL
                ltac:(by rewrite length_fmap)) as Hsmall.
  destruct (shift_left_loop (length l - 1 - pos) pos m (Some <$> l) HL)
    as (m1 & L' & Hloop & Hsame & HL' & Hlen' & Hlook).
  { right. lia. }
  { rewrite length_fmap. lia. }
  { intros j Hj. destruct (lookup_lt_is_Some_2 l j) as [v Hv]; [lia|].
    exists v. by rewrite list_lookup_fmap, Hv. }
  exists (set_total_size (total_size m - 1) m1).
  pose proof Hsame as (Hc & Hnx & Ht & Hs & Hf).
  split_and!; try done.
  - unfold erase. rewrite bind_gets.
    erewrite bind_ret by (apply assert_pass; right; apply Z.ltb_lt; lia).
    rewrite (wrap_small (total_size m - 1)) by lia.
    replace (Z.to_nat (total_size m - 1 - Z.of_nat pos))
      with (length l - 1 - pos)%nat by lia.
    by rewrite (bind_ret _ _ _ _ _ Hloop).
  - split.
    + simpl. rewrite length_delete by (by apply lookup_lt_is_Some_2). lia.
    + apply layout_set_total_size.
      apply (layout_weaken ChunkSize m1 L'); [done| |].
      * destruct HL' as (_ & Hfit & _). rewrite length_fmap.
        rewrite Hlen', length_fmap in Hfit.
        rewrite length_delete by (by apply lookup_lt_is_Some_2).
        unfold position in *. lia.
      * intros j w Hj. rewrite Hlook.
        rewrite list_lookup_fmap in Hj.
        destruct (decide (j < pos)%nat) as [Hlt|Hge].
        -- rewrite list_lookup_delete_lt in Hj by done.
           rewrite decide_False by lia. by rewrite list_lookup_fmap.
        -- rewrite list_lookup_delete_ge in Hj by lia.
           assert (S j < length l)%nat.
           { destruct (l !! S j) eqn:E; [by eapply lookup_lt_Some|done]. }
           rewrite decide_True by lia. by rewrite list_lookup_fmap.
Qed.

(** X8. [erase(pos)] with [pos < size()] on a container that holds [l]:
    it returns and the container holds [l] without its element [pos]; no
    chunk is allocated or released and the offsets stay. *)
Theorem erase_represents m l (pos : nat) :
  represents ChunkSize m l → (pos < length l)%nat →
  ∃ m', erase ChunkSize NDEBUG (Z.of_nat pos) m = Ret tt m'
        ∧ represents ChunkSize m' (delete pos l)
        ∧ chunks m' = chunks m
        ∧ start_index m' = start_index m
        ∧ front_chunk_index m' = front_chunk_index m.
Proof. apply erase_spec. Qed.

End Shifting.

(** ** Insertion *)

Section Insertion.

Context {T : Type}.
Variable value_init : T.
Variable default_init : option T.
Variable ChunkSize : Z.
Variable NDEBUG : bool.

Implicit Types m : machine (T:=T).
Implicit Types L : list (option T).
Implicit Types l : list T.

Hypothesis ChunkSize_pos : 0 < ChunkSize.

(** Where the elements of the sequence with [v] inserted at [pos] come
    from. *)
Lemma lookup_inserted l (pos : nat) (v : T) (j : nat) :
  (pos <= length l)%nat →
  (take pos l ++ v :: drop pos l) !! j
  = if decide (j < pos)%nat then l !! j
    else if decide (j = pos) then Some v else l !! pred j.
Proof.
  intros Hpos. case_decide as Hlt.
  - rewrite lookup_app_l by (rewrite length_take; lia).
    by rewrite lookup_take_lt.
  - rewrite lookup_app_r by (rewrite length_take; lia).
    rewrite length_take, Nat.min_l by lia.
    case_decide as Heq.
    + subst. by rewrite Nat.sub_diag.
    + destruct (j - pos)%nat as [|d] eqn:Hd; [lia|]. simpl.
      rewrite lookup_drop. f_equal. lia.
Qed.

Lemma length_inserted l (pos : nat) (v : T) :
  (pos <= length l)%nat →
  length (take pos l ++ v :: drop pos l) = S (length l).
Proof.
  intros Hpos. rewrite length_app, length_take. simpl. rewrite length_drop. lia.
Qed.

(** The call of [ensure_capacity_for(start_index + total_size)] that opens
    [insert] and [push_back]. *)
Lemma ensure_back_slot (fuel : nat) m L :
  layout ChunkSize m L → total_size m = Z.of_nat (length L) →
  (1 <= fuel)%nat →
  start_index m + total_size m + ChunkSize < size_type_modulus →
  ∃ m1, ensure_capacity_for default_init ChunkSize fuel
          (start_index m + total_size m) m = Ret tt m1
        ∧ layout ChunkSize m1 L
        ∧ chunks_size m <= chunks_size m1
        ∧ start_index m + total_size m < chunks_size m1 * ChunkSize
        ∧ total_size m1 = total_size m
        ∧ start_index m1 = start_index m
        ∧ front_chunk_index m1 = front_chunk_index m.
Proof.
  intros (Hwf & Hfit & Hel) Hsize Hfuel Hbound.
  pose proof (wf_start _ _ Hwf). pose proof (wf_front _ _ Hwf).
  pose proof (wf_bound _ _ Hwf). pose proof (chunks_size_nonneg m).
  assert (Hdiv : (start_index m + total_size m) / ChunkSize <= chunks_size m).
  { apply Z.div_le_upper_bound; [lia|]. unfold position in Hfit. nia. }
  destruct (ensure_capacity_for_wf default_init ChunkSize ChunkSize_pos fuel m
              (start_index m + total_size m) Hwf)
    as (m1 & Hrun & Hwf1 & Hsize1 & Htot1 & Hst1 & Hfr1 & Hslot1); [lia..|].
  pose proof (Z.mul_succ_div_gt (start_index m + total_size m) ChunkSize
                ChunkSize_pos).
  exists m1. split_and!; try done; [|lia|nia].
  unfold layout. split_and!; [done| |].
  - unfold position in *. rewrite Hst1, Hfr1. nia.
  - intros i w Hi. pose proof (lookup_lt_Some _ _ _ Hi).
    replace (position ChunkSize m1 (Z.of_nat i))
      with (position ChunkSize m (Z.of_nat i))
      by (unfold position; by rewrite Hst1, Hfr1).
    rewrite Hslot1; [by apply Hel|]. unfold position in *. nia.
Qed.


(** The steps every call of [insert] starts with: the bound check and
    [ensure_capacity_for(start_index + total_size)]. *)
Ltac insert_entry Hrun :=
  unfold insert; rewrite bind_gets;
  erewrite bind_ret by (apply assert_pass; right; apply Z.leb_le; lia);
  rewrite bind_gets;
  rewrite (wrap_small (start_index _ + total_size _)) by lia;
  rewrite (bind_ret _ _ _ _ _ Hrun).





(** X10. With [assert] active, [insert(pos, value)] strictly inside the
    back half ([size() / 2 <= pos < size()], [pos > 0]) of a container that
    holds a sequence never returns, whatever [value] refers to: the shift
    loop starts by taking [operator[]] of [total_size] itself, and
    [assert(i < total_size)] ends the process. *)
Theorem insert_back_half_aborts (fuel : nat) m l (pos : nat) value :
  NDEBUG = false →
  represents ChunkSize m l →
  (1 <= fuel)%nat →
  start_index m + total_size m + ChunkSize < size_type_modulus →
  (0 < pos < length l)%nat →
  total_size m / 2 <= Z.of_nat pos →
  insert default_init ChunkSize NDEBUG fuel (Z.of_nat pos) value m
  = Abort "i < total_size".
Proof.
  intros Hnd [Hsize HL] Hfuel Hbound Hpos Hhalf.
  destruct (ensure_back_slot fuel m _ HL) as
    (m1 & Hrun & HL1 & Hgrow & Hback & Htot1 & Hst1 & Hfr1);
    [by rewrite length_fmap|done..|].
  pose proof (layout_index_small ChunkSize ChunkSize_pos m _ (length l) HL
                ltac:(by rewrite length_fmap)).
  destruct HL as (Hwf & _). pose proof (wf_start _ _ Hwf).
  insert_entry Hrun.
  assert ((Z.of_nat pos =? 0) = false) as -> by lia.
  assert ((Z.of_nat pos =? total_size m) = false) as -> by lia.
  assert ((Z.of_nat pos <? total_size m / 2) = false) as -> by lia.
  cbv iota.
  destruct (Z.to_nat (total_size m - Z.of_nat pos)) as [|k] eqn:Hk; [lia|].
  cbn [for_down]. unfold move_slot.
  rewrite (wrap_small (total_size m - 1)) by lia.
  destruct (subscript_spec ChunkSize NDEBUG ChunkSize_pos m1 (total_size m - 1))
    as (h & Hh & Hsub).
  { by destruct HL1. }
  { lia. }
  { right. lia. }
  { pose proof (layout_position_bounds ChunkSize m1 _ (length l - 1) HL1
                  ltac:(rewrite length_fmap; lia)) as Hb.
    replace (Z.of_nat (length l - 1)) with (total_size m - 1) in Hb by lia.
    lia. }
  rewrite !bind_assoc, (bind_ret _ _ _ _ _ Hsub).
  unfold subscript at 1. rewrite !bind_assoc, bind_gets.
  unfold assert_. rewrite Hnd, Htot1, Z.ltb_irrefl. reflexivity.
Qed.



End Insertion.

(** ** Insert then erase *)

Section RoundTrip.

Context {T : Type}.
Variable default_init : option T.
Variable ChunkSize : Z.
Variable NDEBUG : bool.

Implicit Types m : machine (T:=T).
Implicit Types l : list T.

Hypothesis ChunkSize_pos : 0 < ChunkSize.

Lemma delete_inserted l (pos : nat) (v : T) :
  (pos <= length l)%nat → delete pos (take pos l ++ v :: drop pos l) = l.
Proof.
  intros Hpos.
  rewrite <- (length_take_le l pos) at 1 by done.
  by rewrite delete_middle, take_drop.
Qed.



End RoundTrip.

(** ** Changing the size and the capacity *)

Section Sizing.

Context {T : Type}.
Variable value_init : T.
Variable default_init : option T.
Variable ChunkSize : Z.
Variable NDEBUG : bool.

Implicit Types m : machine (T:=T).
Implicit Types L : list (option T).
Implicit Types l : list T.

Hypothesis ChunkSize_pos : 0 < ChunkSize.

(** [resize(k)] with [k < size()] on a container that holds [l]: it
    returns, the container holds the first [k] elements of [l], and no
    chunk is released: only [total_size] changes. *)
Lemma resize_shrink_spec (fuel : nat) m l (k : nat) :
  represents ChunkSize m l → (k < length l)%nat →
  resize value_init default_init ChunkSize fuel (Z.of_nat k) m
  = Ret tt (set_total_size (Z.of_nat k) m)
  ∧ represents ChunkSize (set_total_size (Z.of_nat k) m) (take k l).
Proof.
  intros [Hsize HL] Hk. split.
  - apply resize_shrink. lia.
  - split; [simpl; rewrite length_take; lia|].
    apply layout_set_total_size.
    apply (layout_weaken ChunkSize m (Some <$> l)); [done| |].
    + destruct HL as (_ & Hfit & _). rewrite length_fmap in *.
      rewrite length_take. unfold position in *. lia.
    + intros i w Hi. rewrite list_lookup_fmap in *.
      destruct (take k l !! i) as [x|] eqn:Hx; [|done].
      apply lookup_take_Some in Hx as [-> _]. done.
Qed.

(** The fill loop of [resize] on a container whose first element sits in
    the first slot of [chunks[0]]. *)
Lemma fill_loop (k : nat) : ∀ (i : nat) m L,
  layout ChunkSize m L →
  start_index m = 0 → front_chunk_index m = 0 →
  (i + k <= length L)%nat →
  ∃ m' L',
    for_up k (Z.of_nat i)
      (λ i, let* h := chunks_at (chunk_index ChunkSize i) in
            store (h, within_chunk_index ChunkSize i) value_init) m
    = Ret tt m'
    ∧ same_bookkeeping m m'
    ∧ layout ChunkSize m' L'
    ∧ length L' = length L
    ∧ ∀ j, L' !! j = if decide (i <= j < i + k)%nat
                     then Some (Some value_init) else L !! j.
Proof.
  induction k as [|k IH]; intros i m L HL Hs Hf Hlen.
  - exists m, L. split_and!; try done.
    intros j. case_decide; [lia|done].
  - pose proof HL as (Hwf & Hfit & Hel).
    assert (Hpos : ∀ j, position ChunkSize m j = j)
      by (intros j; unfold position; rewrite Hs, Hf; lia).
    pose proof (layout_position_bounds ChunkSize m L i HL ltac:(lia)) as Hb.
    rewrite Hpos, Hf in Hb.
    destruct (chunk_lookup ChunkSize ChunkSize_pos m (Z.of_nat i)) as [h Hh];
      [lia|].
    destruct (store_spec ChunkSize ChunkSize_pos m (Z.of_nat i) h value_init)
      as (m1 & Hst & Hc & Hn & Ht & Hs1 & Hf1 & Hwf1 & Hnew & Hold);
      [done|rewrite Hf; lia|done|].
    assert (Hsame1 : same_bookkeeping m m1) by (by repeat split).
    assert (HL1 : layout ChunkSize m1 (<[i := Some value_init]> L)).
    { apply (layout_assign ChunkSize ChunkSize_pos m m1 L i value_init);
        rewrite ?Hpos; done. }
    destruct (IH (S i) m1 _ HL1) as (m' & L' & Hloop & Hsame & HL' & Hlen' & Hlook);
      [congruence..|rewrite length_insert; lia|].
    exists m', L'. split_and!.
    + cbn [for_up]. rewrite bind_assoc.
      unfold chunks_at at 1. unfold bind at 1. unfold chunk_index at 1.
      rewrite Hh. unfold within_chunk_index at 1.
      rewrite (bind_ret _ _ _ _ _ Hst).
      by replace (Z.of_nat i + 1) with (Z.of_nat (S i)) by lia.
    + by eapply same_bookkeeping_trans.
    + done.
    + by rewrite Hlen', length_insert.
    + intros j. rewrite Hlook.
      destruct (decide (j = i)) as [->|Hne].
      * rewrite decide_False by lia. rewrite decide_True by lia.
        by rewrite list_lookup_insert_eq by lia.
      * repeat case_decide; try lia; try done.
        by rewrite list_lookup_insert_ne by lia.
Qed.

(** [resize(n)] with [n >= size()], [n >= 1], on a container that
    holds [l] and never had its front moved ([start_index] and
    [front_chunk_index] are 0): it returns and the container holds [l]
    followed by [n - size()] copies of [T{}]. *)
Lemma resize_grow_spec (fuel : nat) m l (k : nat) :
  represents ChunkSize m l →
  start_index m = 0 → front_chunk_index m = 0 →
  (1 <= length l + k)%nat →
  Z.of_nat (length l + k) + ChunkSize <= size_type_modulus →
  Z.of_nat (length l + k) / ChunkSize + 1 <= Z.of_nat fuel →
  ∃ m', resize value_init default_init ChunkSize fuel
          (Z.of_nat (length l + k)) m = Ret tt m'
        ∧ represents ChunkSize m' (l ++ replicate k value_init)
        ∧ start_index m' = 0 ∧ front_chunk_index m' = 0.
Proof.
  intros [Hsize HL] Hs Hf Hone Hbound Hfuel.
  pose proof HL as (Hwf & Hfit & Hel).
  pose proof (chunks_size_nonneg m).
  set (n' := Z.of_nat (length l + k)) in *.
  pose proof (Z.div_le_mono (n' - 1) n' ChunkSize ChunkSize_pos ltac:(lia)).
  destruct (ensure_capacity_for_wf default_init ChunkSize ChunkSize_pos fuel m
              (n' - 1) Hwf)
    as (m1 & Hrun & Hwf1 & Hsize1 & Htot1 & Hst1 & Hfr1 & Hslot1); [lia..|].
  pose proof (Z.mul_succ_div_gt (n' - 1) ChunkSize ChunkSize_pos) as Hup.
  assert (HL1 : layout ChunkSize m1 ((Some <$> l) ++ replicate k None)).
  { unfold layout. split_and!; [done| |].
    - rewrite length_app, length_fmap, length_replicate.
      unfold position. rewrite Hst1, Hfr1, Hs, Hf. fold n'. nia.
    - intros j w Hj. apply lookup_app_Some in Hj as [Hj|[_ Hj]].
      + pose proof (lookup_lt_Some _ _ _ Hj) as Hlt.
        rewrite length_fmap in *.
        replace (position ChunkSize m1 (Z.of_nat j))
          with (position ChunkSize m (Z.of_nat j))
          by (unfold position; by rewrite Hst1, Hfr1).
        rewrite Hslot1; [by apply Hel|].
        unfold position in *. rewrite Hs, Hf in *. lia.
      + by apply lookup_replicate in Hj as [? _]. }
  destruct (fill_loop k (length l) m1 _ HL1)
    as (m2 & L2 & Hloop & Hsame & HL2 & Hlen2 & Hlook2);
    [congruence..|rewrite length_app, length_fmap, length_replicate; lia|].
  pose proof Hsame as (Hc & Hnx & Ht & Hs2 & Hf2).
  exists (set_total_size n' m2). split_and!; [| |simpl; congruence..].
  - unfold resize. rewrite bind_gets.
    assert ((n' <? total_size m) = false) as -> by lia.
    rewrite bind_gets, Hs, Z.add_0_l. rewrite (wrap_small n') by lia.
    rewrite (wrap_small (n' - 1)) by lia.
    rewrite (bind_ret _ _ _ _ _ Hrun).
    replace (Z.to_nat (n' - total_size m)) with k by lia.
    rewrite Hsize. by rewrite (bind_ret _ _ _ _ _ Hloop).
  - split; [simpl; rewrite length_app, length_replicate; lia|].
    apply layout_set_total_size.
    apply (layout_weaken ChunkSize m2 L2); [done| |].
    + destruct HL2 as (_ & Hfit2 & _).
      rewrite Hlen2, length_app, length_fmap, length_replicate in Hfit2.
      by rewrite length_fmap, length_app, length_replicate.
    + intros j w Hj. rewrite Hlook2. rewrite list_lookup_fmap in Hj.
      destruct (decide (j < length l)%nat) as [Hlt|Hge].
      * rewrite decide_False by lia.
        rewrite lookup_app_l in Hj by done.
        rewrite lookup_app_l by (by rewrite length_fmap).
        by rewrite list_lookup_fmap.
      * rewrite lookup_app_r in Hj by lia.
        destruct (replicate k value_init !! (j - length l)%nat) as [x|] eqn:Hx;
          [|done].
        apply lookup_replicate in Hx as [-> Hlt].
        rewrite decide_True by lia. done.
Qed.

(** X13. [resize(n)] on a container that holds [l]. With [n < size()]
    it returns, only [total_size] changes (no chunk is released) and the
    container holds the first [n] elements of [l]. With [n >= size()],
    [n >= 1], on a container whose front never moved ([start_index] and
    [front_chunk_index] are 0), it returns and the container holds [l]
    followed by [n - size()] copies of [T{}]. *)
Theorem resize_represents (fuel : nat) m l :
  represents ChunkSize m l →
  (∀ k : nat, (k < length l)%nat →
     resize value_init default_init ChunkSize fuel (Z.of_nat k) m
     = Ret tt (set_total_size (Z.of_nat k) m)
     ∧ represents ChunkSize (set_total_size (Z.of_nat k) m) (take k l))
  ∧ (∀ k : nat,
       start_index m = 0 → front_chunk_index m = 0 →
       (1 <= length l + k)%nat →
       Z.of_nat (length l + k) + ChunkSize <= size_type_modulus →
       Z.of_nat (length l + k) / ChunkSize + 1 <= Z.of_nat fuel →
       ∃ m', resize value_init default_init ChunkSize fuel
               (Z.of_nat (length l + k)) m = Ret tt m'
             ∧ represents ChunkSize m' (l ++ replicate k value_init)
             ∧ start_index m' = 0 ∧ front_chunk_index m' = 0).
Proof.
  intros Hrep. split; intros k.
  - by apply resize_shrink_spec.
  - by apply resize_grow_spec.
Qed.

(** X14. [reserve(n)] on a container that holds [l]: it returns, the
    container still holds [l], [capacity()] has not gone down, and it is at
    least [n] when no front chunk was released. *)
Theorem reserve_represents (fuel : nat) m l n :
  represents ChunkSize m l →
  0 <= n → start_index m + n + ChunkSize <= size_type_modulus →
  (start_index m + n) / ChunkSize + 1 <= Z.of_nat fuel →
  ∃ m', reserve default_init ChunkSize fuel n m = Ret tt m'
        ∧ represents ChunkSize m' l
        ∧ capacity ChunkSize m <= capacity ChunkSize m'
        ∧ (front_chunk_index m = 0 → n <= capacity ChunkSize m').
Proof.
  intros Hrep Hn Hbound Hfuel.
  destruct (capacity_spec ChunkSize ChunkSize_pos m l Hrep) as [Hcap Hle].
  pose proof Hrep as [Hsize (Hwf & Hfit & Hel)].
  pose proof (wf_start _ _ Hwf). pose proof (wf_front _ _ Hwf).
  pose proof (chunks_size_nonneg m).
  unfold reserve. rewrite bind_gets.
  destruct (Z.ltb_spec (capacity ChunkSize m) n) as [Hlt|Hge].
  - rewrite bind_gets.
    rewrite (wrap_small (start_index m + n)) by lia.
    rewrite (wrap_small (start_index m + n - 1)) by (unfold size in *; lia).
    pose proof (Z.div_le_mono (start_index m + n - 1) (start_index m + n)
                  ChunkSize ChunkSize_pos ltac:(lia)).
    destruct (ensure_capacity_for_wf default_init ChunkSize ChunkSize_pos fuel m
                (start_index m + n - 1) Hwf)
      as (m1 & Hrun & Hwf1 & Hsize1 & Htot1 & Hst1 & Hfr1 & Hslot1);
      [unfold size in *; lia|lia..|].
    pose proof (Z.mul_succ_div_gt (start_index m + n - 1) ChunkSize
                  ChunkSize_pos) as Hup.
    assert (Hrep1 : represents ChunkSize m1 l).
    { split; [congruence|]. unfold layout. split_and!; [done| |].
      - unfold position in *. rewrite Hst1, Hfr1. nia.
      - intros j w Hj. pose proof (lookup_lt_Some _ _ _ Hj).
        replace (position ChunkSize m1 (Z.of_nat j))
          with (position ChunkSize m (Z.of_nat j))
          by (unfold position; by rewrite Hst1, Hfr1).
        rewrite Hslot1; [by apply Hel|]. unfold position in *. nia. }
    destruct (capacity_spec ChunkSize ChunkSize_pos m1 l Hrep1)
      as [Hcap1 _].
    exists m1. split_and!; try done.
    + rewrite Hcap, Hcap1, Hst1, Hfr1. nia.
    + intros Hz. rewrite Hcap1, Hst1, Hfr1, Hz. nia.
  - exists m. split_and!; try done; lia.
Qed.

End Sizing.

Section Shrinking.

Context {T : Type}.
Variable ChunkSize : Z.
Variable NDEBUG : bool.

Implicit Types m : machine (T:=T).
Implicit Types l : list T.

Hypothesis ChunkSize_pos : 0 < ChunkSize.

(** One iteration of the loop of [shrink_to_fit] where the last chunk is a
    live one: its array is deleted and its pointer popped. *)
Lemma pop_chunk m :
  well_formed ChunkSize m →
  front_chunk_index m < chunks_size m →
  ∃ m' cs h,
    chunks m = cs ++ [h]
    ∧ (let* h := chunks_back in
       free_chunk h ;; modify (set_chunks (λ cs, removelast cs))) m = Ret tt m'
    ∧ well_formed ChunkSize m'
    ∧ chunks m' = cs
    ∧ heap m' = delete h (heap m)
    ∧ total_size m' = total_size m
    ∧ start_index m' = start_index m
    ∧ front_chunk_index m' = front_chunk_index m
    ∧ (∀ p, 0 <= p < (chunks_size m - 1) * ChunkSize →
         slot_at ChunkSize m' p = slot_at ChunkSize m p).
Proof.
  intros Hwf Hlt. pose proof (wf_front _ _ Hwf) as Hf.
  destruct (exists_last (l := chunks m)) as (cs & h & Hcs).
  { intros Hnil. unfold chunks_size in Hlt. rewrite Hnil in Hlt.
    simpl in Hlt. lia. }
  assert (Hlen : chunks_size m = Z.of_nat (length cs) + 1).
  { unfold chunks_size. rewrite Hcs, length_app. simpl. lia. }
  destruct (wf_live _ _ Hwf (length cs) h) as (c & Hc & _).
  { lia. }
  { by rewrite Hcs, lookup_app_r, Nat.sub_diag by done. }
  assert (Hnotin : h ∉ cs).
  { pose proof (wf_nodup _ _ Hwf) as Hnd. rewrite Hcs in Hnd.
    apply NoDup_app in Hnd as (_ & Hdisj & _). intros Hin.
    apply (Hdisj h Hin). by apply list_elem_of_singleton. }
  exists (set_chunks (λ _, cs) (set_heap (λ hp, delete h hp) m)), cs, h.
  split; [done|]. split.
  { unfold chunks_back, free_chunk, bind, modify. rewrite Hcs, last_snoc.
    cbn [heap set_heap chunks]. rewrite Hc.
    unfold set_chunks, set_heap. cbn [heap chunks next_handle total_size
      start_index front_chunk_index]. by rewrite Hcs, removelast_last. }
  simpl.
  destruct Hwf as [Hs ? Hb Hnd Hfr Hlive Hdead]. rewrite Hcs in *.
  split_and!; try done.
  - split; simpl; try done.
    + unfold chunks_size in *. simpl in *. lia.
    + unfold chunks_size in *. simpl in *. nia.
    + by apply NoDup_app in Hnd as (? & _).
    + intros h0 Hh0. apply Hfr, elem_of_app. by left.
    + intros k h0 Hk Hh0.
      rewrite lookup_delete_ne
        by (intros <-; apply Hnotin; by eapply list_elem_of_lookup_2).
      apply (Hlive k); [done|]. by apply lookup_app_l_Some.
    + intros k h0 Hk Hh0.
      rewrite lookup_delete_ne
        by (intros <-; apply Hnotin; by eapply list_elem_of_lookup_2).
      apply (Hdead k); [done|]. by apply lookup_app_l_Some.
  - intros p Hp. unfold slot_at. simpl. rewrite Hcs.
    rewrite Hlen in Hp.
    pose proof (div_range ChunkSize ChunkSize_pos p (Z.of_nat (length cs))
                  ltac:(lia)) as Hdiv.
    rewrite lookup_app_l by lia.
    destruct (cs !! Z.to_nat (p / ChunkSize)) as [h0|] eqn:Hh0; [|done].
    rewrite lookup_delete_ne; [done|].
    intros <-. apply Hnotin. by eapply list_elem_of_lookup_2.
Qed.

Lemma shrink_to_fit_loop_spec (n : nat) : ∀ m r,
  well_formed ChunkSize m →
  front_chunk_index m = 0 → 0 <= r →
  chunks_size m - r <= Z.of_nat n →
  ∃ m', shrink_to_fit_loop n r m = Ret tt m'
        ∧ well_formed ChunkSize m'
        ∧ chunks m' = take (Z.to_nat r) (chunks m)
        ∧ total_size m' = total_size m
        ∧ start_index m' = start_index m
        ∧ front_chunk_index m' = front_chunk_index m
        ∧ (∀ p, 0 <= p < Z.min r (chunks_size m) * ChunkSize →
             slot_at ChunkSize m' p = slot_at ChunkSize m p)
        ∧ (∀ h, h ∈ drop (Z.to_nat r) (chunks m) → heap m' !! h = None)
        ∧ (∀ h, h ∉ drop (Z.to_nat r) (chunks m) →
             heap m' !! h = heap m !! h).
Proof.
  induction n as [|n IH]; intros m r Hwf Hf Hr Hfuel;
    pose proof (chunks_size_nonneg m); simpl;
    destruct (Z.ltb_spec r (chunks_size m)) as [Hlt|Hge]; try lia.
  - exists m. unfold chunks_size in *.
    rewrite take_ge, drop_ge by lia. split_and!; try done.
    intros h Hh. by apply elem_of_nil in Hh.
  - destruct (pop_chunk m Hwf) as
      (m1 & cs & h & Hcs & Hpop & Hwf1 & Hcs1 & Hheap1 & Ht1 & Hs1 & Hf1 & Hslot1);
      [lia|].
    assert (Hlen : chunks_size m = Z.of_nat (length cs) + 1).
    { unfold chunks_size. rewrite Hcs, length_app. simpl. lia. }
    assert (Hlen1 : chunks_size m1 = Z.of_nat (length cs)).
    { unfold chunks_size. by rewrite Hcs1. }
    destruct (IH m1 r Hwf1) as
      (m' & Hloop & Hwf' & Hcs' & Ht' & Hs' & Hf' & Hslot' & Hgone & Hkept);
      [congruence|lia|lia|].
    assert (Hnotin : h ∉ cs).
    { pose proof (wf_nodup _ _ Hwf) as Hnd. rewrite Hcs in Hnd.
      apply NoDup_app in Hnd as (_ & Hdisj & _). intros Hin.
      apply (Hdisj h Hin). by apply list_elem_of_singleton. }
    exists m'. split_and!; try congruence.
    + revert Hpop. unfold bind.
      destruct (chunks_back m) as [h0 s0| | | |]; try done.
      destruct (free_chunk h0 s0) as [[] s1| | | |]; try done.
      unfold modify. intros [= <-]. exact Hloop.
    + rewrite Hcs', Hcs1, Hcs. by rewrite take_app_le by lia.
    + intros p Hp.
      rewrite (Z.min_l r (chunks_size m)) in Hp by lia.
      rewrite Hslot' by (rewrite (Z.min_l r (chunks_size m1)) by lia; lia).
      apply Hslot1. nia.
    + intros h0 Hh0. rewrite Hcs, drop_app_le in Hh0 by lia.
      apply elem_of_app in Hh0 as [Hh0| ->%list_elem_of_singleton].
      * apply Hgone. by rewrite Hcs1.
      * rewrite Hkept, Hheap1; [apply lookup_delete_eq|].
        rewrite Hcs1. intros Hin. apply Hnotin.
        by eapply subseteq_drop.
    + intros h0 Hh0. rewrite Hcs, drop_app_le in Hh0 by lia.
      apply not_elem_of_app in Hh0 as [Hh0 Hne].
      rewrite Hkept, Hheap1 by (by rewrite Hcs1).
      apply lookup_delete_ne. intros ->. apply Hne.
      by apply list_elem_of_singleton.
  - exists m. unfold chunks_size in *.
    rewrite take_ge, drop_ge by lia. split_and!; try done.
    intros h Hh. by apply elem_of_nil in Hh.
Qed.

(** X15. [shrink_to_fit()] on a container that holds [l] and has no
    released front chunk: it returns, the container still holds [l], and
    exactly the chunks beyond the first
    [ceil((start_index + size()) / ChunkSize)] have been deleted and
    popped. *)
Theorem shrink_to_fit_represents (fuel : nat) m l :
  represents ChunkSize m l →
  front_chunk_index m = 0 →
  chunks_size m <= Z.of_nat fuel →
  let required :=
    (start_index m + total_size m) / ChunkSize
    + (if (start_index m + total_size m) mod ChunkSize =? 0 then 0 else 1) in
  ∃ m', shrink_to_fit ChunkSize fuel m = Ret tt m'
        ∧ represents ChunkSize m' l
        ∧ chunks m' = take (Z.to_nat required) (chunks m)
        ∧ chunks_size m' <= required
        ∧ (∀ h, h ∈ drop (Z.to_nat required) (chunks m) → heap m' !! h = None)
        ∧ (∀ h, h ∉ drop (Z.to_nat required) (chunks m) →
             heap m' !! h = heap m !! h).
Proof.
  intros [Hsize HL] Hf Hfuel required.
  pose proof HL as (Hwf & Hfit & Hel). rewrite length_fmap in Hfit.
  pose proof (wf_start _ _ Hwf). pose proof (wf_bound _ _ Hwf).
  pose proof (chunks_size_nonneg m).
  set (e := start_index m + total_size m) in *.
  assert (He : 0 <= e <= chunks_size m * ChunkSize).
  { unfold position in Hfit. rewrite Hf in Hfit. lia. }
  pose proof (Z.div_mod e ChunkSize ltac:(lia)) as Hdm.
  pose proof (Z.mod_pos_bound e ChunkSize ChunkSize_pos) as Hmod.
  assert (Hreq : 0 <= required ∧ e <= required * ChunkSize
                 ∧ required * ChunkSize < e + ChunkSize).
  { unfold required. pose proof (Z.div_pos e ChunkSize ltac:(lia) ltac:(lia)).
    destruct (Z.eqb_spec (e mod ChunkSize) 0); nia. }
  destruct (shrink_to_fit_loop_spec fuel m required Hwf Hf)
    as (m' & Hloop & Hwf' & Hcs' & Ht' & Hs' & Hf' & Hslot' & Hgone & Hkept);
    [lia..|].
  assert (Hsz' : chunks_size m' = Z.min required (chunks_size m)).
  { unfold chunks_size. rewrite Hcs', length_take. lia. }
  exists m'. split_and!; try done; [| |lia].
  - unfold shrink_to_fit. rewrite !bind_gets. fold e.
    rewrite (wrap_small e) by nia.
    unfold chunk_index, within_chunk_index. fold required.
    rewrite (wrap_small required) by nia. exact Hloop.
  - split; [congruence|]. unfold layout. split_and!; [done| |].
    + rewrite length_fmap, Hsz'. unfold position in *.
      rewrite Hs', Hf', Hf, <- Hsize. fold e. nia.
    + intros j w Hj. pose proof (lookup_lt_Some _ _ _ Hj) as Hlt.
      rewrite length_fmap in Hlt.
      replace (position ChunkSize m' (Z.of_nat j))
        with (position ChunkSize m (Z.of_nat j))
        by (unfold position; by rewrite Hs', Hf').
      rewrite Hslot'; [by apply Hel|].
      unfold position. rewrite Hf. nia.
Qed.

End Shrinking.

(** ** Equality and iteration *)

Section Observing.

Context {T : Type}.
Variable ChunkSize : Z.
Variable NDEBUG : bool.
Variable T_ne : T → T → bool.

Implicit Types m : machine (T:=T).
Implicit Types l : list T.

Hypothesis ChunkSize_pos : 0 < ChunkSize.

Lemma equal_loop_spec (la : list T) : ∀ (lb pre pre' : list T) a b,
  (∀ x y, T_ne x y = false ↔ x = y) →
  layout ChunkSize a (Some <$> (pre ++ la)) →
  layout ChunkSize b (Some <$> (pre' ++ lb)) →
  total_size a = Z.of_nat (length (pre ++ la)) →
  total_size b = Z.of_nat (length (pre' ++ lb)) →
  length pre = length pre' → length la = length lb →
  ∃ c, equal_loop ChunkSize NDEBUG T_ne (length la) (Z.of_nat (length pre)) b a
       = Ret c a
       ∧ (c = true ↔ la = lb).
Proof.
  induction la as [|x la IH]; intros lb pre pre' a b Hne Ha Hb Hta Htb Hpre Hlen.
  - destruct lb; [|done]. by exists true.
  - destruct lb as [|y lb]; [done|]. simpl in Hlen. cbn [length equal_loop].
    assert (Hx : read ChunkSize NDEBUG (Z.of_nat (length pre)) a = Ret x a).
    { apply (read_spec ChunkSize NDEBUG ChunkSize_pos a _ (length pre) x Ha).
      - by rewrite list_lookup_fmap, lookup_app_r, Nat.sub_diag by done.
      - right. rewrite Hta, length_app. simpl. lia. }
    assert (Hy : read ChunkSize NDEBUG (Z.of_nat (length pre)) b = Ret y b).
    { rewrite Hpre.
      apply (read_spec ChunkSize NDEBUG ChunkSize_pos b _ (length pre') y Hb).
      - by rewrite list_lookup_fmap, lookup_app_r, Nat.sub_diag by done.
      - right. rewrite Htb, length_app. simpl. lia. }
    rewrite (bind_ret _ _ _ _ _ Hx).
    unfold on_other at 1. unfold bind at 1. rewrite Hy.
    destruct (T_ne x y) eqn:Hxy.
    + exists false. split; [done|]. split; [done|].
      intros [= -> _]. assert (T_ne y y = false) by (by apply Hne). congruence.
    + apply Hne in Hxy as ->.
      destruct (IH lb (pre ++ [y]) (pre' ++ [y]) a b Hne) as (c & Hc & Hiff).
      * by rewrite <- app_assoc.
      * by rewrite <- app_assoc.
      * by rewrite <- app_assoc.
      * by rewrite <- app_assoc.
      * rewrite !length_app. simpl. lia.
      * lia.
      * exists c. split.
        -- rewrite length_app in Hc. simpl in Hc.
           by replace (Z.of_nat (length pre) + 1)
             with (Z.of_nat (length pre + 1)) by lia.
        -- rewrite Hiff. split; [by intros ->|by intros [= ->]].
Qed.

(** X16. [operator==] on two containers that hold [la] and [lb], for an
    element type whose [operator!=] is the negation of equality: it returns
    [true] exactly when the two sequences are the same, whatever the chunk
    layout of either container. *)
Theorem equal_represents a b (la lb : list T) :
  (∀ x y, T_ne x y = false ↔ x = y) →
  represents ChunkSize a la → represents ChunkSize b lb →
  ∃ c, equal ChunkSize NDEBUG T_ne b a = Ret c a
       ∧ (c = true ↔ la = lb)
       ∧ not_equal ChunkSize NDEBUG T_ne b a = Ret (negb c) a.
Proof.
  intros Hne [Hta Ha] [Htb Hb].
  assert (∃ c, equal ChunkSize NDEBUG T_ne b a = Ret c a
               ∧ (c = true ↔ la = lb)) as (c & Hc & Hiff).
  { unfold equal. rewrite bind_gets.
    destruct (Z.eqb_spec (total_size a) (total_size b)) as [Heq|Hneq]; simpl.
    - rewrite Hta, Nat2Z.id.
      apply (equal_loop_spec la lb [] [] a b); try done. lia.
    - exists false. split; [done|]. split; [done|]. intros ->. congruence. }
  exists c. split_and!; try done.
  unfold not_equal. by rewrite (bind_ret _ _ _ _ _ Hc).
Qed.

Lemma forward_loop_spec (suffix : list T) : ∀ (pre : list T) (n : nat) this m,
  represents ChunkSize m (pre ++ suffix) →
  (length suffix <= n)%nat →
  forward_loop ChunkSize NDEBUG n
    (Iterator this (Z.of_nat (length pre)))
    (Iterator this (Z.of_nat (length (pre ++ suffix)))) m
  = Ret suffix m.
Proof.
  induction suffix as [|x suffix IH]; intros pre n this m Hrep Hn.
  - rewrite app_nil_r.
    destruct n; simpl; unfold iterator_ne; simpl; by rewrite Z.eqb_refl.
  - destruct n as [|n]; [simpl in Hn; lia|].
    pose proof Hrep as [Hsize HL].
    pose proof (layout_index_small ChunkSize ChunkSize_pos m _
                  (length (pre ++ x :: suffix)) HL
                  ltac:(by rewrite length_fmap)) as Hsmall.
    rewrite length_app in Hsmall. simpl in Hsmall.
    cbn [forward_loop]. unfold iterator_ne. cbn [index].
    assert ((Z.of_nat (length pre)
             =? Z.of_nat (length (pre ++ x :: suffix))) = false) as ->.
    { apply Z.eqb_neq. rewrite length_app. simpl. lia. }
    cbn [negb].
    assert (Hx : (let* r := iterator_deref ChunkSize NDEBUG
                              (Iterator this (Z.of_nat (length pre)))
                  in load r) m = Ret x m).
    { apply (read_spec ChunkSize NDEBUG ChunkSize_pos m _ (length pre) x HL).
      - by rewrite list_lookup_fmap, lookup_app_r, Nat.sub_diag by done.
      - right. rewrite Hsize, length_app. simpl. lia. }
    rewrite <- (bind_assoc (iterator_deref ChunkSize NDEBUG _) load).
    rewrite (bind_ret _ _ _ _ _ Hx).
    unfold iterator_increment. cbn [index parent].
    rewrite wrap_small by lia.
    replace (Z.of_nat (length pre) + 1) with (Z.of_nat (length (pre ++ [x])))
      by (rewrite length_app; simpl; lia).
    replace (pre ++ x :: suffix) with ((pre ++ [x]) ++ suffix)
      by (by rewrite <- app_assoc).
    rewrite (bind_ret _ _ _ _ _ (IH (pre ++ [x]) n this m
               ltac:(by rewrite <- app_assoc) ltac:(simpl in Hn; lia))).
    done.
Qed.

Lemma reverse_loop_spec (k : nat) : ∀ (n : nat) this m l,
  represents ChunkSize m l →
  (k <= length l)%nat → (k <= n)%nat →
  reverse_loop ChunkSize NDEBUG n (ReverseIterator this (Z.of_nat k))
    (rend this) m
  = Ret (reverse (take k l)) m.
Proof.
  induction k as [|k IH]; intros n this m l Hrep Hk Hn.
  - destruct n; simpl; unfold reverse_ne, reverse_eq; simpl;
      by rewrite Nat.eqb_refl.
  - destruct n as [|n]; [lia|].
    pose proof Hrep as [Hsize HL].
    pose proof (layout_index_small ChunkSize ChunkSize_pos m _ (length l) HL
                  ltac:(by rewrite length_fmap)) as Hsmall.
    destruct (lookup_lt_is_Some_2 l k) as [x Hx]; [lia|].
    cbn [reverse_loop]. unfold reverse_ne, reverse_eq, rend. cbn [rindex rparent].
    assert ((Z.of_nat (S k) =? 0) = false) as -> by (apply Z.eqb_neq; lia).
    cbn [andb negb].
    assert (Hread : (let* r := reverse_deref ChunkSize NDEBUG
                                 (ReverseIterator this (Z.of_nat (S k)))
                     in load r) m = Ret x m).
    { unfold reverse_deref. cbn [rindex].
      rewrite wrap_small by lia.
      replace (Z.of_nat (S k) - 1) with (Z.of_nat k) by lia.
      apply (read_spec ChunkSize NDEBUG ChunkSize_pos m _ k x HL).
      - by rewrite list_lookup_fmap, Hx.
      - right. lia. }
    rewrite <- (bind_assoc (reverse_deref ChunkSize NDEBUG _) load).
    rewrite (bind_ret _ _ _ _ _ Hread).
    unfold reverse_increment. cbn [rindex rparent].
    rewrite wrap_small by lia.
    replace (Z.of_nat (S k) - 1) with (Z.of_nat k) by lia.
    fold (rend this).
    rewrite (bind_ret _ _ _ _ _ (IH n this m l Hrep ltac:(lia) ltac:(lia))).
    by rewrite (take_S_r l k x), reverse_snoc.
Qed.

(** X17. Iterating from [begin()] to [end()] over a container that holds
    [l], with a budget of at least [size()] steps, yields exactly the
    elements of [l] in order; iterating from [rbegin()] to [rend()] yields
    them in the opposite order. *)
Theorem iterate_represents (fuel : nat) this m l :
  represents ChunkSize m l → (length l <= fuel)%nat →
  iterate ChunkSize NDEBUG fuel this m = Ret l m
  ∧ iterate_reverse ChunkSize NDEBUG fuel this m = Ret (reverse l) m.
Proof.
  intros Hrep Hfuel. pose proof Hrep as [Hsize _]. split.
  - unfold iterate. rewrite bind_gets. unfold end_, begin_. rewrite Hsize.
    apply (forward_loop_spec l [] fuel this m); done.
  - unfold iterate_reverse. rewrite bind_gets. unfold rbegin. rewrite Hsize.
    rewrite (reverse_loop_spec (length l) fuel this m l) by done.
    by rewrite firstn_all.
Qed.

End Observing.

(** X18. Iterator arithmetic undoes itself on every in-range index and
    for every offset, also when the index wraps in between (as in
    [begin() - 1 + 1]): [it + n - n], [it - n + n], [--(++it)] and
    [++(--it)] are [it], for both iterator families. *)
Theorem iterator_arithmetic_inverse (i n : Z) (this : address) :
  0 <= i < size_type_modulus →
  let it := Iterator this i in
  let rit := ReverseIterator this i in
  iterator_minus (iterator_plus it n) n = it
  ∧ iterator_plus (iterator_minus it n) n = it
  ∧ iterator_decrement (iterator_increment it) = it
  ∧ iterator_increment (iterator_decrement it) = it
  ∧ reverse_minus (reverse_plus rit n) n = rit
  ∧ reverse_plus (reverse_minus rit n) n = rit
  ∧ reverse_decrement (reverse_increment rit) = rit
  ∧ reverse_increment (reverse_decrement rit) = rit.
Proof.
  intros Hi it rit.
  assert (Hsub : ∀ k, wrap (wrap (i + k) - k) = i).
  { intros k. unfold wrap. rewrite Zminus_mod_idemp_l.
    replace (i + k - k) with i by ring. by apply Z.mod_small. }
  assert (Hadd : ∀ k, wrap (wrap (i - k) + k) = i).
  { intros k. unfold wrap. rewrite Zplus_mod_idemp_l.
    replace (i - k + k) with i by ring. by apply Z.mod_small. }
  unfold iterator_minus, iterator_plus, iterator_decrement, iterator_increment,
    reverse_minus, reverse_plus, reverse_decrement, reverse_increment, it, rit.
  cbn [index parent rindex rparent].
  by rewrite !Hsub, !Hadd.
Qed.

(** ** [rope_vector.hpp]: the layout under the accessors *)

Section HppLayout.

Context {T : Type}.
Variable value_init : T.
Variable ChunkSize : Z.
Variable NDEBUG : bool.

Implicit Types m : Hpp.machine (T:=T).
Implicit Types L : list (option T).
Implicit Types l : list T.

Hypothesis ChunkSize_pos : 0 < ChunkSize.

Lemma hpp_assert_pass (cond : bool) expr m :
  NDEBUG = true ∨ cond = true → Hpp.assert_ NDEBUG cond expr m = Ret tt m.
Proof.
  unfold Hpp.assert_. intros [H|H]; rewrite H; [done|]. by destruct NDEBUG.
Qed.

Lemma hpp_chunks_size_nonneg m : 0 <= Hpp.chunks_size m.
Proof. unfold Hpp.chunks_size. lia. Qed.

Lemma hpp_chunk_lookup m p :
  Hpp.well_formed ChunkSize m →
  0 <= p < Hpp.chunks_size m * ChunkSize →
  ∃ c, Hpp.chunks m !! Z.to_nat (p / ChunkSize) = Some c
       ∧ Z.of_nat (length c) = ChunkSize
       ∧ Hpp.slot_at ChunkSize m p = c !! Z.to_nat (p mod ChunkSize)
       ∧ is_Some (c !! Z.to_nat (p mod ChunkSize)).
Proof.
  intros [_ Hlen] Hp.
  pose proof (div_range ChunkSize ChunkSize_pos p _ Hp) as Hdiv.
  destruct (lookup_lt_is_Some_2 (Hpp.chunks m) (Z.to_nat (p / ChunkSize)))
    as [c Hc]; [unfold Hpp.chunks_size in *; lia|].
  exists c. unfold Hpp.slot_at. rewrite Hc.
  assert (Z.of_nat (length c) = ChunkSize)
    by (apply Hlen; by eapply list_elem_of_lookup_2).
  split_and!; try done.
  apply lookup_lt_is_Some. pose proof (mod_range ChunkSize ChunkSize_pos p). lia.
Qed.

Lemma hpp_subscript_spec m (i : nat) :
  Hpp.well_formed ChunkSize m →
  NDEBUG = true ∨ Z.of_nat i < Hpp.total_size m →
  Z.of_nat i < Hpp.chunks_size m * ChunkSize →
  Hpp.subscript ChunkSize NDEBUG (Z.of_nat i) m
  = Ret (Z.of_nat i / ChunkSize, Z.of_nat i mod ChunkSize) m.
Proof.
  intros Hwf Hassert Hp.
  destruct (hpp_chunk_lookup m (Z.of_nat i) Hwf) as (c & Hc & _); [lia|].
  unfold Hpp.subscript. rewrite bind_gets.
  erewrite bind_ret
    by (apply hpp_assert_pass; destruct Hassert as [?|?%Z.ltb_lt]; auto).
  unfold Hpp.chunks_at, Hpp.chunk_index, Hpp.within_chunk_index, bind, ret.
  by rewrite Hc.
Qed.

Lemma hpp_store_spec m p v :
  Hpp.well_formed ChunkSize m →
  0 <= p < Hpp.chunks_size m * ChunkSize →
  ∃ m', Hpp.store (p / ChunkSize, p mod ChunkSize) v m = Ret tt m'
        ∧ Hpp.total_size m' = Hpp.total_size m
        ∧ Hpp.chunks_size m' = Hpp.chunks_size m
        ∧ Hpp.well_formed ChunkSize m'
        ∧ Hpp.slot_at ChunkSize m' p = Some v
        ∧ (∀ q, 0 <= q → q ≠ p →
             Hpp.slot_at ChunkSize m' q = Hpp.slot_at ChunkSize m q).
Proof.
  intros Hwf Hp.
  destruct (hpp_chunk_lookup m p Hwf Hp) as (c & Hc & Hlen & _ & Hoff).
  pose proof (div_range ChunkSize ChunkSize_pos p _ Hp) as Hdiv.
  pose proof (mod_range ChunkSize ChunkSize_pos p) as Hmod.
  unfold Hpp.store. simpl. rewrite Hc. eexists. split; [reflexivity|].
  assert (Hsz : Hpp.chunks_size
            {| Hpp.chunks := <[Z.to_nat (p / ChunkSize) :=
                 <[Z.to_nat (p mod ChunkSize) := v]> c]> (Hpp.chunks m);
               Hpp.total_size := Hpp.total_size m |} = Hpp.chunks_size m).
  { unfold Hpp.chunks_size. simpl. by rewrite length_insert. }
  split_and!; try done.
  - destruct Hwf as [Hb Hall]. split; [by rewrite Hsz|].
    intros c' [k Hk]%list_elem_of_lookup. simpl in Hk.
    apply list_lookup_insert_Some in Hk as [(_ & <- & _)|(_ & Hk)].
    + by rewrite length_insert.
    + apply Hall. by eapply list_elem_of_lookup_2.
  - unfold Hpp.slot_at. simpl.
    rewrite list_lookup_insert_eq by (by eapply lookup_lt_Some).
    apply list_lookup_insert_eq. lia.
  - intros q Hq Hne. unfold Hpp.slot_at. simpl.
    destruct (decide (Z.to_nat (q / ChunkSize) = Z.to_nat (p / ChunkSize)))
      as [Heq|Hneq].
    + rewrite Heq, list_lookup_insert_eq by (by eapply lookup_lt_Some).
      rewrite Hc. apply list_lookup_insert_ne.
      apply Z2Nat.inj in Heq; [|apply Z.div_pos; lia..].
      intros Hoffs.
      apply Z2Nat.inj in Hoffs; [|apply (mod_range ChunkSize ChunkSize_pos)..].
      pose proof (Z.div_mod p ChunkSize ltac:(lia)).
      pose proof (Z.div_mod q ChunkSize ltac:(lia)).
      apply Hne. congruence.
    + by rewrite list_lookup_insert_ne.
Qed.

Lemma hpp_layout_weaken m L L' :
  Hpp.layout ChunkSize m L →
  Z.of_nat (length L') <= Hpp.chunks_size m * ChunkSize →
  (∀ (i : nat) v, L' !! i = Some (Some v) → L !! i = Some (Some v)) →
  Hpp.layout ChunkSize m L'.
Proof.
  intros (Hwf & _ & Hel) Hfit Hsub. unfold Hpp.layout.
  split_and!; [done..|]. intros i v Hi. by apply Hel, Hsub.
Qed.

Lemma hpp_layout_set_total_size m z L :
  Hpp.layout ChunkSize m L →
  Hpp.layout ChunkSize {| Hpp.chunks := Hpp.chunks m; Hpp.total_size := z |} L.
Proof. done. Qed.

Lemma hpp_read_spec m L (i : nat) v :
  Hpp.layout ChunkSize m L → L !! i = Some (Some v) →
  NDEBUG = true ∨ Z.of_nat i < Hpp.total_size m →
  Hpp.read ChunkSize NDEBUG (Z.of_nat i) m = Ret v m.
Proof.
  intros (Hwf & Hfit & Hel) Hi Hassert.
  pose proof (lookup_lt_Some _ _ _ Hi) as Hlen.
  unfold Hpp.read.
  rewrite (bind_ret _ _ _ _ _
             (hpp_subscript_spec m i Hwf Hassert ltac:(lia))).
  destruct (hpp_chunk_lookup m (Z.of_nat i) Hwf) as (c & Hc & _ & Hslot & _);
    [lia|].
  unfold Hpp.load. simpl. rewrite Hc.
  specialize (Hel i v Hi). rewrite Hslot in Hel. by rewrite Hel.
Qed.

Lemma hpp_assign_spec m L (i : nat) v :
  Hpp.layout ChunkSize m L →
  NDEBUG = true ∨ Z.of_nat i < Hpp.total_size m →
  Z.of_nat i < Hpp.chunks_size m * ChunkSize →
  ∃ m', (let* r := Hpp.subscript ChunkSize NDEBUG (Z.of_nat i) in
         Hpp.store r v) m = Ret tt m'
        ∧ Hpp.total_size m' = Hpp.total_size m
        ∧ Hpp.chunks_size m' = Hpp.chunks_size m
        ∧ Hpp.layout ChunkSize m' (<[i := Some v]> L).
Proof.
  intros (Hwf & Hfit & Hel) Hassert Hp.
  destruct (hpp_store_spec m (Z.of_nat i) v Hwf)
    as (m' & Hst & Ht & Hsz & Hwf' & Hnew & Hold); [lia|].
  exists m'. rewrite (bind_ret _ _ _ _ _ (hpp_subscript_spec m i Hwf Hassert Hp)).
  split_and!; try done.
  unfold Hpp.layout. split_and!; [done|by rewrite length_insert, Hsz|].
  intros j w Hj. destruct (decide (j = i)) as [->|Hne].
  - pose proof (lookup_lt_Some _ _ _ Hj) as Hlen. rewrite length_insert in Hlen.
    rewrite list_lookup_insert_eq in Hj by done. by simplify_eq.
  - rewrite list_lookup_insert_ne in Hj by done.
    rewrite Hold by lia. by apply Hel.
Qed.

Lemma hpp_move_slot_spec m L (dst src : nat) v :
  Hpp.layout ChunkSize m L → L !! src = Some (Some v) →
  NDEBUG = true
  ∨ (Z.of_nat dst < Hpp.total_size m ∧ Z.of_nat src < Hpp.total_size m) →
  Z.of_nat dst < Hpp.chunks_size m * ChunkSize →
  ∃ m', Hpp.move_slot ChunkSize NDEBUG (Z.of_nat dst) (Z.of_nat src) m
        = Ret tt m'
        ∧ Hpp.total_size m' = Hpp.total_size m
        ∧ Hpp.chunks_size m' = Hpp.chunks_size m
        ∧ Hpp.layout ChunkSize m' (<[dst := Some v]> L).
Proof.
  intros HL Hsrc Hassert Hdst.
  pose proof HL as (Hwf & Hfit & Hel).
  pose proof (lookup_lt_Some _ _ _ Hsrc) as Hlen.
  destruct (hpp_assign_spec m L dst v HL) as (m' & Hassign & Ht & Hsz & HL');
    [tauto|done|].
  exists m'. split_and!; try done.
  unfold Hpp.move_slot.
  rewrite (bind_ret _ _ _ _ _
             (hpp_subscript_spec m src Hwf ltac:(tauto) ltac:(lia))).
  rewrite (bind_ret _ _ _ _ _
             (hpp_subscript_spec m dst Hwf ltac:(tauto) Hdst)).
  rewrite (bind_ret _ _ _ _ _
             (hpp_subscript_spec m dst Hwf ltac:(tauto) Hdst)) in Hassign.
  destruct (hpp_chunk_lookup m (Z.of_nat src) Hwf) as (c & Hc & _ & Hslot & _);
    [lia|].
  assert (Hload : Hpp.load (Z.of_nat src / ChunkSize,
                            Z.of_nat src mod ChunkSize) m = Ret v m).
  { unfold Hpp.load. simpl. rewrite Hc.
    specialize (Hel src v Hsrc). rewrite Hslot in Hel. by rewrite Hel. }
  by rewrite (bind_ret _ _ _ _ _ Hload).
Qed.

Lemma hpp_read_range_spec l : ∀ m (pre : list T),
  Hpp.layout ChunkSize m (Some <$> (pre ++ l)) →
  NDEBUG = true ∨ Z.of_nat (length (pre ++ l)) <= Hpp.total_size m →
  Hpp.read_range ChunkSize NDEBUG (length l) (Z.of_nat (length pre)) m
  = Ret l m.
Proof.
  induction l as [|x l IH]; intros m pre HL Hassert; [done|].
  simpl.
  erewrite bind_ret; cycle 1.
  { apply (hpp_read_spec m _ (length pre) x HL).
    - rewrite list_lookup_fmap, lookup_app_r, Nat.sub_diag by done. done.
    - destruct Hassert as [?|Hle]; [by left|right].
      rewrite length_app in Hle. simpl in Hle. lia. }
  replace (Z.of_nat (length pre) + 1) with (Z.of_nat (length (pre ++ [x])))
    by (rewrite length_app; simpl; lia).
  erewrite bind_ret; [done|]. apply IH.
  - by rewrite <- app_assoc.
  - by rewrite <- app_assoc.
Qed.

Lemma hpp_shift_left_loop (k : nat) : ∀ (i : nat) m L,
  Hpp.layout ChunkSize m L →
  NDEBUG = true ∨ Z.of_nat (i + k) < Hpp.total_size m →
  (i + k < length L)%nat →
  Z.of_nat (length L) < size_type_modulus →
  (∀ j, (i < j <= i + k)%nat → ∃ v, L !! j = Some (Some v)) →
  ∃ m' L',
    for_up k (Z.of_nat i)
      (λ i, Hpp.move_slot ChunkSize NDEBUG i (wrap (i + 1))) m = Ret tt m'
    ∧ Hpp.total_size m' = Hpp.total_size m
    ∧ Hpp.chunks_size m' = Hpp.chunks_size m
    ∧ Hpp.layout ChunkSize m' L'
    ∧ length L' = length L
    ∧ ∀ j, L' !! j = if decide (i <= j < i + k)%nat then L !! S j else L !! j.
Proof.
  induction k as [|k IH]; intros i m L HL Hassert Hlen Hsmall Hsrc.
  - exists m, L. split_and!; try done.
    intros j. case_decide; [lia|done].
  - destruct (Hsrc (S i)) as [v Hv]; [lia|].
    pose proof HL as (_ & Hfit & _).
    destruct (hpp_move_slot_spec m L i (S i) v HL Hv)
      as (m1 & Hmove & Ht1 & Hsz1 & HL1).
    { destruct Hassert as [?|?]; [by left|right; lia]. }
    { lia. }
    destruct (IH (S i) m1 (<[i := Some v]> L) HL1)
      as (m' & L' & Hloop & Ht & Hsz & HL' & Hlen' & Hlook).
    { rewrite Ht1. destruct Hassert as [?|?]; [by left|right; lia]. }
    { rewrite length_insert. lia. }
    { by rewrite length_insert. }
    { intros j Hj. rewrite list_lookup_insert_ne by lia. apply Hsrc. lia. }
    exists m', L'. split_and!; try congruence.
    + simpl. rewrite (wrap_small (Z.of_nat i + 1)) by lia.
      replace (Z.of_nat i + 1) with (Z.of_nat (S i)) by lia.
      by rewrite (bind_ret _ _ _ _ _ Hmove).
    + by rewrite Hlen', length_insert.
    + intros j. rewrite Hlook.
      destruct (decide (j = i)) as [->|Hne].
      * rewrite decide_False by lia. rewrite decide_True by lia.
        rewrite list_lookup_insert_eq by lia. done.
      * repeat case_decide; try lia;
          by rewrite list_lookup_insert_ne by lia.
Qed.

Lemma hpp_shift_right_loop (k : nat) : ∀ (p : nat) m L,
  Hpp.layout ChunkSize m L →
  NDEBUG = true ∨ Z.of_nat (p + k) < Hpp.total_size m →
  (p + k < length L)%nat →
  Z.of_nat (length L) < size_type_modulus →
  (∀ j, (p <= j < p + k)%nat → ∃ v, L !! j = Some (Some v)) →
  ∃ m' L',
    for_down k (Z.of_nat (p + k))
      (λ i, Hpp.move_slot ChunkSize NDEBUG i (wrap (i - 1))) m = Ret tt m'
    ∧ Hpp.total_size m' = Hpp.total_size m
    ∧ Hpp.chunks_size m' = Hpp.chunks_size m
    ∧ Hpp.layout ChunkSize m' L'
    ∧ length L' = length L
    ∧ ∀ j, L' !! j = if decide (p < j <= p + k)%nat then L !! pred j else L !! j.
Proof.
  induction k as [|k IH]; intros p m L HL Hassert Hlen Hsmall Hsrc.
  - exists m, L. split_and!; try done.
    intros j. case_decide; [lia|done].
  - destruct (Hsrc (p + k)%nat) as [v Hv]; [lia|].
    pose proof HL as (_ & Hfit & _).
    destruct (hpp_move_slot_spec m L (p + S k) (p + k) v HL Hv)
      as (m1 & Hmove & Ht1 & Hsz1 & HL1).
    { destruct Hassert as [?|?]; [by left|right; lia]. }
    { lia. }
    destruct (IH p m1 (<[(p + S k)%nat := Some v]> L) HL1)
      as (m' & L' & Hloop & Ht & Hsz & HL' & Hlen' & Hlook).
    { rewrite Ht1. destruct Hassert as [?|?]; [by left|right; lia]. }
    { rewrite length_insert. lia. }
    { by rewrite length_insert. }
    { intros j Hj. rewrite list_lookup_insert_ne by lia. apply Hsrc. lia. }
    exists m', L'. split_and!; try congruence.
    + simpl. rewrite (wrap_small (Z.of_nat (p + S k) - 1)) by lia.
      replace (Z.of_nat (p + S k) - 1) with (Z.of_nat (p + k)) by lia.
      by rewrite (bind_ret _ _ _ _ _ Hmove).
    + by rewrite Hlen', length_insert.
    + intros j. rewrite Hlook.
      destruct (decide (j = p + S k)%nat) as [->|Hne].
      * rewrite decide_False by lia. rewrite decide_True by lia.
        rewrite list_lookup_insert_eq by lia.
        by replace (pred (p + S k)) with (p + k)%nat by lia.
      * repeat case_decide; try lia;
          by rewrite list_lookup_insert_ne by lia.
Qed.

(** Assigning to index [i] from a reference parameter that reads as [v]. *)
Lemma hpp_assign_reference_spec m L (i : nat) value v :
  Hpp.layout ChunkSize m L →
  NDEBUG = true ∨ Z.of_nat i < Hpp.total_size m →
  Z.of_nat i < Hpp.chunks_size m * ChunkSize →
  Hpp.read_reference value m = Ret v m →
  ∃ m', (let* r := Hpp.subscript ChunkSize NDEBUG (Z.of_nat i) in
         let* x := Hpp.read_reference value in
         Hpp.store r x) m = Ret tt m'
        ∧ Hpp.total_size m' = Hpp.total_size m
        ∧ Hpp.chunks_size m' = Hpp.chunks_size m
        ∧ Hpp.layout ChunkSize m' (<[i := Some v]> L).
Proof.
  intros HL Hassert Hp Hread.
  destruct (hpp_assign_spec m L i v HL Hassert Hp) as (m' & Hassign & Hrest).
  exists m'. split; [|done].
  pose proof HL as (Hwf & _).
  pose proof (hpp_subscript_spec m i Hwf Hassert Hp) as Hsub.
  rewrite (bind_ret _ _ _ _ _ Hsub) in Hassign.
  by rewrite (bind_ret _ _ _ _ _ Hsub), (bind_ret _ _ _ _ _ Hread).
Qed.

(** A reference to the slot of index [j], read where the layout says what
    that slot holds. *)
Lemma hpp_read_slot_reference m L (j : nat) v :
  Hpp.layout ChunkSize m L → L !! j = Some (Some v) →
  Hpp.read_reference
    (Hpp.Slot (Z.of_nat j / ChunkSize, Z.of_nat j mod ChunkSize)) m
  = Ret v m.
Proof.
  intros (Hwf & Hfit & Hel) Hj.
  pose proof (lookup_lt_Some _ _ _ Hj) as Hlen.
  destruct (hpp_chunk_lookup m (Z.of_nat j) Hwf) as (c & Hc & _ & Hslot & _);
    [lia|].
  cbn [Hpp.read_reference]. unfold Hpp.load. simpl. rewrite Hc.
  specialize (Hel j v Hj). rewrite Hslot in Hel. by rewrite Hel.
Qed.

End HppLayout.

(** ** [rope_vector.hpp]: the operations *)

Section HppOperations.

Context {T : Type}.
Variable value_init : T.
Variable ChunkSize : Z.
Variable NDEBUG : bool.

Implicit Types m : Hpp.machine (T:=T).
Implicit Types L : list (option T).
Implicit Types l : list T.

Hypothesis ChunkSize_pos : 0 < ChunkSize.

Lemma hpp_ensure_capacity_for_wf (n : nat) : ∀ m i,
  Hpp.well_formed ChunkSize m →
  0 <= i → i + ChunkSize < size_type_modulus →
  i / ChunkSize + 1 - Hpp.chunks_size m <= Z.of_nat n →
  ∃ m', Hpp.ensure_capacity_for value_init ChunkSize n i m = Ret tt m'
        ∧ Hpp.well_formed ChunkSize m'
        ∧ Hpp.chunks_size m'
          = Z.max (Hpp.chunks_size m) (i / ChunkSize + 1)
        ∧ Hpp.total_size m' = Hpp.total_size m
        ∧ (∀ p, 0 <= p < Hpp.chunks_size m * ChunkSize →
             Hpp.slot_at ChunkSize m' p = Hpp.slot_at ChunkSize m p).
Proof.
  unfold Hpp.ensure_capacity_for.
  induction n as [|n IH]; intros m i Hwf Hi Hbound Hfuel;
    pose proof (hpp_chunks_size_nonneg m);
    pose proof Hwf as [Hb Hall];
    simpl; rewrite (wrap_small (Hpp.chunks_size m * ChunkSize)) by lia;
    destruct (Z.leb_spec (Hpp.chunks_size m * ChunkSize) i) as [Hle|Hgt];
    try (assert (Hq : Hpp.chunks_size m <= i / ChunkSize)
           by (apply Z.div_le_lower_bound; lia));
    try (assert (Hq : i / ChunkSize < Hpp.chunks_size m)
           by (apply Z.div_lt_upper_bound; lia)).
  - lia.
  - exists m. split_and!; try done. lia.
  - set (m1 := {| Hpp.chunks := Hpp.chunks m
                     ++ [replicate (Z.to_nat ChunkSize) value_init];
                  Hpp.total_size := Hpp.total_size m |}).
    assert (Hsize1 : Hpp.chunks_size m1 = Hpp.chunks_size m + 1).
    { unfold Hpp.chunks_size, m1. simpl. rewrite length_app. simpl. lia. }
    assert (Hwf1 : Hpp.well_formed ChunkSize m1).
    { split; [rewrite Hsize1; nia|].
      intros c [Hc| ->%list_elem_of_singleton]%elem_of_app; [by apply Hall|].
      rewrite length_replicate. lia. }
    destruct (IH m1 i Hwf1) as (m' & -> & Hwf' & Hsize & Htot & Hslot);
      try done; [lia|].
    exists m'. split_and!; try done.
    + rewrite Hsize, Hsize1. lia.
    + intros p Hp. rewrite Hslot by (rewrite Hsize1; nia).
      unfold Hpp.slot_at, m1. simpl.
      pose proof (div_range ChunkSize ChunkSize_pos p _ Hp).
      by rewrite lookup_app_l by (unfold Hpp.chunks_size in *; lia).
  - exists m. split_and!; try done. lia.
Qed.

(** In [rope_vector.hpp], a container that holds [l] reads back as
    [l]. *)
Lemma hpp_to_list_spec m l :
  Hpp.represents ChunkSize m l → Hpp.to_list ChunkSize NDEBUG m = Ret l m.
Proof.
  intros [Hsize HL]. unfold Hpp.to_list. rewrite bind_gets, Hsize, Nat2Z.id.
  apply (hpp_read_range_spec ChunkSize NDEBUG ChunkSize_pos l m []); [done|].
  right. simpl. lia.
Qed.

Lemma hpp_push_back_spec (fuel : nat) m l v :
  Hpp.represents ChunkSize m l →
  (1 <= fuel)%nat →
  Hpp.total_size m + ChunkSize < size_type_modulus →
  ∃ m', Hpp.push_back value_init ChunkSize fuel v m = Ret tt m'
        ∧ Hpp.represents ChunkSize m' (l ++ [v]).
Proof.
  intros [Hsize (Hwf & Hfit & Hel)] Hfuel Hbound.
  rewrite length_fmap in Hfit.
  pose proof (hpp_chunks_size_nonneg m).
  set (n := Hpp.total_size m) in *.
  assert (Hdiv : n / ChunkSize <= Hpp.chunks_size m).
  { apply Z.div_le_upper_bound; [lia|]. nia. }
  destruct (hpp_ensure_capacity_for_wf fuel m n Hwf)
    as (m1 & Hrun & Hwf1 & Hsize1 & Htot1 & Hslot1); [lia..|].
  pose proof (Z.mul_succ_div_gt n ChunkSize ChunkSize_pos) as Hup.
  destruct (hpp_store_spec ChunkSize ChunkSize_pos m1 n v Hwf1)
    as (m2 & Hst & Ht2 & Hsz2 & Hwf2 & Hnew & Hold); [nia|].
  destruct (hpp_chunk_lookup ChunkSize ChunkSize_pos m1 n Hwf1)
    as (c & Hc & _); [nia|].
  exists {| Hpp.chunks := Hpp.chunks m2; Hpp.total_size := n + 1 |}.
  split.
  - unfold Hpp.push_back. rewrite bind_gets. fold n.
    rewrite (bind_ret _ _ _ _ _ Hrun).
    unfold Hpp.chunks_at at 1. unfold bind at 1. unfold Hpp.chunk_index.
    rewrite Hc. unfold Hpp.within_chunk_index.
    rewrite (bind_ret _ _ _ _ _ Hst). unfold modify.
    by rewrite wrap_small by lia.
  - split; [simpl; rewrite length_app; simpl; lia|].
    apply hpp_layout_set_total_size.
    unfold Hpp.layout. split_and!; [done| |].
    + rewrite length_fmap, length_app, Hsz2. simpl. nia.
    + intros i w Hi. rewrite list_lookup_fmap in Hi.
      destruct (l !! i) as [x|] eqn:Hx.
      * rewrite lookup_app_l in Hi by (by eapply lookup_lt_Some).
        rewrite Hx in Hi. simpl in Hi. assert (w = x) as -> by congruence.
        pose proof (lookup_lt_Some _ _ _ Hx) as Hlt.
        rewrite Hold, Hslot1 by lia.
        apply Hel. by rewrite list_lookup_fmap, Hx.
      * apply lookup_ge_None in Hx.
        destruct (decide (i = length l)) as [->|Hne].
        -- rewrite lookup_app_r, Nat.sub_diag in Hi by done.
           simpl in Hi. assert (w = v) as -> by congruence.
           by rewrite <- Hsize.
        -- rewrite lookup_ge_None_2 in Hi; [done|].
           rewrite length_app. simpl. lia.
Qed.

(** X19. In [rope_vector.hpp], [push_back(v)] on a container that holds
    [l], with room for one more chunk below [2^64]: it returns and the
    container holds [l] followed by [v]. *)
Theorem hpp_push_back_represents (fuel : nat) m l v :
  Hpp.represents ChunkSize m l →
  (1 <= fuel)%nat →
  Hpp.total_size m + ChunkSize < size_type_modulus →
  ∃ m', Hpp.push_back value_init ChunkSize fuel v m = Ret tt m'
        ∧ Hpp.represents ChunkSize m' (l ++ [v]).
Proof. apply hpp_push_back_spec. Qed.

(** In [rope_vector.hpp], [insert] with [pos <= size()] on a container
    that holds [l]. The parameter is read after the elements from [pos] on
    have moved one slot up: a reference to the slot of index [j] reads the
    old element [j - 1] when [pos < j], the old element [j] otherwise. *)
Lemma hpp_insert_spec (fuel : nat) m l (pos : nat) value v :
  Hpp.represents ChunkSize m l →
  (1 <= fuel)%nat →
  Hpp.total_size m + ChunkSize < size_type_modulus →
  (pos <= length l)%nat →
  value = Hpp.Outside v
  ∨ (∃ j : nat,
       l !! (if decide (pos < j)%nat then pred j else j) = Some v
       ∧ value = Hpp.Slot (Z.of_nat j / ChunkSize, Z.of_nat j mod ChunkSize)) →
  ∃ m', Hpp.insert value_init ChunkSize NDEBUG fuel (Z.of_nat pos) value m
        = Ret tt m'
        ∧ Hpp.represents ChunkSize m' (take pos l ++ v :: drop pos l).
Proof.
  intros Hrep Hfuel Hbound Hpos Hval. pose proof Hrep as [Hsize _].
  destruct (hpp_push_back_spec fuel m l value_init Hrep Hfuel Hbound)
    as (m1 & Hpush & [Hsize1 HL1]).
  rewrite length_app in Hsize1. simpl in Hsize1.
  pose proof HL1 as (Hwf1 & Hfit1 & _).
  rewrite length_fmap, length_app in Hfit1. simpl in Hfit1.
  assert (Hsmall : Z.of_nat (length l) + 1 < size_type_modulus).
  { destruct Hwf1. lia. }
  destruct (hpp_shift_right_loop ChunkSize NDEBUG ChunkSize_pos
              (length l - pos) pos m1 _ HL1)
    as (m3 & L3 & Hloop & Ht3 & Hsz3 & HL3 & Hlen3 & Hlook3).
  { right. lia. }
  { rewrite length_fmap, length_app. simpl. lia. }
  { rewrite length_fmap, length_app. simpl. lia. }
  { intros j Hj. destruct (lookup_lt_is_Some_2 l j) as [w Hw]; [lia|].
    exists w. rewrite list_lookup_fmap, lookup_app_l by lia. by rewrite Hw. }
  rewrite length_fmap, length_app in Hlen3. simpl in Hlen3.
  assert (Hread : Hpp.read_reference value m3 = Ret v m3).
  { destruct Hval as [->|(j & Hj & ->)]; [done|].
    apply (hpp_read_slot_reference ChunkSize ChunkSize_pos m3 L3 j v HL3).
    rewrite Hlook3. pose proof (lookup_lt_Some _ _ _ Hj) as Hjl.
    destruct (decide (pos < j)%nat) as [Hlt|Hge].
    - rewrite decide_True by lia.
      rewrite list_lookup_fmap, lookup_app_l by lia. by rewrite Hj.
    - rewrite decide_False by lia.
      rewrite list_lookup_fmap, lookup_app_l by lia. by rewrite Hj. }
  destruct (hpp_assign_reference_spec ChunkSize NDEBUG ChunkSize_pos m3 L3 pos
              value v HL3)
    as (m' & Hassign & Ht & Hsz & HL').
  { right. lia. }
  { lia. }
  { done. }
  exists m'. split.
  - unfold Hpp.insert. rewrite bind_gets.
    assert ((Hpp.total_size m <? Z.of_nat pos) = false) as -> by lia.
    rewrite (bind_ret _ _ _ _ _ Hpush), bind_gets, Hsize1.
    rewrite wrap_small by lia.
    replace (Z.to_nat (Z.of_nat (length l + 1) - 1 - Z.of_nat pos))
      with (length l - pos)%nat by lia.
    replace (Z.of_nat (length l + 1) - 1)
      with (Z.of_nat (pos + (length l - pos))) by lia.
    by rewrite (bind_ret _ _ _ _ _ Hloop).
  - split; [rewrite Ht, Ht3, Hsize1, length_inserted by done; lia|].
    apply (hpp_layout_weaken ChunkSize m' _ _ HL').
    + rewrite length_fmap, length_inserted by done. lia.
    + intros j w Hj. rewrite list_lookup_fmap, lookup_inserted in Hj by done.
      destruct (decide (j = pos)) as [->|Hjp].
      * rewrite list_lookup_insert_eq by lia.
        repeat case_decide; try lia. simpl in Hj. congruence.
      * rewrite list_lookup_insert_ne by done. rewrite Hlook3.
        destruct (decide (j < pos)%nat) as [Hlt|Hge].
        -- rewrite decide_False by lia.
           rewrite list_lookup_fmap, lookup_app_l by lia. exact Hj.
        -- assert (pred j < length l)%nat.
           { destruct (l !! pred j) eqn:E; [by eapply lookup_lt_Some|done]. }
           rewrite decide_True by lia.
           rewrite list_lookup_fmap, lookup_app_l by lia. exact Hj.
Qed.


Lemma hpp_erase_spec m l (pos : nat) :
  Hpp.represents ChunkSize m l → (pos < length l)%nat →
  ∃ m', Hpp.erase ChunkSize NDEBUG (Z.of_nat pos) m = Ret tt m'
        ∧ Hpp.represents ChunkSize m' (delete pos l)
        ∧ Hpp.chunks_size m' = Hpp.chunks_size m.
Proof.
  intros [Hsize HL] Hpos.
  pose proof HL as ([Hb _] & Hfit & _). rewrite length_fmap in Hfit.
  destruct (hpp_shift_left_loop ChunkSize NDEBUG ChunkSize_pos
              (length l - 1 - pos) pos m (Some <$> l) HL)
    as (m1 & L' & Hloop & Ht & Hsz & HL' & Hlen' & Hlook).
  { right. lia. }
  { rewrite length_fmap. lia. }
  { rewrite length_fmap. lia. }
  { intros j Hj. destruct (lookup_lt_is_Some_2 l j) as [v Hv]; [lia|].
    exists v. by rewrite list_lookup_fmap, Hv. }
  exists {| Hpp.chunks := Hpp.chunks m1;
            Hpp.total_size := Hpp.total_size m - 1 |}.
  split_and!; try done.
  - unfold Hpp.erase. rewrite bind_gets.
    assert ((Hpp.total_size m <=? Z.of_nat pos) = false) as -> by lia.
    rewrite (wrap_small (Hpp.total_size m - 1)) by lia.
    replace (Z.to_nat (Hpp.total_size m - 1 - Z.of_nat pos))
      with (length l - 1 - pos)%nat by lia.
    by rewrite (bind_ret _ _ _ _ _ Hloop).
  - split.
    + simpl. rewrite length_delete by (by apply lookup_lt_is_Some_2). lia.
    + apply hpp_layout_set_total_size.
      apply (hpp_layout_weaken ChunkSize m1 L'); [done| |].
      * rewrite length_fmap.
        rewrite length_delete by (by apply lookup_lt_is_Some_2). lia.
      * intros j w Hj. rewrite Hlook.
        rewrite list_lookup_fmap in Hj.
        destruct (decide (j < pos)%nat) as [Hlt|Hge].
        -- rewrite list_lookup_delete_lt in Hj by done.
           rewrite decide_False by lia. by rewrite list_lookup_fmap.
        -- rewrite list_lookup_delete_ge in Hj by lia.
           assert (S j < length l)%nat.
           { destruct (l !! S j) eqn:E; [by eapply lookup_lt_Some|done]. }
           rewrite decide_True by lia. by rewrite list_lookup_fmap.
Qed.

(** X21. In [rope_vector.hpp], [erase(pos)] with [pos < size()] on a
    container that holds [l]: it returns and the container holds [l]
    without its element [pos]; the chunks stay. *)
Theorem hpp_erase_represents m l (pos : nat) :
  Hpp.represents ChunkSize m l → (pos < length l)%nat →
  ∃ m', Hpp.erase ChunkSize NDEBUG (Z.of_nat pos) m = Ret tt m'
        ∧ Hpp.represents ChunkSize m' (delete pos l)
        ∧ Hpp.chunks_size m' = Hpp.chunks_size m.
Proof. apply hpp_erase_spec. Qed.

(** X22. In [rope_vector.hpp] the round trip holds at every valid
    position and for every argument: [insert(pos, value)] followed by
    [erase(pos)], for any [pos <= size()], with an argument that is not an
    element of the container or with any of its elements as argument,
    returns and leaves a container that holds the original sequence. *)
Theorem hpp_insert_erase_round_trip (fuel : nat) m l (pos : nat) :
  Hpp.represents ChunkSize m l →
  (1 <= fuel)%nat →
  Hpp.total_size m + ChunkSize < size_type_modulus →
  (pos <= length l)%nat →
  (∀ v, ∃ m' m'',
     Hpp.insert value_init ChunkSize NDEBUG fuel (Z.of_nat pos)
       (Hpp.Outside v) m = Ret tt m'
     ∧ Hpp.size m' = Hpp.size m + 1
     ∧ Hpp.erase ChunkSize NDEBUG (Z.of_nat pos) m' = Ret tt m''
     ∧ Hpp.represents ChunkSize m'' l
     ∧ Hpp.to_list ChunkSize NDEBUG m'' = Ret l m'')
  ∧ (∀ j : nat, (j < length l)%nat →
       ∃ m' m'',
         (let* r := Hpp.subscript ChunkSize NDEBUG (Z.of_nat j) in
          Hpp.insert value_init ChunkSize NDEBUG fuel (Z.of_nat pos)
            (Hpp.Slot r)) m = Ret tt m'
         ∧ Hpp.size m' = Hpp.size m + 1
         ∧ Hpp.erase ChunkSize NDEBUG (Z.of_nat pos) m' = Ret tt m''
         ∧ Hpp.represents ChunkSize m'' l
         ∧ Hpp.to_list ChunkSize NDEBUG m'' = Ret l m'').
Proof.
  intros Hrep Hfuel Hbound Hpos. pose proof Hrep as [Hsize (Hwf & Hfit & _)].
  rewrite length_fmap in Hfit.
  assert (Hback : ∀ m' x,
            Hpp.represents ChunkSize m' (take pos l ++ x :: drop pos l) →
            ∃ m'', Hpp.size m' = Hpp.size m + 1
                   ∧ Hpp.erase ChunkSize NDEBUG (Z.of_nat pos) m' = Ret tt m''
                   ∧ Hpp.represents ChunkSize m'' l
                   ∧ Hpp.to_list ChunkSize NDEBUG m'' = Ret l m'').
  { intros m' x Hrep'.
    destruct (hpp_erase_spec m' _ pos Hrep')
      as (m'' & Herase & Hrep'' & _).
    { rewrite length_inserted by done. lia. }
    rewrite delete_inserted in Hrep'' by done.
    exists m''. split_and!; try done.
    - destruct Hrep' as [Hsize' _]. unfold Hpp.size.
      rewrite Hsize', length_inserted, Hsize by done. lia.
    - by apply hpp_to_list_spec. }
  split.
  - intros v.
    destruct (hpp_insert_spec fuel m l pos (Hpp.Outside v) v Hrep Hfuel Hbound
                Hpos) as (m' & Hins & Hrep'); [by left|].
    destruct (Hback m' v Hrep') as (m'' & ?). by exists m', m''.
  - intros j Hj.
    rewrite (bind_ret _ _ _ _ _
               (hpp_subscript_spec ChunkSize NDEBUG ChunkSize_pos m j Hwf
                  ltac:(right; lia) ltac:(lia))).
    destruct (lookup_lt_is_Some_2 l (if decide (pos < j)%nat
                                     then pred j else j)) as [x Hx];
      [case_decide; lia|].
    destruct (hpp_insert_spec fuel m l pos
                (Hpp.Slot (Z.of_nat j / ChunkSize, Z.of_nat j mod ChunkSize))
                x Hrep Hfuel Hbound Hpos) as (m' & Hins & Hrep');
      [right; by exists j|].
    destruct (Hback m' x Hrep') as (m'' & ?). by exists m', m''.
Qed.

(** X23. In [rope_vector.hpp], [insert] and [erase] reject a position
    out of range by throwing [std::out_of_range], the container as it was:
    [insert(pos, value)] exactly when [pos > size()], [erase(pos)] exactly
    when [pos >= size()]. In range, neither throws. This holds whatever
    [value] refers to. *)
Theorem hpp_position_out_of_range (fuel : nat) (m : Hpp.machine (T:=T)) pos
    (value : Hpp.reference) :
  (Hpp.size m < pos →
     Hpp.insert value_init ChunkSize NDEBUG fuel pos value m
     = Throw (out_of_range "insert position out of bounds") m)
  ∧ (Hpp.size m <= pos →
     Hpp.erase ChunkSize NDEBUG pos m
     = Throw (out_of_range "erase position out of bounds") m)
  ∧ (pos < Hpp.size m → ¬ recoverable (Hpp.erase ChunkSize NDEBUG pos m))
  ∧ (pos <= Hpp.size m →
     ¬ recoverable (Hpp.insert value_init ChunkSize NDEBUG fuel pos value m)).
Proof.
  assert (Hsub : ∀ i (s : Hpp.machine (T:=T)),
            ¬ recoverable (Hpp.subscript ChunkSize NDEBUG i s))
    by apply hpp_subscript_never_throws.
  assert (Hstore : ∀ r w (s : Hpp.machine (T:=T)),
            ¬ recoverable (Hpp.store r w s)).
  { intros r w s (e & s' & H). unfold Hpp.store in H. by case_match. }
  assert (Hload : ∀ r (s : Hpp.machine (T:=T)),
            ¬ recoverable (Hpp.load r s)).
  { intros r s (e & s' & H). unfold Hpp.load in H. by repeat case_match. }
  assert (Hbind : ∀ A B (c : M (Hpp.machine (T:=T)) A) (k : A → M _ B) s,
            (∀ s', ¬ recoverable (c s')) →
            (∀ a s', ¬ recoverable (k a s')) →
            ¬ recoverable (bind c k s)).
  { intros A B c k s Hc Hk (e & s' & H). unfold bind in H.
    destruct (c s) as [a s1|e1 s1| | |] eqn:Hcs; try done.
    - apply (Hk a s1). by exists e, s'.
    - apply (Hc s). by exists e1, s1. }
  assert (Hmove : ∀ d s0 (s : Hpp.machine (T:=T)),
            ¬ recoverable (Hpp.move_slot ChunkSize NDEBUG d s0 s)).
  { intros d s0 s. unfold Hpp.move_slot.
    apply Hbind; [apply Hsub|]. intros r1 s1.
    apply Hbind; [apply Hsub|]. intros r2 s2.
    apply Hbind; [apply Hload|]. intros w s3. apply Hstore. }
  assert (Hup : ∀ n i f (s : Hpp.machine (T:=T)),
            (∀ j s', ¬ recoverable (f j s')) →
            ¬ recoverable (for_up n i f s)).
  { induction n as [|n IH]; intros i f s Hf; simpl.
    - by intros (e & s' & H).
    - apply Hbind; [apply Hf|]. intros _ s1. by apply IH. }
  assert (Hdown : ∀ n i f (s : Hpp.machine (T:=T)),
            (∀ j s', ¬ recoverable (f j s')) →
            ¬ recoverable (for_down n i f s)).
  { induction n as [|n IH]; intros i f s Hf; simpl.
    - by intros (e & s' & H).
    - apply Hbind; [apply Hf|]. intros _ s1. by apply IH. }
  assert (Hens : ∀ n i (s : Hpp.machine (T:=T)),
            ¬ recoverable (Hpp.ensure_capacity_for_loop value_init ChunkSize n i s)).
  { induction n as [|n IH]; intros i s; simpl.
    - intros (e & s' & H). by case_match.
    - case_match; [apply IH|by intros (e & s' & ?)]. }
  unfold Hpp.insert, Hpp.erase, Hpp.size. split_and!.
  - intros Hlt. rewrite bind_gets.
    by assert ((Hpp.total_size m <? pos) = true) as -> by lia.
  - intros Hle. rewrite bind_gets.
    by assert ((Hpp.total_size m <=? pos) = true) as -> by lia.
  - intros Hlt. rewrite bind_gets.
    assert ((Hpp.total_size m <=? pos) = false) as -> by lia.
    apply Hbind; [intros s'; by apply Hup|].
    intros _ s' (e & s'' & H). done.
  - intros Hle. rewrite bind_gets.
    assert ((Hpp.total_size m <? pos) = false) as -> by lia.
    apply Hbind.
    + intros s'. unfold Hpp.push_back.
      apply Hbind; [by intros s1 (e & s2 & H)|]. intros n s1.
      apply Hbind; [apply Hens|]. intros _ s2.
      apply Hbind.
      { intros s3 (e & s4 & H). unfold Hpp.chunks_at in H. by case_match. }
      intros k s3. apply Hbind; [apply Hstore|].
      intros _ s4 (e & s5 & H). done.
    + intros _ s1. apply Hbind; [by intros s2 (e & s3 & H)|]. intros n s2.
      apply Hbind; [intros s3; by apply Hdown|]. intros _ s3.
      apply Hbind; [apply Hsub|]. intros r s4.
      apply Hbind; [|intros w s5; apply Hstore].
      intros s5. destruct value; [by intros (e & s6 & ?)|apply Hload].
Qed.

End HppOperations.

(** ** [rope_vector.hpp]: changing the size *)

Section HppSizing.

Context {T : Type}.
Variable value_init : T.
Variable ChunkSize : Z.

Implicit Types m : Hpp.machine (T:=T).
Implicit Types L : list (option T).
Implicit Types l : list T.

Hypothesis ChunkSize_pos : 0 < ChunkSize.

Lemma hpp_fill_loop (k : nat) : ∀ (i : nat) m L,
  Hpp.layout ChunkSize m L →
  (i + k <= length L)%nat →
  ∃ m' L',
    for_up k (Z.of_nat i)
      (λ i, let* c := Hpp.chunks_at (Hpp.chunk_index ChunkSize i) in
            Hpp.store (c, Hpp.within_chunk_index ChunkSize i) value_init) m
    = Ret tt m'
    ∧ Hpp.chunks_size m' = Hpp.chunks_size m
    ∧ Hpp.layout ChunkSize m' L'
    ∧ length L' = length L
    ∧ ∀ j, L' !! j = if decide (i <= j < i + k)%nat
                     then Some (Some value_init) else L !! j.
Proof.
  induction k as [|k IH]; intros i m L HL Hlen.
  - exists m, L. split_and!; try done.
    intros j. case_decide; [lia|done].
  - pose proof HL as (Hwf & Hfit & Hel).
    destruct (hpp_chunk_lookup ChunkSize ChunkSize_pos m (Z.of_nat i) Hwf)
      as (c & Hc & _); [lia|].
    destruct (hpp_store_spec ChunkSize ChunkSize_pos m (Z.of_nat i) value_init
                Hwf)
      as (m1 & Hst & Ht1 & Hsz1 & Hwf1 & Hnew & Hold); [lia|].
    assert (HL1 : Hpp.layout ChunkSize m1 (<[i := Some value_init]> L)).
    { unfold Hpp.layout. split_and!; [done|by rewrite length_insert, Hsz1|].
      intros j w Hj. destruct (decide (j = i)) as [->|Hne].
      - rewrite list_lookup_insert_eq in Hj by lia. by simplify_eq.
      - rewrite list_lookup_insert_ne in Hj by done.
        rewrite Hold by lia. by apply Hel. }
    destruct (IH (S i) m1 _ HL1) as (m' & L' & Hloop & Hsz & HL' & Hlen' & Hlook);
      [rewrite length_insert; lia|].
    exists m', L'. split_and!.
    + cbn [for_up]. rewrite bind_assoc.
      unfold Hpp.chunks_at at 1. unfold bind at 1.
      unfold Hpp.chunk_index at 1. rewrite Hc.
      unfold Hpp.within_chunk_index at 1.
      rewrite (bind_ret _ _ _ _ _ Hst).
      by replace (Z.of_nat i + 1) with (Z.of_nat (S i)) by lia.
    + congruence.
    + done.
    + by rewrite Hlen', length_insert.
    + intros j. rewrite Hlook.
      destruct (decide (j = i)) as [->|Hne].
      * rewrite decide_False by lia. rewrite decide_True by lia.
        by rewrite list_lookup_insert_eq by lia.
      * repeat case_decide; try lia; try done.
        by rewrite list_lookup_insert_ne by lia.
Qed.

(** X24. In [rope_vector.hpp], on a container that holds [l]: [clear()]
    leaves the empty sequence and keeps every chunk; [resize(n)] with
    [n < size()] keeps the first [n] elements and every chunk; [resize(n)]
    with [n >= size()] and [n >= 1] returns and the container holds [l]
    followed by [n - size()] copies of [T{}]. *)
Theorem hpp_resize_represents (fuel : nat) m l :
  Hpp.represents ChunkSize m l →
  (∃ m', Hpp.clear m = Ret tt m'
         ∧ Hpp.represents ChunkSize m' []
         ∧ Hpp.chunks m' = Hpp.chunks m)
  ∧ (∀ k : nat, (k < length l)%nat →
     ∃ m', Hpp.resize value_init ChunkSize fuel (Z.of_nat k) m = Ret tt m'
           ∧ Hpp.represents ChunkSize m' (take k l)
           ∧ Hpp.chunks m' = Hpp.chunks m)
  ∧ (∀ k : nat, (1 <= length l + k)%nat →
     Z.of_nat (length l + k) + ChunkSize <= size_type_modulus →
     Z.of_nat (length l + k) / ChunkSize + 1 <= Z.of_nat fuel →
     ∃ m', Hpp.resize value_init ChunkSize fuel (Z.of_nat (length l + k)) m
           = Ret tt m'
           ∧ Hpp.represents ChunkSize m' (l ++ replicate k value_init)).
Proof.
  intros [Hsize HL]. pose proof HL as (Hwf & Hfit & Hel).
  rewrite length_fmap in Hfit. split_and!.
  - exists {| Hpp.chunks := Hpp.chunks m; Hpp.total_size := 0 |}.
    split_and!; try done. split; [done|].
    apply hpp_layout_set_total_size.
    apply (hpp_layout_weaken ChunkSize m (Some <$> l)); [done|simpl; lia|done].
  - intros k Hk.
    exists {| Hpp.chunks := Hpp.chunks m; Hpp.total_size := Z.of_nat k |}.
    split_and!; try done.
    + unfold Hpp.resize. rewrite bind_gets.
      by assert ((Z.of_nat k <? Hpp.total_size m) = true) as -> by lia.
    + split; [simpl; rewrite length_take; lia|].
      apply hpp_layout_set_total_size.
      apply (hpp_layout_weaken ChunkSize m (Some <$> l)); [done| |].
      * rewrite length_fmap, length_take. lia.
      * intros i w Hi. rewrite list_lookup_fmap in *.
        destruct (take k l !! i) as [x|] eqn:Hx; [|done].
        apply lookup_take_Some in Hx as [-> _]. done.
  - intros k Hone Hbound Hfuel.
    pose proof (hpp_chunks_size_nonneg m).
    set (n' := Z.of_nat (length l + k)) in *.
    pose proof (Z.div_le_mono (n' - 1) n' ChunkSize ChunkSize_pos ltac:(lia)).
    destruct (hpp_ensure_capacity_for_wf value_init ChunkSize ChunkSize_pos
                fuel m (n' - 1) Hwf)
      as (m1 & Hrun & Hwf1 & Hsize1 & Htot1 & Hslot1); [lia..|].
    pose proof (Z.mul_succ_div_gt (n' - 1) ChunkSize ChunkSize_pos) as Hup.
    assert (HL1 : Hpp.layout ChunkSize m1 ((Some <$> l) ++ replicate k None)).
    { unfold Hpp.layout. split_and!; [done| |].
      - rewrite length_app, length_fmap, length_replicate. fold n'. nia.
      - intros j w Hj. apply lookup_app_Some in Hj as [Hj|[_ Hj]].
        + pose proof (lookup_lt_Some _ _ _ Hj) as Hlt.
          rewrite length_fmap in Hlt.
          rewrite Hslot1 by lia. by apply Hel.
        + by apply lookup_replicate in Hj as [? _]. }
    destruct (hpp_fill_loop k (length l) m1 _ HL1)
      as (m2 & L2 & Hloop & Hsz2 & HL2 & Hlen2 & Hlook2);
      [rewrite length_app, length_fmap, length_replicate; lia|].
    exists {| Hpp.chunks := Hpp.chunks m2; Hpp.total_size := n' |}. split.
    + unfold Hpp.resize. rewrite bind_gets.
      assert ((n' <? Hpp.total_size m) = false) as -> by lia.
      rewrite (wrap_small (n' - 1)) by lia.
      rewrite (bind_ret _ _ _ _ _ Hrun).
      replace (Z.to_nat (n' - Hpp.total_size m)) with k by lia.
      rewrite Hsize. by rewrite (bind_ret _ _ _ _ _ Hloop).
    + split; [simpl; rewrite length_app, length_replicate; lia|].
      apply hpp_layout_set_total_size.
      apply (hpp_layout_weaken ChunkSize m2 L2); [done| |].
      * destruct HL2 as (_ & Hfit2 & _).
        rewrite Hlen2, length_app, length_fmap, length_replicate in Hfit2.
        by rewrite length_fmap, length_app, length_replicate.
      * intros j w Hj. rewrite Hlook2. rewrite list_lookup_fmap in Hj.
        destruct (decide (j < length l)%nat) as [Hlt|Hge].
        -- rewrite decide_False by lia.
           rewrite lookup_app_l in Hj by done.
           rewrite lookup_app_l by (by rewrite length_fmap).
           by rewrite list_lookup_fmap.
        -- rewrite lookup_app_r in Hj by lia.
           destruct (replicate k value_init !! (j - length l)%nat) as [x|] eqn:Hx;
             [|done].
           apply lookup_replicate in Hx as [-> Hlt].
           rewrite decide_True by lia. done.
Qed.

Lemma hpp_ensure_capacity_for_loop_max (n : nat) : ∀ m,
  ∃ m', Hpp.ensure_capacity_for_loop value_init ChunkSize n size_type_max m
        = OutOfFuel m'
        ∧ Hpp.chunks_size m' = Hpp.chunks_size m + Z.of_nat n
        ∧ Hpp.total_size m' = Hpp.total_size m.
Proof.
  induction n as [|n IH]; intros m; simpl;
    pose proof (wrap_range (Hpp.chunks_size m * ChunkSize));
    assert ((wrap (Hpp.chunks_size m * ChunkSize) <=? size_type_max) = true)
      as -> by lia.
  - exists m. split_and!; try done. lia.
  - destruct (IH {| Hpp.chunks := Hpp.chunks m
                      ++ [replicate (Z.to_nat ChunkSize) value_init];
                    Hpp.total_size := Hpp.total_size m |})
      as (m' & -> & Hsz & Ht).
    exists m'. split_and!; try done.
    rewrite Hsz. unfold Hpp.chunks_size. simpl. rewrite length_app. simpl. lia.
Qed.

(** X25. In [rope_vector.hpp], [resize(0)] on an empty container never
    returns, whatever the container went through before: it asks
    [ensure_capacity_for] for index [2^64 - 1], whose loop allocates one
    more chunk at every iteration without ever meeting its exit condition.
    In particular [clear()] followed by [resize(0)] never returns, on any
    container. *)
Theorem hpp_resize_zero_on_empty (m : Hpp.machine (T:=T)) (budget : nat) :
  (Hpp.total_size m = 0 →
   ∃ m', Hpp.resize value_init ChunkSize budget 0 m = OutOfFuel m'
         ∧ Hpp.chunks_size m' = Hpp.chunks_size m + Z.of_nat budget)
  ∧ ∃ m', (Hpp.clear ;; Hpp.resize value_init ChunkSize budget 0) m
          = OutOfFuel m'
          ∧ Hpp.chunks_size m' = Hpp.chunks_size m + Z.of_nat budget.
Proof.
  assert (Hrun : ∀ s : Hpp.machine (T:=T), Hpp.total_size s = 0 →
            ∃ m', Hpp.resize value_init ChunkSize budget 0 s = OutOfFuel m'
              ∧ Hpp.chunks_size m' = Hpp.chunks_size s + Z.of_nat budget).
  { intros s Hz.
    unfold Hpp.resize. rewrite bind_gets, Hz, Z.ltb_irrefl.
    assert (wrap (0 - 1) = size_type_max) as -> by (by vm_compute).
    destruct (hpp_ensure_capacity_for_loop_max budget s) as (m' & Hrun & Hsz & _).
    exists m'. split; [|done].
    unfold Hpp.ensure_capacity_for. unfold bind at 1. by rewrite Hrun. }
  split; [apply Hrun|].
  destruct (Hrun {| Hpp.chunks := Hpp.chunks m; Hpp.total_size := 0 |})
    as (m' & Hres & Hsz); [done|].
  exists m'. split; [|done].
  unfold Hpp.clear. by rewrite bind_modify.
Qed.

End HppSizing.

(** ** [rope_vector.hpp]: accessors and iteration *)

Section HppObserving.

Context {T : Type}.
Variable ChunkSize : Z.
Variable NDEBUG : bool.

Implicit Types m : Hpp.machine (T:=T).
Implicit Types L : list (option T).
Implicit Types l : list T.

Hypothesis ChunkSize_pos : 0 < ChunkSize.

Lemma hpp_represents_small m l :
  Hpp.represents ChunkSize m l → Z.of_nat (length l) < size_type_modulus.
Proof.
  intros [_ ([Hb _] & Hfit & _)]. rewrite length_fmap in Hfit. lia.
Qed.

(** X26. In [rope_vector.hpp], on a container that holds [l], the
    accessors give references to the right elements: reading through
    [at(i)] yields the [i]-th element, through [front()] the first,
    through [back()] the last, and assigning through [at(i)] replaces the
    [i]-th element and no other. *)
Theorem hpp_accessors_represents m l (i : nat) v :
  Hpp.represents ChunkSize m l → l !! i = Some v →
  (let* r := Hpp.at_ ChunkSize NDEBUG (Z.of_nat i) in Hpp.load r) m = Ret v m
  ∧ (∀ x, head l = Some x →
       (let* r := Hpp.front ChunkSize NDEBUG in Hpp.load r) m = Ret x m)
  ∧ (∀ y, last l = Some y →
       (let* r := Hpp.back ChunkSize NDEBUG in Hpp.load r) m = Ret y m)
  ∧ (∀ w, ∃ m',
       (let* r := Hpp.at_ ChunkSize NDEBUG (Z.of_nat i) in Hpp.store r w) m
       = Ret tt m'
       ∧ Hpp.represents ChunkSize m' (<[i := w]> l)).
Proof.
  intros Hrep Hi. pose proof (hpp_represents_small m l Hrep) as Hsmall.
  destruct Hrep as [Hsize HL].
  pose proof (lookup_lt_Some _ _ _ Hi) as Hlen.
  assert (Hread : ∀ (j : nat) w, l !! j = Some w →
            (let* r := Hpp.subscript ChunkSize NDEBUG (Z.of_nat j) in
             Hpp.load r) m = Ret w m).
  { intros j w Hj.
    apply (hpp_read_spec ChunkSize NDEBUG ChunkSize_pos m _ j w HL).
    - by rewrite list_lookup_fmap, Hj.
    - right. apply lookup_lt_Some in Hj. lia. }
  split_and!.
  - unfold Hpp.at_. rewrite bind_assoc, bind_gets.
    assert ((Hpp.total_size m <=? Z.of_nat i) = false) as -> by lia.
    apply (Hread i v Hi).
  - intros x Hx. unfold Hpp.front. rewrite bind_assoc, bind_gets.
    assert (Hpp.empty m = false) as ->
      by (unfold Hpp.empty; apply Z.eqb_neq; lia).
    apply (Hread O x). by rewrite <- head_lookup.
  - intros y Hy. unfold Hpp.back. rewrite bind_assoc, bind_gets.
    assert (Hpp.empty m = false) as ->
      by (unfold Hpp.empty; apply Z.eqb_neq; lia).
    rewrite bind_assoc, bind_gets. rewrite wrap_small by lia.
    rewrite Hsize.
    replace (Z.of_nat (length l) - 1) with (Z.of_nat (pred (length l))) by lia.
    apply (Hread (pred (length l)) y). by rewrite <- last_lookup.
  - intros w.
    pose proof HL as (_ & Hfit & _). rewrite length_fmap in Hfit.
    destruct (hpp_assign_spec ChunkSize NDEBUG ChunkSize_pos m _ i w HL)
      as (m' & Hassign & Ht & Hsz & HL'); [right; lia|lia|].
    exists m'. split.
    + unfold Hpp.at_. rewrite bind_assoc, bind_gets.
      by assert ((Hpp.total_size m <=? Z.of_nat i) = false) as -> by lia.
    + split; [by rewrite length_insert, Ht|].
      by rewrite list_fmap_insert.
Qed.

Lemma hpp_forward_loop_spec (suffix : list T) :
  ∀ (pre : list T) (n : nat) this m,
  Hpp.represents ChunkSize m (pre ++ suffix) →
  (length suffix <= n)%nat →
  Hpp.forward_loop ChunkSize NDEBUG n
    (Hpp.Iterator this (Z.of_nat (length pre)))
    (Hpp.Iterator this (Z.of_nat (length (pre ++ suffix)))) m
  = Ret suffix m.
Proof.
  induction suffix as [|x suffix IH]; intros pre n this m Hrep Hn.
  - rewrite app_nil_r.
    destruct n; simpl; unfold Hpp.iterator_ne; simpl; by rewrite Z.eqb_refl.
  - destruct n as [|n]; [simpl in Hn; lia|].
    pose proof (hpp_represents_small m _ Hrep) as Hsmall.
    pose proof Hrep as [Hsize HL].
    rewrite length_app in Hsmall. simpl in Hsmall.
    cbn [Hpp.forward_loop]. unfold Hpp.iterator_ne. cbn [Hpp.index].
    assert ((Z.of_nat (length pre)
             =? Z.of_nat (length (pre ++ x :: suffix))) = false) as ->.
    { apply Z.eqb_neq. rewrite length_app. simpl. lia. }
    cbn [negb].
    assert (Hx : (let* r := Hpp.iterator_deref ChunkSize NDEBUG
                              (Hpp.Iterator this (Z.of_nat (length pre)))
                  in Hpp.load r) m = Ret x m).
    { apply (hpp_read_spec ChunkSize NDEBUG ChunkSize_pos m _ (length pre) x HL).
      - by rewrite list_lookup_fmap, lookup_app_r, Nat.sub_diag by done.
      - right. rewrite Hsize, length_app. simpl. lia. }
    rewrite <- (bind_assoc (Hpp.iterator_deref ChunkSize NDEBUG _) Hpp.load).
    rewrite (bind_ret _ _ _ _ _ Hx).
    unfold Hpp.iterator_increment. cbn [Hpp.index Hpp.parent].
    rewrite wrap_small by lia.
    replace (Z.of_nat (length pre) + 1) with (Z.of_nat (length (pre ++ [x])))
      by (rewrite length_app; simpl; lia).
    replace (pre ++ x :: suffix) with ((pre ++ [x]) ++ suffix)
      by (by rewrite <- app_assoc).
    rewrite (bind_ret _ _ _ _ _ (IH (pre ++ [x]) n this m
               ltac:(by rewrite <- app_assoc) ltac:(simpl in Hn; lia))).
    done.
Qed.

(** Updating element [i] in place through its reference. *)
Lemma hpp_update_spec m l (i : nat) v (f : T → T) :
  Hpp.represents ChunkSize m l → l !! i = Some v →
  ∃ r m', Hpp.subscript ChunkSize NDEBUG (Z.of_nat i) m = Ret r m
          ∧ Hpp.load r m = Ret v m
          ∧ Hpp.store r (f v) m = Ret tt m'
          ∧ Hpp.represents ChunkSize m' (<[i := f v]> l).
Proof.
  intros [Hsize HL] Hi.
  pose proof HL as (Hwf & Hfit & Hel). rewrite length_fmap in Hfit.
  pose proof (lookup_lt_Some _ _ _ Hi) as Hlen.
  pose proof (hpp_subscript_spec ChunkSize NDEBUG ChunkSize_pos m i Hwf
                ltac:(right; lia) ltac:(lia)) as Hsub.
  pose proof (hpp_read_spec ChunkSize NDEBUG ChunkSize_pos m _ i v HL
                ltac:(by rewrite list_lookup_fmap, Hi) ltac:(right; lia))
    as Hread.
  unfold Hpp.read in Hread. rewrite (bind_ret _ _ _ _ _ Hsub) in Hread.
  destruct (hpp_assign_spec ChunkSize NDEBUG ChunkSize_pos m _ i (f v) HL)
    as (m' & Hassign & Ht & Hsz & HL'); [right; lia|lia|].
  rewrite (bind_ret _ _ _ _ _ Hsub) in Hassign.
  eexists _, m'. split_and!; [exact Hsub|exact Hread|exact Hassign|].
  split; [by rewrite length_insert, Ht|]. by rewrite list_fmap_insert.
Qed.

Lemma hpp_update_loop_spec (f : T → T) (suffix : list T) :
  ∀ (pre : list T) (n : nat) this m,
  Hpp.represents ChunkSize m ((f <$> pre) ++ suffix) →
  (length suffix <= n)%nat →
  ∃ m', Hpp.update_loop ChunkSize NDEBUG n f this
          (Hpp.Iterator this (Z.of_nat (length pre))) m
        = Ret suffix m'
        ∧ Hpp.represents ChunkSize m' (f <$> (pre ++ suffix)).
Proof.
  induction suffix as [|x suffix IH]; intros pre n this m Hrep Hn.
  - exists m. rewrite !app_nil_r in *. split; [|done].
    destruct Hrep as [Hsize _]. rewrite length_fmap in Hsize.
    destruct n; cbn [Hpp.update_loop]; rewrite bind_gets;
      unfold Hpp.iterator_ne, Hpp.end_; cbn [Hpp.index];
      by rewrite Hsize, Z.eqb_refl.
  - destruct n as [|n]; [simpl in Hn; lia|].
    pose proof (hpp_represents_small m _ Hrep) as Hsmall.
    pose proof Hrep as [Hsize HL].
    rewrite length_app, length_fmap in Hsmall, Hsize.
    simpl in Hsmall, Hsize.
    assert (Hlook : ((f <$> pre) ++ x :: suffix) !! length pre = Some x).
    { by rewrite lookup_app_r, length_fmap, Nat.sub_diag
        by (by rewrite length_fmap). }
    assert (Hx : (let* r := Hpp.iterator_deref ChunkSize NDEBUG
                              (Hpp.Iterator this (Z.of_nat (length pre)))
                  in Hpp.load r) m = Ret x m).
    { apply (hpp_read_spec ChunkSize NDEBUG ChunkSize_pos m _ (length pre) x HL).
      - by rewrite list_lookup_fmap, Hlook.
      - right. lia. }
    destruct (hpp_update_spec m _ (length pre) x f Hrep Hlook)
      as (r & m1 & Hsub & Hload & Hstore & Hrep1).
    assert (Hlist : <[length pre := f x]> ((f <$> pre) ++ x :: suffix)
                    = (f <$> (pre ++ [x])) ++ suffix).
    { rewrite insert_app_r_alt, length_fmap, Nat.sub_diag
        by (by rewrite length_fmap).
      by rewrite fmap_app, <- app_assoc. }
    rewrite Hlist in Hrep1.
    destruct (IH (pre ++ [x]) n this m1 Hrep1) as (m' & Hloop & Hrep');
      [simpl in Hn; lia|].
    exists m'. split.
    + cbn [Hpp.update_loop]. rewrite bind_gets.
      unfold Hpp.iterator_ne, Hpp.end_. cbn [Hpp.index].
      assert ((Z.of_nat (length pre) =? Hpp.total_size m) = false) as ->
        by (apply Z.eqb_neq; lia).
      cbn [negb].
      rewrite <- (bind_assoc (Hpp.iterator_deref ChunkSize NDEBUG _) Hpp.load).
      rewrite (bind_ret _ _ _ _ _ Hx).
      unfold Hpp.iterator_deref at 1. cbn [Hpp.index].
      rewrite (bind_ret _ _ _ _ _ Hsub), (bind_ret _ _ _ _ _ Hload).
      rewrite (bind_ret _ _ _ _ _ Hstore).
      unfold Hpp.iterator_increment. cbn [Hpp.index Hpp.parent].
      rewrite wrap_small by lia.
      replace (Z.of_nat (length pre) + 1) with (Z.of_nat (length (pre ++ [x])))
        by (rewrite length_app; simpl; lia).
      by rewrite (bind_ret _ _ _ _ _ Hloop).
    + by rewrite <- app_assoc in Hrep'.
Qed.

(** X27. In [rope_vector.hpp], walking a container that holds [l] from
    [begin()] to [end()] yields the elements of [l] in order and leaves
    the container alone; the loop of [main.cpp], which updates each
    element through the iterator after reading it, yields [l] as well and
    leaves the container holding the updated elements. *)
Theorem hpp_iterate_represents (fuel : nat) (this : nat) (f : T → T) m l :
  Hpp.represents ChunkSize m l → (length l <= fuel)%nat →
  Hpp.iterate ChunkSize NDEBUG fuel this m = Ret l m
  ∧ ∃ m', Hpp.iterate_update ChunkSize NDEBUG fuel f this m = Ret l m'
          ∧ Hpp.represents ChunkSize m' (f <$> l).
Proof.
  intros Hrep Hfuel. pose proof Hrep as [Hsize _]. split.
  - unfold Hpp.iterate. rewrite bind_gets.
    unfold Hpp.end_, Hpp.begin_. rewrite Hsize.
    apply (hpp_forward_loop_spec l [] fuel this m); done.
  - unfold Hpp.iterate_update, Hpp.begin_.
    apply (hpp_update_loop_spec f l [] fuel this m); done.
Qed.

End HppObserving.

(** ** The intermediate revision: capacity management *)

Section OwnedRevision.

Context {T : Type}.
Variable default_init : option T.
Variable ChunkSize : Z.
Variable NDEBUG : bool.

Implicit Types m : Owned.machine (T:=T).
Implicit Types l : list T.

Hypothesis ChunkSize_pos : 0 < ChunkSize.

Lemma owned_chunks_size_nonneg m : 0 <= Owned.chunks_size m.
Proof. unfold Owned.chunks_size. lia. Qed.

Lemma owned_chunk_lookup m p :
  Owned.well_formed ChunkSize m →
  0 <= p < Owned.chunks_size m * ChunkSize →
  ∃ c, Owned.chunks m !! Z.to_nat (p / ChunkSize) = Some c
       ∧ Owned.slot_at ChunkSize m p = c !! Z.to_nat (p mod ChunkSize).
Proof.
  intros [_ Hlen] Hp.
  pose proof (div_range ChunkSize ChunkSize_pos p _ Hp) as Hdiv.
  destruct (lookup_lt_is_Some_2 (Owned.chunks m) (Z.to_nat (p / ChunkSize)))
    as [c Hc]; [unfold Owned.chunks_size in *; lia|].
  exists c. unfold Owned.slot_at. by rewrite Hc.
Qed.

Lemma owned_capacity_exact m :
  Owned.well_formed ChunkSize m →
  Owned.capacity ChunkSize m = Owned.chunks_size m * ChunkSize.
Proof.
  intros [Hb _]. pose proof (owned_chunks_size_nonneg m).
  unfold Owned.capacity. apply wrap_small. nia.
Qed.

Lemma owned_read_spec m l (i : nat) v :
  Owned.represents ChunkSize m l → l !! i = Some v →
  Owned.read ChunkSize NDEBUG (Z.of_nat i) m = Ret v m.
Proof.
  intros (Hsize & Hwf & Hfit & Hel) Hi.
  pose proof (lookup_lt_Some _ _ _ Hi) as Hlen.
  destruct (owned_chunk_lookup m (Z.of_nat i) Hwf) as (c & Hc & Hslot); [lia|].
  specialize (Hel i v Hi). rewrite Hslot in Hel.
  unfold Owned.read, Owned.subscript. rewrite bind_assoc, bind_gets, bind_assoc.
  assert (Hassert : Owned.assert_ NDEBUG (Z.of_nat i <? Owned.total_size m)
                      "i < total_size" m = Ret tt m).
  { unfold Owned.assert_.
    assert ((Z.of_nat i <? Owned.total_size m) = true) as -> by lia.
    by destruct NDEBUG. }
  rewrite (bind_ret _ _ _ _ _ Hassert), bind_assoc.
  unfold Owned.chunks_at at 1. unfold bind at 1.
  unfold Owned.chunk_index. rewrite Hc.
  unfold Owned.within_chunk_index, bind, ret, Owned.load. simpl.
  by rewrite Hc, Hel.
Qed.

Lemma owned_read_range_spec (suffix : list T) : ∀ (pre : list T) m,
  Owned.represents ChunkSize m (pre ++ suffix) →
  Owned.read_range ChunkSize NDEBUG (length suffix) (Z.of_nat (length pre)) m
  = Ret suffix m.
Proof.
  induction suffix as [|x suffix IH]; intros pre m Hrep; [done|].
  simpl.
  rewrite (bind_ret _ _ _ _ _
             (owned_read_spec m _ (length pre) x Hrep
                ltac:(by rewrite lookup_app_r, Nat.sub_diag by done))).
  replace (Z.of_nat (length pre) + 1) with (Z.of_nat (length (pre ++ [x])))
    by (rewrite length_app; simpl; lia).
  rewrite (bind_ret _ _ _ _ _
             (IH (pre ++ [x]) m ltac:(by rewrite <- app_assoc))).
  done.
Qed.

Lemma owned_to_list_spec m l :
  Owned.represents ChunkSize m l → Owned.to_list ChunkSize NDEBUG m = Ret l m.
Proof.
  intros Hrep. pose proof Hrep as [Hsize _].
  unfold Owned.to_list. rewrite bind_gets, Hsize, Nat2Z.id.
  apply (owned_read_range_spec l [] m Hrep).
Qed.

Lemma owned_ensure_capacity_for_wf (n : nat) : ∀ m i,
  Owned.well_formed ChunkSize m →
  0 <= i → i + ChunkSize < size_type_modulus →
  i / ChunkSize + 1 - Owned.chunks_size m <= Z.of_nat n →
  ∃ m', Owned.ensure_capacity_for default_init ChunkSize n i m = Ret tt m'
        ∧ Owned.well_formed ChunkSize m'
        ∧ Owned.chunks_size m'
          = Z.max (Owned.chunks_size m) (i / ChunkSize + 1)
        ∧ Owned.total_size m' = Owned.total_size m
        ∧ (i < Owned.chunks_size m * ChunkSize → m' = m)
        ∧ (∀ p, 0 <= p < Owned.chunks_size m * ChunkSize →
             Owned.slot_at ChunkSize m' p = Owned.slot_at ChunkSize m p).
Proof.
  unfold Owned.ensure_capacity_for.
  induction n as [|n IH]; intros m i Hwf Hi Hbound Hfuel;
    pose proof (owned_chunks_size_nonneg m);
    pose proof Hwf as [Hb Hall];
    simpl; rewrite (wrap_small (Owned.chunks_size m * ChunkSize)) by lia;
    destruct (Z.leb_spec (Owned.chunks_size m * ChunkSize) i) as [Hle|Hgt];
    try (assert (Hq : Owned.chunks_size m <= i / ChunkSize)
           by (apply Z.div_le_lower_bound; lia));
    try (assert (Hq : i / ChunkSize < Owned.chunks_size m)
           by (apply Z.div_lt_upper_bound; lia)).
  - lia.
  - exists m. split_and!; try done. lia.
  - set (m1 := {| Owned.chunks := Owned.chunks m
                     ++ [Owned.allocate_chunk default_init ChunkSize];
                  Owned.total_size := Owned.total_size m |}).
    assert (Hsize1 : Owned.chunks_size m1 = Owned.chunks_size m + 1).
    { unfold Owned.chunks_size, m1. simpl. rewrite length_app. simpl. lia. }
    assert (Hwf1 : Owned.well_formed ChunkSize m1).
    { split; [rewrite Hsize1; nia|].
      intros c [Hc| ->%list_elem_of_singleton]%elem_of_app; [by apply Hall|].
      unfold Owned.allocate_chunk. rewrite length_replicate. lia. }
    destruct (IH m1 i Hwf1) as (m' & -> & Hwf' & Hsize & Htot & _ & Hslot);
      try done; [lia|].
    exists m'. split_and!; try done.
    + rewrite Hsize, Hsize1. lia.
    + lia.
    + intros p Hp. rewrite Hslot by (rewrite Hsize1; nia).
      unfold Owned.slot_at, m1. simpl.
      pose proof (div_range ChunkSize ChunkSize_pos p _ Hp).
      by rewrite lookup_app_l by (unfold Owned.chunks_size in *; lia).
  - exists m. split_and!; try done. lia.
Qed.

(** X28. Intermediate revision. [reserve(n)] on a container that holds
    [l]: it returns, the container still holds [l], [capacity()] is at
    least [n] and at least [size()] and has not gone down, and nothing
    happens at all when [capacity()] was already [n] or more. *)
Theorem owned_reserve_represents (fuel : nat) m l n :
  Owned.represents ChunkSize m l →
  0 <= n → n + ChunkSize <= size_type_modulus →
  n / ChunkSize + 1 <= Z.of_nat fuel →
  ∃ m', Owned.reserve default_init ChunkSize fuel n m = Ret tt m'
        ∧ Owned.represents ChunkSize m' l
        ∧ n <= Owned.capacity ChunkSize m'
        ∧ Owned.capacity ChunkSize m <= Owned.capacity ChunkSize m'
        ∧ Owned.size m' <= Owned.capacity ChunkSize m'
        ∧ (n <= Owned.capacity ChunkSize m → m' = m).
Proof.
  intros Hrep Hn Hbound Hfuel.
  pose proof Hrep as (Hsize & Hwf & Hfit & Hel).
  pose proof (owned_chunks_size_nonneg m).
  pose proof (owned_capacity_exact m Hwf) as Hcap.
  unfold Owned.reserve. rewrite bind_gets.
  destruct (Z.ltb_spec (Owned.capacity ChunkSize m) n) as [Hlt|Hge].
  - rewrite (wrap_small (n - 1)) by lia.
    pose proof (Z.div_le_mono (n - 1) n ChunkSize ChunkSize_pos ltac:(lia)).
    destruct (owned_ensure_capacity_for_wf fuel m (n - 1) Hwf)
      as (m' & Hrun & Hwf' & Hsize' & Htot' & _ & Hslot); [lia..|].
    pose proof (Z.mul_succ_div_gt (n - 1) ChunkSize ChunkSize_pos) as Hup.
    pose proof (owned_capacity_exact m' Hwf') as Hcap'.
    exists m'. split_and!; try done.
    + split_and!; [congruence|done|nia|].
      intros i v Hi. pose proof (lookup_lt_Some _ _ _ Hi).
      rewrite Hslot by lia. by apply Hel.
    + rewrite Hcap', Hsize'. nia.
    + rewrite Hcap, Hcap', Hsize'. nia.
    + unfold Owned.size. rewrite Hcap', Hsize', Htot'. nia.
    + lia.
  - exists m. split_and!; try done. unfold Owned.size. lia.
Qed.

Lemma owned_shrink_to_fit_loop_spec (n : nat) : ∀ m (r : nat),
  (length (Owned.chunks m) - r <= n)%nat →
  Owned.shrink_to_fit_loop n (Z.of_nat r) m
  = Ret tt {| Owned.chunks := take r (Owned.chunks m);
              Owned.total_size := Owned.total_size m |}.
Proof.
  induction n as [|n IH]; intros m r Hn; simpl;
    destruct (Z.ltb_spec (Z.of_nat r) (Owned.chunks_size m)) as [Hlt|Hge];
    unfold Owned.chunks_size in *.
  - lia.
  - rewrite take_ge by lia. by destruct m.
  - destruct (Owned.chunks m) as [|c cs] eqn:Hcs; [simpl in Hlt; lia|].
    rewrite IH; cbn [Owned.chunks Owned.total_size].
    + f_equal. f_equal.
      rewrite removelast_firstn_len, take_take. f_equal.
      cbn [length] in *. lia.
    + rewrite removelast_firstn_len, length_take. cbn [length] in *. lia.
  - rewrite take_ge by lia. by destruct m.
Qed.

(** X29. Intermediate revision. [shrink_to_fit()] on a container that
    holds [l]: it returns, [chunks] is cut to its first
    [ceil(size() / ChunkSize)] entries, the container still holds [l] and
    reads back as [l], and fewer than [ChunkSize] slots are left unused. *)
Theorem owned_shrink_to_fit_represents (fuel : nat) m l :
  Owned.represents ChunkSize m l →
  Owned.chunks_size m <= Z.of_nat fuel →
  let required :=
    Owned.total_size m / ChunkSize
    + (if Owned.total_size m mod ChunkSize =? 0 then 0 else 1) in
  ∃ m', Owned.shrink_to_fit ChunkSize fuel m = Ret tt m'
        ∧ Owned.represents ChunkSize m' l
        ∧ Owned.to_list ChunkSize NDEBUG m' = Ret l m'
        ∧ Owned.chunks m' = take (Z.to_nat required) (Owned.chunks m)
        ∧ Owned.chunks_size m' = required
        ∧ Owned.capacity ChunkSize m' - Owned.size m' < ChunkSize.
Proof.
  intros Hrep Hfuel required.
  pose proof Hrep as (Hsize & Hwf & Hfit & Hel).
  pose proof Hwf as [Hb Hall].
  pose proof (owned_chunks_size_nonneg m).
  set (t := Owned.total_size m) in *.
  assert (Ht : 0 <= t) by lia.
  pose proof (Z.div_mod t ChunkSize ltac:(lia)) as Hdm.
  pose proof (Z.mod_pos_bound t ChunkSize ChunkSize_pos) as Hmod.
  pose proof (Z.div_pos t ChunkSize Ht ChunkSize_pos) as Hdiv.
  assert (Hreq : 0 <= required ∧ t <= required * ChunkSize
                 ∧ required * ChunkSize < t + ChunkSize
                 ∧ required <= Owned.chunks_size m).
  { unfold required. destruct (Z.eqb_spec (t mod ChunkSize) 0); nia. }
  destruct Hreq as (Hr0 & Hr1 & Hr2 & Hr3).
  set (m' := {| Owned.chunks := take (Z.to_nat required) (Owned.chunks m);
                Owned.total_size := t |}).
  assert (Hsz' : Owned.chunks_size m' = required).
  { unfold Owned.chunks_size, m' in *. simpl. rewrite length_take. lia. }
  assert (Hwf' : Owned.well_formed ChunkSize m').
  { split; [rewrite Hsz'; nia|].
    intros c Hc. apply Hall.
    apply (subseteq_take (Z.to_nat required)). exact Hc. }
  assert (Hrep' : Owned.represents ChunkSize m' l).
  { split_and!; [done|done|rewrite Hsz'; lia|].
    intros i v Hi. pose proof (lookup_lt_Some _ _ _ Hi).
    rewrite <- (Hel i v Hi). unfold Owned.slot_at, m'. simpl.
    assert (Z.of_nat i / ChunkSize < required)
      by (apply Z.div_lt_upper_bound; lia).
    pose proof (Z.div_pos (Z.of_nat i) ChunkSize ltac:(lia) ChunkSize_pos).
    by rewrite lookup_take_lt by lia. }
  exists m'. split_and!; try done.
  - unfold Owned.shrink_to_fit. rewrite bind_gets.
    unfold Owned.chunk_index, Owned.within_chunk_index. fold t. fold required.
    rewrite (wrap_small required) by nia.
    rewrite <- (Z2Nat.id required) at 1 by done.
    rewrite owned_shrink_to_fit_loop_spec; [done|].
    unfold Owned.chunks_size in *. lia.
  - by apply owned_to_list_spec.
  - rewrite (owned_capacity_exact m' Hwf'), Hsz'. unfold Owned.size, m'. simpl.
    lia.
Qed.

End OwnedRevision.

(** ** The sanity test against two revisions *)

(** X30. The sanity test, which runs [rope_vector<int>] through its
    members with an [assert] after each call. Against [rope_vector.hpp]
    every assertion holds and [main] returns. Against the evolved revision
    the calls up to the first [insert] pass, and [insert(1, 15)] ends the
    process: the position is in the back half, where the shift loop takes
    [operator[]] of [total_size]. *)
Theorem sanity_checks_outcome :
  let hpp := SanityTest.hpp_rope_vector false in
  let evolved := SanityTest.evolved_rope_vector false in
  forget (SanityTest.sanity_checks false (rv := hpp)
            (SanityTest.rv_init (RopeVectorInt := hpp)))
  = Ret tt tt
  ∧ forget (SanityTest.push_back_checks false (rv := evolved)
              (SanityTest.rv_init (RopeVectorInt := evolved)))
    = Ret tt tt
  ∧ forget (SanityTest.sanity_checks false (rv := evolved)
              (SanityTest.rv_init (RopeVectorInt := evolved)))
    = Abort "i < total_size".
Proof. vm_compute. by split_and!. Qed.

(** ** The properties on small containers *)

Lemma one_chunk_represents (s : nat) (l : list Z) :
  (s < 4)%nat → (s + length l <= 4)%nat →
  represents 4 (Sample.one_chunk s l) l.
Proof.
  intros Hs Hl. split; [done|]. unfold layout. split_and!.
  - constructor; simpl.
    + lia.
    + unfold chunks_size. simpl. lia.
    + done.
    + apply NoDup_singleton.
    + intros h ->%list_elem_of_singleton. lia.
    + intros [|k] h _ Hk; simpl in Hk; [|done]. simplify_eq.
      eexists. split; [apply lookup_singleton_eq|].
      rewrite !length_app, !length_replicate, length_fmap. lia.
    + intros k h Hk. lia.
  - unfold position, chunks_size. simpl. rewrite length_fmap. lia.
  - intros i v Hi. pose proof (lookup_lt_Some _ _ _ Hi) as Hlt.
    rewrite length_fmap in Hlt.
    unfold position, slot_at. simpl.
    rewrite Z.div_small, Z.mod_small by lia. simpl.
    replace (0 * 4 + Z.of_nat s + Z.of_nat i) with (Z.of_nat (s + i)) by lia.
    rewrite lookup_singleton_eq, Nat2Z.id.
    rewrite lookup_app_r by (rewrite length_replicate; lia).
    rewrite length_replicate.
    replace (s + i - s)%nat with i by lia.
    rewrite lookup_app_l by (rewrite length_fmap; lia).
    by rewrite <- Hi, !list_lookup_fmap.
Qed.

Lemma wide_chunk_represents (s : nat) (l : list Z) :
  (s < 16)%nat → (s + length l <= 16)%nat →
  represents 16 (Sample.wide_chunk s l) l.
Proof.
  intros Hs Hl. split; [done|]. unfold layout. split_and!.
  - constructor; simpl.
    + lia.
    + unfold chunks_size. simpl. lia.
    + done.
    + apply NoDup_singleton.
    + intros h ->%list_elem_of_singleton. lia.
    + intros [|k] h _ Hk; simpl in Hk; [|done]. simplify_eq.
      eexists. split; [apply lookup_singleton_eq|].
      rewrite !length_app, !length_replicate, length_fmap. lia.
    + intros k h Hk. lia.
  - unfold position, chunks_size. simpl. rewrite length_fmap. lia.
  - intros i v Hi. pose proof (lookup_lt_Some _ _ _ Hi) as Hlt.
    rewrite length_fmap in Hlt.
    unfold position, slot_at. simpl.
    rewrite Z.div_small, Z.mod_small by lia. simpl.
    replace (0 * 16 + Z.of_nat s + Z.of_nat i) with (Z.of_nat (s + i)) by lia.
    rewrite lookup_singleton_eq, Nat2Z.id.
    rewrite lookup_app_r by (rewrite length_replicate; lia).
    rewrite length_replicate.
    replace (s + i - s)%nat with i by lia.
    rewrite lookup_app_l by (rewrite length_fmap; lia).
    by rewrite <- Hi, !list_lookup_fmap.
Qed.

Lemma spare_chunk_represents : represents 4 Sample.spare_chunk [10; 20].
Proof.
  split; [done|]. unfold layout. split_and!.
  - constructor; simpl.
    + lia.
    + unfold chunks_size. simpl. lia.
    + done.
    + apply NoDup_cons. split; [|apply NoDup_singleton].
      by intros ?%list_elem_of_singleton.
    + intros h Hh.
      repeat (apply elem_of_cons in Hh as [->|Hh]; [lia|]).
      by apply elem_of_nil in Hh.
    + intros [|[|k]] h _ Hk; simpl in Hk; [| |done]; simplify_eq;
        by eexists.
    + intros k h Hk. lia.
  - by vm_compute.
  - intros i v Hi. do 2 (destruct i as [|i]; [by simplify_eq/=|]). done.
Qed.

Lemma hpp_one_chunk_represents (l : list Z) :
  (length l <= 4)%nat → Hpp.represents 4 (Sample.hpp_one_chunk l) l.
Proof.
  intros Hl. split; [done|]. unfold Hpp.layout. split_and!.
  - split; [done|]. intros c ->%list_elem_of_singleton.
    rewrite length_app, length_replicate. lia.
  - unfold Hpp.chunks_size. simpl. rewrite length_fmap. lia.
  - intros i v Hi. pose proof (lookup_lt_Some _ _ _ Hi) as Hlt.
    rewrite length_fmap in Hlt.
    unfold Hpp.slot_at. simpl.
    rewrite Z.div_small, Z.mod_small by lia. simpl.
    rewrite Nat2Z.id, lookup_app_l by lia.
    rewrite list_lookup_fmap in Hi.
    destruct (l !! i); by simplify_eq/=.
Qed.

Lemma owned_five_represents :
  Owned.represents 4 Sample.owned_five [10; 20; 30; 40; 50].
Proof.
  split_and!; [done| |done|].
  - split; [done|]. intros c Hc.
    repeat (apply elem_of_cons in Hc as [->|Hc]; [done|]).
    by apply elem_of_nil in Hc.
  - intros i v Hi. do 5 (destruct i as [|i]; [by simplify_eq/=|]). done.
Qed.

(** The side conditions of a property on such a container. *)
Ltac sample_side :=
  lazymatch goal with
  | |- represents _ _ _ =>
      first [ apply one_chunk_represents; simpl; lia
            | apply wide_chunk_represents; simpl; lia
            | apply spare_chunk_represents ]
  | |- well_formed _ _ =>
      eapply proj1, proj2, one_chunk_represents; simpl; lia
  | |- Hpp.represents _ _ _ => apply hpp_one_chunk_represents; simpl; lia
  | |- Owned.represents _ _ _ => apply owned_five_represents
  | |- _ ∨ _ => first [left; sample_side | right; sample_side]
  | |- _ ∧ _ => split; sample_side
  | |- _ => first [done | lia | by vm_compute | simpl; lia]
  end.

Lemma to_list_represents_witness :
  let ChunkSize := 4 in
  let NDEBUG := false in
  let m := Sample.one_chunk 1 [10; 20] in
  let l := [10; 20] in
   to_list ChunkSize NDEBUG m = Ret l m.
Proof. cbv zeta. eapply to_list_represents; sample_side. Defined.

Lemma accessors_represents_witness :
  let ChunkSize := 4 in
  let NDEBUG := false in
  let m := Sample.one_chunk 1 [10; 20; 30] in
  let l := [10; 20; 30] in
  let i := 1%nat in
  let v := 20 in
  (let* r := at_ ChunkSize NDEBUG (Z.of_nat i) in load r) m = Ret v m
  ∧ (∀ x, head l = Some x →
       (let* r := front ChunkSize NDEBUG in load r) m = Ret x m)
  ∧ (∀ y, last l = Some y →
       (let* r := back ChunkSize NDEBUG in load r) m = Ret y m).
Proof. cbv zeta. eapply accessors_represents; sample_side. Defined.

Lemma capacity_represents_witness :
  let ChunkSize := 4 in
  let m := Sample.one_chunk 1 [10; 20] in
  let l := [10; 20] in
  capacity ChunkSize m
  = (chunks_size m - front_chunk_index m) * ChunkSize - start_index m
  ∧ size m <= capacity ChunkSize m.
Proof. cbv zeta. eapply capacity_represents; sample_side. Defined.

Lemma push_back_represents_witness :
  let default_init := @None Z in
  let ChunkSize := 4 in
  let NDEBUG := false in
  let fuel := 1%nat in
  let m := Sample.one_chunk 1 [10; 20] in
  let l := [10; 20] in
  let v := 30 in
  ∃ m', push_back default_init ChunkSize NDEBUG fuel v m = Ret tt m'
        ∧ represents ChunkSize m' (l ++ [v])
        ∧ start_index m' = start_index m
        ∧ front_chunk_index m' = front_chunk_index m.
Proof. cbv zeta. eapply push_back_represents; sample_side. Defined.

Lemma push_back_sequence_witness :
  let value_init := 0 in
  let default_init := @None Z in
  let ChunkSize := 4 in
  let NDEBUG := false in
  let fuel := 1%nat in
  let vs := [10; 20; 30; 40; 50] in
  ∃ m, run value_init default_init ChunkSize NDEBUG fuel (PushBack <$> vs)
       = Ret tt m
       ∧ represents ChunkSize m vs
       ∧ size m = Z.of_nat (length vs)
       ∧ to_list ChunkSize NDEBUG m = Ret vs m.
Proof. cbv zeta. eapply push_back_sequence; sample_side. Defined.

Lemma erase_front_represents_witness :
  let ChunkSize := 4 in
  let NDEBUG := false in
  let m := Sample.one_chunk 1 [10; 20; 30] in
  let x := 10 in
  let l := [20; 30] in
  ∃ m', erase_front ChunkSize NDEBUG m = Ret tt m'
        ∧ represents ChunkSize m' l
        ∧ chunks m' = chunks m
        ∧ (start_index m + 1 < ChunkSize →
             heap m' = heap m
             ∧ start_index m' = start_index m + 1
             ∧ front_chunk_index m' = front_chunk_index m)
        ∧ (start_index m + 1 = ChunkSize →
             ∃ h, chunks m !! Z.to_nat (front_chunk_index m) = Some h
                  ∧ is_Some (heap m !! h)
                  ∧ heap m' = delete h (heap m)
                  ∧ start_index m' = 0
                  ∧ front_chunk_index m' = front_chunk_index m + 1).
Proof. cbv zeta. eapply erase_front_represents; sample_side. Defined.

Lemma destroy_well_formed_witness :
  let ChunkSize := 4 in
  let m := Sample.one_chunk 1 [10; 20] in
  (front_chunk_index m = 0 →
     ∃ m', destroy m = Ret tt m'
           ∧ (∀ h, h ∈ chunks m → heap m' !! h = None)
           ∧ (∀ h, h ∉ chunks m → heap m' !! h = heap m !! h))
  ∧ (0 < front_chunk_index m →
     ∃ h, chunks m !! O = Some h ∧ destroy m = Undefined (double_free h)).
Proof. cbv zeta. eapply destroy_well_formed; sample_side. Defined.

Lemma erase_represents_witness :
  let ChunkSize := 4 in
  let NDEBUG := false in
  let m := Sample.one_chunk 1 [10; 20; 30] in
  let l := [10; 20; 30] in
  let pos := 1%nat in
  ∃ m', erase ChunkSize NDEBUG (Z.of_nat pos) m = Ret tt m'
        ∧ represents ChunkSize m' (delete pos l)
        ∧ chunks m' = chunks m
        ∧ start_index m' = start_index m
        ∧ front_chunk_index m' = front_chunk_index m.
Proof. cbv zeta. eapply erase_represents; sample_side. Defined.

Lemma insert_back_half_aborts_witness :
  let default_init := @None Z in
  let ChunkSize := 4 in
  let NDEBUG := false in
  let fuel := 1%nat in
  let m := Sample.one_chunk 0 [10; 20; 30] in
  let l := [10; 20; 30] in
  let pos := 1%nat in
  let value := Outside 15 in
  insert default_init ChunkSize NDEBUG fuel (Z.of_nat pos) value m
  = Abort "i < total_size".
Proof. cbv zeta. eapply insert_back_half_aborts; sample_side. Defined.


Lemma resize_represents_witness :
  let value_init := 0 in
  let default_init := @None Z in
  let ChunkSize := 4 in
  let fuel := 2%nat in
  let m := Sample.one_chunk 0 [10; 20; 30] in
  let l := [10; 20; 30] in
  (∀ k : nat, (k < length l)%nat →
     resize value_init default_init ChunkSize fuel (Z.of_nat k) m
     = Ret tt (set_total_size (Z.of_nat k) m)
     ∧ represents ChunkSize (set_total_size (Z.of_nat k) m) (take k l))
  ∧ (∀ k : nat,
       start_index m = 0 → front_chunk_index m = 0 →
       (1 <= length l + k)%nat →
       Z.of_nat (length l + k) + ChunkSize <= size_type_modulus →
       Z.of_nat (length l + k) / ChunkSize + 1 <= Z.of_nat fuel →
       ∃ m', resize value_init default_init ChunkSize fuel
               (Z.of_nat (length l + k)) m = Ret tt m'
             ∧ represents ChunkSize m' (l ++ replicate k value_init)
             ∧ start_index m' = 0 ∧ front_chunk_index m' = 0).
Proof. cbv zeta. eapply resize_represents; sample_side. Defined.

Lemma reserve_represents_witness :
  let default_init := @None Z in
  let ChunkSize := 4 in
  let fuel := 2%nat in
  let m := Sample.one_chunk 0 [10; 20] in
  let l := [10; 20] in
  let n := 6 in
  ∃ m', reserve default_init ChunkSize fuel n m = Ret tt m'
        ∧ represents ChunkSize m' l
        ∧ capacity ChunkSize m <= capacity ChunkSize m'
        ∧ (front_chunk_index m = 0 → n <= capacity ChunkSize m').
Proof. cbv zeta. eapply reserve_represents; sample_side. Defined.

Lemma equal_represents_witness :
  let ChunkSize := 4 in
  let NDEBUG := false in
  let T_ne := λ x y : Z, negb (x =? y) in
  let a := Sample.one_chunk 0 [10; 20] in
  let b := Sample.one_chunk 1 [10; 20] in
  let la := [10; 20] in
  let lb := [10; 20] in
  ∃ c, equal ChunkSize NDEBUG T_ne b a = Ret c a
       ∧ (c = true ↔ la = lb)
       ∧ not_equal ChunkSize NDEBUG T_ne b a = Ret (negb c) a.
Proof. cbv zeta. eapply equal_represents; sample_side. Defined.

Lemma iterate_represents_witness :
  let ChunkSize := 4 in
  let NDEBUG := false in
  let fuel := 2%nat in
  let this := 0%nat in
  let m := Sample.one_chunk 1 [10; 20] in
  let l := [10; 20] in
  iterate ChunkSize NDEBUG fuel this m = Ret l m
  ∧ iterate_reverse ChunkSize NDEBUG fuel this m = Ret (reverse l) m.
Proof. cbv zeta. eapply iterate_represents; sample_side. Defined.

Lemma iterator_arithmetic_inverse_witness :
  let i := 0 in
  let n := 1 in
  let this := 0%nat in
  let it := Iterator this i in
  let rit := ReverseIterator this i in
  iterator_minus (iterator_plus it n) n = it
  ∧ iterator_plus (iterator_minus it n) n = it
  ∧ iterator_decrement (iterator_increment it) = it
  ∧ iterator_increment (iterator_decrement it) = it
  ∧ reverse_minus (reverse_plus rit n) n = rit
  ∧ reverse_plus (reverse_minus rit n) n = rit
  ∧ reverse_decrement (reverse_increment rit) = rit
  ∧ reverse_increment (reverse_decrement rit) = rit.
Proof. cbv zeta. eapply iterator_arithmetic_inverse; sample_side. Defined.

Lemma hpp_push_back_represents_witness :
  let value_init := 0 in
  let ChunkSize := 4 in
  let fuel := 1%nat in
  let m := Sample.hpp_one_chunk [10; 20] in
  let l := [10; 20] in
  let v := 30 in
  ∃ m', Hpp.push_back value_init ChunkSize fuel v m = Ret tt m'
        ∧ Hpp.represents ChunkSize m' (l ++ [v]).
Proof. cbv zeta. eapply hpp_push_back_represents; sample_side. Defined.

Lemma hpp_erase_represents_witness :
  let ChunkSize := 4 in
  let NDEBUG := false in
  let m := Sample.hpp_one_chunk [10; 20; 30] in
  let l := [10; 20; 30] in
  let pos := 1%nat in
  ∃ m', Hpp.erase ChunkSize NDEBUG (Z.of_nat pos) m = Ret tt m'
        ∧ Hpp.represents ChunkSize m' (delete pos l)
        ∧ Hpp.chunks_size m' = Hpp.chunks_size m.
Proof. cbv zeta. eapply hpp_erase_represents; sample_side. Defined.

Lemma hpp_insert_erase_round_trip_witness :
  let value_init := 0 in
  let ChunkSize := 4 in
  let NDEBUG := false in
  let fuel := 1%nat in
  let m := Sample.hpp_one_chunk [10; 20; 30] in
  let l := [10; 20; 30] in
  let pos := 1%nat in
  (∀ v, ∃ m' m'',
     Hpp.insert value_init ChunkSize NDEBUG fuel (Z.of_nat pos)
       (Hpp.Outside v) m = Ret tt m'
     ∧ Hpp.size m' = Hpp.size m + 1
     ∧ Hpp.erase ChunkSize NDEBUG (Z.of_nat pos) m' = Ret tt m''
     ∧ Hpp.represents ChunkSize m'' l
     ∧ Hpp.to_list ChunkSize NDEBUG m'' = Ret l m'')
  ∧ (∀ j : nat, (j < length l)%nat →
       ∃ m' m'',
         (let* r := Hpp.subscript ChunkSize NDEBUG (Z.of_nat j) in
          Hpp.insert value_init ChunkSize NDEBUG fuel (Z.of_nat pos)
            (Hpp.Slot r)) m = Ret tt m'
         ∧ Hpp.size m' = Hpp.size m + 1
         ∧ Hpp.erase ChunkSize NDEBUG (Z.of_nat pos) m' = Ret tt m''
         ∧ Hpp.represents ChunkSize m'' l
         ∧ Hpp.to_list ChunkSize NDEBUG m'' = Ret l m'').
Proof. cbv zeta. eapply hpp_insert_erase_round_trip; sample_side. Defined.

Lemma hpp_resize_represents_witness :
  let value_init := 0 in
  let ChunkSize := 4 in
  let fuel := 2%nat in
  let m := Sample.hpp_one_chunk [10; 20; 30] in
  let l := [10; 20; 30] in
  (∃ m', Hpp.clear m = Ret tt m'
         ∧ Hpp.represents ChunkSize m' []
         ∧ Hpp.chunks m' = Hpp.chunks m)
  ∧ (∀ k : nat, (k < length l)%nat →
     ∃ m', Hpp.resize value_init ChunkSize fuel (Z.of_nat k) m = Ret tt m'
           ∧ Hpp.represents ChunkSize m' (take k l)
           ∧ Hpp.chunks m' = Hpp.chunks m)
  ∧ (∀ k : nat, (1 <= length l + k)%nat →
     Z.of_nat (length l + k) + ChunkSize <= size_type_modulus →
     Z.of_nat (length l + k) / ChunkSize + 1 <= Z.of_nat fuel →
     ∃ m', Hpp.resize value_init ChunkSize fuel (Z.of_nat (length l + k)) m
           = Ret tt m'
           ∧ Hpp.represents ChunkSize m' (l ++ replicate k value_init)).
Proof. cbv zeta. eapply hpp_resize_represents; sample_side. Defined.

Lemma owned_reserve_represents_witness :
  let default_init := @None Z in
  let ChunkSize := 4 in
  let fuel := 5%nat in
  let m := Sample.owned_five in
  let l := [10; 20; 30; 40; 50] in
  let n := 14 in
  ∃ m', Owned.reserve default_init ChunkSize fuel n m = Ret tt m'
        ∧ Owned.represents ChunkSize m' l
        ∧ n <= Owned.capacity ChunkSize m'
        ∧ Owned.capacity ChunkSize m <= Owned.capacity ChunkSize m'
        ∧ Owned.size m' <= Owned.capacity ChunkSize m'
        ∧ (n <= Owned.capacity ChunkSize m → m' = m).
Proof. cbv zeta. eapply owned_reserve_represents; sample_side. Defined.

Lemma owned_shrink_to_fit_represents_witness :
  let ChunkSize := 4 in
  let NDEBUG := false in
  let fuel := 3%nat in
  let m := Sample.owned_five in
  let l := [10; 20; 30; 40; 50] in
  let required :=
    Owned.total_size m / ChunkSize
    + (if Owned.total_size m mod ChunkSize =? 0 then 0 else 1) in
  ∃ m', Owned.shrink_to_fit ChunkSize fuel m = Ret tt m'
        ∧ Owned.represents ChunkSize m' l
        ∧ Owned.to_list ChunkSize NDEBUG m' = Ret l m'
        ∧ Owned.chunks m' = take (Z.to_nat required) (Owned.chunks m)
        ∧ Owned.chunks_size m' = required
        ∧ Owned.capacity ChunkSize m' - Owned.size m' < ChunkSize.
Proof. cbv zeta. eapply owned_shrink_to_fit_represents; sample_side. Defined.

Lemma hpp_accessors_represents_witness :
  let ChunkSize := 4 in
  let NDEBUG := false in
  let m := Sample.hpp_one_chunk [10; 20; 30] in
  let l := [10; 20; 30] in
  let i := 1%nat in
  let v := 20 in
  (let* r := Hpp.at_ ChunkSize NDEBUG (Z.of_nat i) in Hpp.load r) m = Ret v m
  ∧ (∀ x, head l = Some x →
       (let* r := Hpp.front ChunkSize NDEBUG in Hpp.load r) m = Ret x m)
  ∧ (∀ y, last l = Some y →
       (let* r := Hpp.back ChunkSize NDEBUG in Hpp.load r) m = Ret y m)
  ∧ (∀ w, ∃ m',
       (let* r := Hpp.at_ ChunkSize NDEBUG (Z.of_nat i) in Hpp.store r w) m
       = Ret tt m'
       ∧ Hpp.represents ChunkSize m' (<[i := w]> l)).
Proof. cbv zeta. eapply hpp_accessors_represents; sample_side. Defined.

Lemma hpp_iterate_represents_witness :
  let ChunkSize := 4 in
  let NDEBUG := false in
  let fuel := 3%nat in
  let this := 0%nat in
  let f := Z.succ in
  let m := Sample.hpp_one_chunk [10; 20; 30] in
  let l := [10; 20; 30] in
  Hpp.iterate ChunkSize NDEBUG fuel this m = Ret l m
  ∧ ∃ m', Hpp.iterate_update ChunkSize NDEBUG fuel f this m = Ret l m'
          ∧ Hpp.represents ChunkSize m' (f <$> l).
Proof. cbv zeta. eapply hpp_iterate_represents; sample_side. Defined.




(** [shrink_to_fit()] on a container of two chunks whose elements fit in
    the first: the second chunk is deleted and popped. *)
Lemma shrink_to_fit_represents_witness :
  let m := Sample.spare_chunk in
  ∃ m', shrink_to_fit 4 2 m = Ret tt m'
        ∧ represents 4 m' [10; 20]
        ∧ chunks m' = [0%nat]
        ∧ chunks_size m' <= 1
        ∧ (∀ h, h ∈ [1%nat] → heap m' !! h = None)
        ∧ (∀ h, h ∉ [1%nat] → heap m' !! h = heap m !! h).
Proof.
  intros m.
  apply (shrink_to_fit_represents 4 ltac:(done) 2 m [10; 20]); sample_side.
Defined.
